(** * GeoStruct: the mesh analysis engine ([utils/geometryUtils.ts])

    [analyzeGeometry] turns a position buffer and an optional index buffer
    into vertex, face, soup, half-edge and winged-edge tables.  The
    development embeds the function stage by stage and checks the
    properties the specification states about its output. *)

From Stdlib Require Import Ascii.
From stdpp Require Import base option list list_monad numbers.
From stdpp Require Import strings pretty fin_maps gmap natmap.

Local Open Scope Z_scope.
Local Open Scope nat_scope.

(** * Numbers and strings of the host language *)

(** The coordinates are JavaScript Numbers.  The engine touches them only
    through [n * 100], [Math.round], [/ 100] and the rendering done by a
    template literal, so these operations form the interface.  A value of
    [num] is a Number up to the identification the rendering makes
    (one zero, one NaN). *)
Class JSNumber (num : Type) := {
  num_NaN : num;                    (* ToNumber(undefined) *)
  num_100 : num;                    (* the literal 100 *)
  num_mul : num → num → num;
  num_div : num → num → num;
  Math_round : num → num;
  num_toString : num → string       (* `${n}` *)
}.

(** [has_sep s]: the separator character of the keys occurs in [s]. *)
Fixpoint has_sep (s : string) : bool :=
  match s with
  | EmptyString => false
  | String c s' => if Ascii.eqb c "_"%char then true else has_sep s'
  end.

(** What the rendering of Numbers guarantees: distinct values have
    distinct renderings, and no rendering contains an underscore. *)
Class JSNumberLaws (num : Type) `{JSNumber num} : Prop := {
  num_toString_inj : ∀ a b : num, num_toString a = num_toString b → a = b;
  num_toString_sep : ∀ a : num, has_sep (num_toString a) = false
}.

(** A loop body that may throw: [None] is the exception. *)
Fixpoint forEachM {A S : Type} (f : S → A → option S) (s : S) (l : list A)
    : option S :=
  match l with
  | [] => Some s
  | a :: l' => s' ← f s a; forEachM f s' l'
  end.

Lemma forEachM_cons {A S : Type} (f : S → A → option S) (s : S) (a : A)
    (l : list A) :
  forEachM f s (a :: l) = f s a ≫= λ s', forEachM f s' l.
Proof. reflexivity. Qed.

Lemma forEachM_snoc {A S : Type} (f : S → A → option S) (s : S) (l : list A)
    (a : A) :
  forEachM f s (l ++ [a]) = forEachM f s l ≫= λ s', f s' a.
Proof.
  revert s. induction l as [|b l IH]; intros s; simpl.
  - by destruct (f s a).
  - destruct (f s b); simpl; [apply IH|done].
Qed.

(** * Data model ([types.ts]) *)

Section Types.
Context {num : Type}.

Record Vector3 := mkVector3 {
  vec_x : num; vec_y : num; vec_z : num
}.

(** [originalIndex] of the source type is optional and the engine never
    mentions it; it is left out. *)
Record VertexData := mkVertex {
  vertex_id : nat;
  vertex_x : num; vertex_y : num; vertex_z : num;
  vertex_incidentEdge : option nat;
  vertex_incidentHalfEdge : option nat
}.

Record SoupTriangleData := mkSoup {
  soup_id : nat; soup_v1 : Vector3; soup_v2 : Vector3; soup_v3 : Vector3
}.
End Types.
Global Arguments Vector3 : clear implicits.
Global Arguments VertexData : clear implicits.
Global Arguments SoupTriangleData : clear implicits.

(** [normal] is optional and never mentioned by the engine; left out. *)
Record FaceData := mkFaceData {
  face_id : nat;
  face_v1 : nat; face_v2 : nat; face_v3 : nat;
  face_incidentEdge : option nat;
  face_incidentHalfEdge : option nat
}.

Record HalfEdgeData := mkHalfEdge {
  he_id : nat;
  he_originVertex : nat;
  he_targetVertex : nat;
  he_face : nat;
  he_twin : option nat;             (* number | null *)
  he_next : nat;
  he_prev : nat
}.

(** Face and neighbour fields use the sentinel [-1] of the source.
    [createdStep] is declared by the type; a property that an object does
    not have reads as [None]. *)
Record WingedEdgeData := mkWingedEdge {
  we_id : nat;
  we_createdStep : option nat;
  we_startVertex : nat;
  we_endVertex : nat;
  we_faceLeft : Z;
  we_faceRight : Z;
  we_predLeft : Z;
  we_succLeft : Z;
  we_predRight : Z;
  we_succRight : Z
}.

Record ProcessedMesh {num : Type} := mkMesh {
  mesh_vertices : list (VertexData num);
  mesh_faces : list FaceData;
  mesh_soupTriangles : list (SoupTriangleData num);
  mesh_halfEdges : list HalfEdgeData;
  mesh_edges : list WingedEdgeData
}.
Global Arguments ProcessedMesh : clear implicits.

(** The part of [THREE.BufferGeometry] the engine reads:
    [attributes.position.array] and [index.array] ([None] when
    [geometry.index] is null). *)
Record BufferGeometry {num : Type} := mkGeometry {
  geo_positions : list num;
  geo_index : option (list nat)
}.
Global Arguments BufferGeometry : clear implicits.

(** The half-edge record local to [analyzeGeometry]. *)
Record TempHalfEdge := mkTemp {
  t_id : nat;
  t_origin : nat;
  t_target : nat;
  t_face : nat;
  t_next : nat;
  t_prev : nat;
  t_twin : option nat
}.

(** Assignments to single fields of a record. *)
Definition set_twin (tw : nat) (he : TempHalfEdge) : TempHalfEdge :=
  mkTemp (t_id he) (t_origin he) (t_target he) (t_face he) (t_next he)
         (t_prev he) (Some tw).

Definition set_vertex_incidentHalfEdge {num} (h : nat) (v : VertexData num)
    : VertexData num :=
  mkVertex (vertex_id v) (vertex_x v) (vertex_y v) (vertex_z v)
           (vertex_incidentEdge v) (Some h).
Definition set_vertex_incidentEdge {num} (e : nat) (v : VertexData num)
    : VertexData num :=
  mkVertex (vertex_id v) (vertex_x v) (vertex_y v) (vertex_z v)
           (Some e) (vertex_incidentHalfEdge v).
Definition set_face_incidentHalfEdge (h : nat) (f : FaceData) : FaceData :=
  mkFaceData (face_id f) (face_v1 f) (face_v2 f) (face_v3 f)
             (face_incidentEdge f) (Some h).
Definition set_face_incidentEdge (e : nat) (f : FaceData) : FaceData :=
  mkFaceData (face_id f) (face_v1 f) (face_v2 f) (face_v3 f)
             (Some e) (face_incidentHalfEdge f).

Definition set_faceLeft (f : Z) (we : WingedEdgeData) : WingedEdgeData :=
  mkWingedEdge (we_id we) (we_createdStep we) (we_startVertex we)
    (we_endVertex we) f (we_faceRight we) (we_predLeft we) (we_succLeft we)
    (we_predRight we) (we_succRight we).
Definition set_faceRight (f : Z) (we : WingedEdgeData) : WingedEdgeData :=
  mkWingedEdge (we_id we) (we_createdStep we) (we_startVertex we)
    (we_endVertex we) (we_faceLeft we) f (we_predLeft we) (we_succLeft we)
    (we_predRight we) (we_succRight we).
Definition set_predLeft (e : Z) (we : WingedEdgeData) : WingedEdgeData :=
  mkWingedEdge (we_id we) (we_createdStep we) (we_startVertex we)
    (we_endVertex we) (we_faceLeft we) (we_faceRight we) e (we_succLeft we)
    (we_predRight we) (we_succRight we).
Definition set_succLeft (e : Z) (we : WingedEdgeData) : WingedEdgeData :=
  mkWingedEdge (we_id we) (we_createdStep we) (we_startVertex we)
    (we_endVertex we) (we_faceLeft we) (we_faceRight we) (we_predLeft we) e
    (we_predRight we) (we_succRight we).
Definition set_predRight (e : Z) (we : WingedEdgeData) : WingedEdgeData :=
  mkWingedEdge (we_id we) (we_createdStep we) (we_startVertex we)
    (we_endVertex we) (we_faceLeft we) (we_faceRight we) (we_predLeft we)
    (we_succLeft we) e (we_succRight we).
Definition set_succRight (e : Z) (we : WingedEdgeData) : WingedEdgeData :=
  mkWingedEdge (we_id we) (we_createdStep we) (we_startVertex we)
    (we_endVertex we) (we_faceLeft we) (we_faceRight we) (we_predLeft we)
    (we_succLeft we) (we_predRight we) e.

(** Keys of the lookup tables that are built from vertex ids. *)
Definition dirKey (a b : nat) : string :=             (* `${a}_${b}` *)
  pretty a +:+ "_" +:+ pretty b.
Definition getEdgeKey (a b : nat) : string :=
  if decide (a < b) then dirKey a b else dirKey b a.

(** * The engine *)

Section Engine.
(** [SM] stands for [Map<string, number>] and [NM] for
    [Map<number, number>]: any finite-map implementation. *)
Context {num : Type} `{JSNumber num}.
Context {SM : Type → Type}
  `{FMap SM, ∀ A, Lookup string A (SM A), ∀ A, Empty (SM A),
    ∀ A, PartialAlter string A (SM A), OMap SM, Merge SM,
    ∀ A, MapFold string A (SM A)} `{!FinMap string SM}.
Context {NM : Type → Type}
  `{FMap NM, ∀ A, Lookup nat A (NM A), ∀ A, Empty (NM A),
    ∀ A, PartialAlter nat A (NM A), OMap NM, Merge NM,
    ∀ A, MapFold nat A (NM A)} `{!FinMap nat NM}.

(** Helper to round numbers for display and equality checks. *)
Definition r (n : num) : num :=
  num_div (Math_round (num_mul n num_100)) num_100.

Definition vertexKey (x y z : num) : string :=    (* `${x}_${y}_${z}` *)
  num_toString x +:+ "_" +:+ num_toString y +:+ "_" +:+ num_toString z.

(** A read past the end of the buffer is [undefined], which the
    multiplication in [r] turns into NaN. *)
Definition coordAt (positions : list num) (i : nat) : num :=
  r (default num_NaN (positions !! i)).

(** ** 1. Vertex merging *)

Definition getOrAddVertex (positions : list num) (pIdx : nat)
    (vertices : list (VertexData num)) (uniqueVertsMap : SM nat)
    : nat * list (VertexData num) * SM nat :=
  let x := coordAt positions pIdx in
  let y := coordAt positions (pIdx + 1) in
  let z := coordAt positions (pIdx + 2) in
  let key := vertexKey x y z in
  match uniqueVertsMap !! key with
  | Some id => (id, vertices, uniqueVertsMap)
  | None =>
      let id := length vertices in
      (id, vertices ++ [mkVertex id x y z None None],
       <[key := id]> uniqueVertsMap)
  end.

(** State of the first loop: [processedIndices], [vertices],
    [uniqueVertsMap]. *)
Definition mergeStep (positions : list num)
    (st : list nat * list (VertexData num) * SM nat) (pIdx : nat)
    : list nat * list (VertexData num) * SM nat :=
  let '(processedIndices, vertices, uniqueVertsMap) := st in
  let '(id, vertices', uniqueVertsMap') :=
    getOrAddVertex positions pIdx vertices uniqueVertsMap in
  (processedIndices ++ [id], vertices', uniqueVertsMap').

(** The buffer offsets the loop visits: [rawIndices[i] * 3], or [i * 3]
    for [i < positions.length / 3] (a real-valued bound). *)
Definition bufferOffsets (geometry : BufferGeometry num) : list nat :=
  match geo_index geometry with
  | Some rawIndices => (λ i, i * 3) <$> rawIndices
  | None =>
      let numVerts := (length (geo_positions geometry) + 2) / 3 in
      (λ i, i * 3) <$> seq 0 numVerts
  end.

Definition mergeVertices (geometry : BufferGeometry num)
    : list nat * list (VertexData num) * SM nat :=
  foldl (mergeStep (geo_positions geometry)) ([], [], ∅)
        (bufferOffsets geometry).

(** ** 2. Faces and 3. soup *)

(** The values of [i] in [for (i = 0; i < n; i += 3)]. *)
Definition strides (n : nat) : list nat :=
  (λ k, k * 3) <$> seq 0 ((n + 2) / 3).

(** An index that is [undefined] (last group incomplete) is stored in
    the face by the source; the soup loop then throws on it before
    anything is returned, so the exception is taken here. *)
Definition mkFace (processedIndices : list nat) (i : nat)
    : option FaceData :=
  v1 ← processedIndices !! i;
  v2 ← processedIndices !! (i + 1);
  v3 ← processedIndices !! (i + 2);
  Some (mkFaceData (i / 3) v1 v2 v3 None None).

Definition positionOf (v : VertexData num) : Vector3 num :=
  mkVector3 (vertex_x v) (vertex_y v) (vertex_z v).

Definition mkSoupTriangle (vertices : list (VertexData num))
    (processedIndices : list nat) (i : nat)
    : option (SoupTriangleData num) :=
  v1 ← processedIndices !! i ≫= (vertices !!.);
  v2 ← processedIndices !! (i + 1) ≫= (vertices !!.);
  v3 ← processedIndices !! (i + 2) ≫= (vertices !!.);
  Some (mkSoup (i / 3) (positionOf v1) (positionOf v2) (positionOf v3)).

(** ** 4. Half-edges *)

Definition faceHalfEdges (face : FaceData) : list TempHalfEdge :=
  let vs (i : nat) :=
    match i with
    | 0 => face_v1 face | 1 => face_v2 face | _ => face_v3 face
    end in
  (λ i,
     let vStart := vs i in
     let vEnd := vs ((i + 1) mod 3) in
     let heId := face_id face * 3 + i in
     let nextId := face_id face * 3 + ((i + 1) mod 3) in
     let prevId := face_id face * 3 + ((i + 2) mod 3) in
     mkTemp heId vStart vEnd (face_id face) nextId prevId None)
  <$> [0; 1; 2].

Definition buildTempHalfEdges (faces : list FaceData)
    : list TempHalfEdge :=
  faces ≫= faceHalfEdges.

(** Link twins: fill the lookup, then read the reversed pair. *)
Definition buildHeLookup (tempHalfEdges : list TempHalfEdge) : SM nat :=
  foldl (λ heLookup he,
           <[dirKey (t_origin he) (t_target he) := t_id he]> heLookup)
        ∅ tempHalfEdges.

Definition linkTwin (heLookup : SM nat) (he : TempHalfEdge)
    : TempHalfEdge :=
  match heLookup !! dirKey (t_target he) (t_origin he) with
  | Some twinId => set_twin twinId he
  | None => he
  end.

(** ** 5. The final half-edge table *)

Definition toHalfEdge (he : TempHalfEdge) : HalfEdgeData :=
  mkHalfEdge (t_id he) (t_origin he) (t_target he) (t_face he)
             (t_twin he) (t_next he) (t_prev he).

(** An assignment to a field of [arr[i]] throws when [arr[i]] is
    [undefined]. *)
Definition updateAt {A : Type} (f : A → A) (i : nat) (arr : list A)
    : option (list A) :=
  a ← arr !! i; Some (<[i := f a]> arr).

Definition heRefStep
    (st : list (VertexData num) * list FaceData) (he : HalfEdgeData)
    : option (list (VertexData num) * list FaceData) :=
  let '(vertices, faces) := st in
  vertices' ← updateAt (set_vertex_incidentHalfEdge (he_id he))
                       (he_originVertex he) vertices;
  faces' ← updateAt (set_face_incidentHalfEdge (he_id he))
                    (he_face he) faces;
  Some (vertices', faces').

(** ** 6. Winged edges *)

Definition newWingedEdge (weId : nat) (he : TempHalfEdge) : WingedEdgeData :=
  let isCanonical := bool_decide (t_origin he < t_target he) in
  mkWingedEdge weId None
    (if isCanonical then t_origin he else t_target he)
    (if isCanonical then t_target he else t_origin he)
    (-1) (-1) (-1) (-1) (-1) (-1).

(** First pass.  State: [wingedEdges], [edgeKeyToIndex], [heToWeMap]. *)
Definition wePassOneStep
    (st : list WingedEdgeData * SM nat * NM nat) (he : TempHalfEdge)
    : option (list WingedEdgeData * SM nat * NM nat) :=
  let '(wingedEdges, edgeKeyToIndex, heToWeMap) := st in
  let key := getEdgeKey (t_origin he) (t_target he) in
  let '(wingedEdges, edgeKeyToIndex) :=
    match edgeKeyToIndex !! key with
    | None =>
        let weId := length wingedEdges in
        (wingedEdges ++ [newWingedEdge weId he], <[key := weId]> edgeKeyToIndex)
    | Some _ => (wingedEdges, edgeKeyToIndex)
    end in
  weId ← edgeKeyToIndex !! key;
  let heToWeMap := <[t_id he := weId]> heToWeMap in
  we ← wingedEdges !! weId;
  let we' :=
    if decide (t_origin he = we_startVertex we)
    then set_faceLeft (Z.of_nat (t_face he)) we
    else set_faceRight (Z.of_nat (t_face he)) we in
  Some (<[weId := we']> wingedEdges, edgeKeyToIndex, heToWeMap).

(** Second pass, one side: [set_succ]/[set_pred] are the two fields of
    the side, [a → b] the directed pair looked up. *)
Definition linkSide (heLookup : SM nat) (tempHalfEdges : list TempHalfEdge)
    (heToWeMap : NM nat)
    (set_succ set_pred : Z → WingedEdgeData → WingedEdgeData)
    (a b : nat) (we : WingedEdgeData) : option WingedEdgeData :=
  match heLookup !! dirKey a b with
  | Some heId =>
      he ← tempHalfEdges !! heId;
      let we :=
        match heToWeMap !! t_next he with
        | Some succWE => set_succ (Z.of_nat succWE) we
        | None => we
        end in
      let we :=
        match heToWeMap !! t_prev he with
        | Some predWE => set_pred (Z.of_nat predWE) we
        | None => we
        end in
      Some we
  | None => Some we
  end.

Definition faceRefStep (weId : nat) (face : Z) (faces : list FaceData)
    : option (list FaceData) :=
  if decide (face ≠ (-1)%Z)
  then updateAt (set_face_incidentEdge weId) (Z.to_nat face) faces
  else Some faces.

(** State: [wingedEdges], [vertices], [faces]; [i] is the position the
    iteration is at. *)
Definition wePassTwoStep (heLookup : SM nat)
    (tempHalfEdges : list TempHalfEdge) (heToWeMap : NM nat)
    (st : list WingedEdgeData * list (VertexData num) * list FaceData)
    (i : nat)
    : option (list WingedEdgeData * list (VertexData num) * list FaceData) :=
  let '(wingedEdges, vertices, faces) := st in
  we ← wingedEdges !! i;
  we ← linkSide heLookup tempHalfEdges heToWeMap set_succLeft set_predLeft
        (we_startVertex we) (we_endVertex we) we;
  we ← linkSide heLookup tempHalfEdges heToWeMap set_succRight set_predRight
        (we_endVertex we) (we_startVertex we) we;
  vertices ← updateAt (set_vertex_incidentEdge (we_id we))
                      (we_startVertex we) vertices;
  vertices ← updateAt (set_vertex_incidentEdge (we_id we))
                      (we_endVertex we) vertices;
  faces ← faceRefStep (we_id we) (we_faceLeft we) faces;
  faces ← faceRefStep (we_id we) (we_faceRight we) faces;
  Some (<[i := we]> wingedEdges, vertices, faces).

(** ** The whole function *)

Definition analyzeGeometry (geometry : BufferGeometry num)
    : option (ProcessedMesh num) :=
  let '(processedIndices, vertices, _) := mergeVertices geometry in
  faces ← mapM (mkFace processedIndices) (strides (length processedIndices));
  soupTriangles ← mapM (mkSoupTriangle vertices processedIndices)
                       (strides (length processedIndices));
  let tempHalfEdges := buildTempHalfEdges faces in
  let heLookup := buildHeLookup tempHalfEdges in
  let tempHalfEdges := linkTwin heLookup <$> tempHalfEdges in
  let halfEdges := toHalfEdge <$> tempHalfEdges in
  '(vertices, faces) ← forEachM heRefStep (vertices, faces) halfEdges;
  '(wingedEdges, _, heToWeMap) ←
     forEachM wePassOneStep ([], ∅, ∅) tempHalfEdges;
  '(wingedEdges, vertices, faces) ←
     forEachM (wePassTwoStep heLookup tempHalfEdges heToWeMap)
              (wingedEdges, vertices, faces) (seq 0 (length wingedEdges));
  Some (mkMesh num vertices faces soupTriangles halfEdges wingedEdges).

End Engine.

(** * Integer coordinates

    The Numbers that are integers, and NaN.  For an integer [n] of
    magnitude below 2^53 / 100 the products and quotients in [r] are exact
    and [Math.round] leaves them alone, and up to 10^21 the template
    literal renders the decimal numeral; the concrete meshes below use
    such coordinates.  A quotient that is not an integer lies outside
    this fragment ([r] never forms one) and is given as NaN. *)
Inductive intnum : Type :=
  | INaN
  | IInt (n : Z).

#[global] Instance intnum_JSNumber : JSNumber intnum := {|
  num_NaN := INaN;
  num_100 := IInt 100;
  num_mul a b :=
    match a, b with IInt m, IInt n => IInt (m * n) | _, _ => INaN end;
  num_div a b :=
    match a, b with
    | IInt m, IInt n =>
        if decide (n ≠ 0 ∧ m `mod` n = 0)%Z then IInt (m / n) else INaN
    | _, _ => INaN
    end;
  Math_round a := a;
  num_toString a := match a with INaN => "NaN" | IInt n => pretty n end
|}.

(** [analyzeGeometry] on integer coordinates, with [gmap] for the maps. *)
Definition analyze (geometry : BufferGeometry intnum)
    : option (ProcessedMesh intnum) :=
  analyzeGeometry (SM:=gmap string) (NM:=gmap nat) geometry.

Definition point3 (x y z : Z) : list intnum := [IInt x; IInt y; IInt z].

(** One triangle [(0,0,0)-(1,0,0)-(0,1,0)], indices [0,1,2]. *)
Definition triangle : BufferGeometry intnum :=
  mkGeometry intnum (point3 0 0 0 ++ point3 1 0 0 ++ point3 0 1 0)
             (Some [0; 1; 2]).

(** Two triangles sharing the edge [{1,2}]. *)
Definition quad : BufferGeometry intnum :=
  mkGeometry intnum
    (point3 0 0 0 ++ point3 1 0 0 ++ point3 0 1 0 ++ point3 1 1 0)
    (Some [0; 1; 2; 1; 3; 2]).

(** A face that repeats a vertex id: indices [0,0,1]. *)
Definition sliver : BufferGeometry intnum :=
  mkGeometry intnum (point3 0 0 0 ++ point3 1 0 0) (Some [0; 0; 1]).

(** A face collapsed to one vertex: indices [0,0,0]. *)
Definition collapsed : BufferGeometry intnum :=
  mkGeometry intnum (point3 0 0 0) (Some [0; 0; 0]).

(** The face [(0,1,2)] twice, and [(1,0,2)] against them. *)
Definition fan : BufferGeometry intnum :=
  mkGeometry intnum (point3 0 0 0 ++ point3 1 0 0 ++ point3 0 1 0)
             (Some [0; 1; 2; 0; 1; 2; 1; 0; 2]).

(** An unindexed buffer whose first and third position coincide. *)
Definition folded : BufferGeometry intnum :=
  mkGeometry intnum (point3 0 0 0 ++ point3 1 0 0 ++ point3 0 0 0) None.

(** * Keys *)

Section Keys.

Lemma has_sep_digit (d : N) (s : string) :
  has_sep (String (pretty_N_char d) s) = has_sep s.
Proof. unfold pretty_N_char. by repeat case_match. Qed.

Lemma has_sep_pretty_N_go (x : N) (s : string) :
  has_sep s = false → has_sep (pretty_N_go x s) = false.
Proof.
  revert s. induction (N.lt_wf_0 x) as [x _ IH]; intros s Hs.
  destruct (decide (x = 0)%N) as [->|Hx].
  - by rewrite pretty_N_go_0.
  - rewrite pretty_N_go_step by lia.
    apply IH; [apply N.div_lt; lia|]. by rewrite has_sep_digit.
Qed.

Lemma has_sep_pretty_nat (n : nat) : has_sep (pretty n) = false.
Proof.
  unfold pretty, pretty_nat, pretty, pretty_N.
  case_decide; [done|]. by apply has_sep_pretty_N_go.
Qed.


(** Two strings without separator are determined by their join. *)
Lemma sep_join_inj (a b c d : string) :
  has_sep a = false → has_sep c = false →
  a +:+ "_" +:+ b = c +:+ "_" +:+ d → a = c ∧ b = d.
Proof.
  revert c. induction a as [|x a IH]; intros [|y c] Ha Hc Heq.
  - by injection Heq.
  - injection Heq as <- _. by simpl in Hc.
  - injection Heq as -> _. by simpl in Ha.
  - injection Heq as -> Heq. simpl in Ha, Hc.
    destruct (Ascii.eqb y "_"); [done|].
    destruct (IH c Ha Hc Heq) as [-> ->]. done.
Qed.

Lemma dirKey_inj (a b c d : nat) : dirKey a b = dirKey c d → a = c ∧ b = d.
Proof.
  intros Heq. apply sep_join_inj in Heq as [Ha Hb];
    auto using has_sep_pretty_nat.
  split; by apply (inj pretty).
Qed.

Lemma getEdgeKey_comm (a b : nat) : getEdgeKey a b = getEdgeKey b a.
Proof.
  unfold getEdgeKey. repeat case_decide; try done; try lia.
  by assert (a = b) as -> by lia.
Qed.

Lemma getEdgeKey_inj (a b c d : nat) :
  getEdgeKey a b = getEdgeKey c d → (a = c ∧ b = d) ∨ (a = d ∧ b = c).
Proof.
  unfold getEdgeKey. repeat case_decide; intros [? ?]%dirKey_inj; auto.
Qed.


Context {num : Type} `{JSNumberLaws num}.

Lemma vertexKey_inj (x y z x' y' z' : num) :
  vertexKey x y z = vertexKey x' y' z' → x = x' ∧ y = y' ∧ z = z'.
Proof.
  unfold vertexKey. intros Heq.
  apply sep_join_inj in Heq as [Hx Heq]; auto using num_toString_sep.
  apply sep_join_inj in Heq as [Hy Hz]; auto using num_toString_sep.
  repeat split; by apply num_toString_inj.
Qed.

End Keys.

(** * The vertex merger *)

Section VertexMerger.
Context {num : Type} `{JSNumber num}.
Context {SM : Type → Type}
  `{FMap SM, ∀ A, Lookup string A (SM A), ∀ A, Empty (SM A),
    ∀ A, PartialAlter string A (SM A), OMap SM, Merge SM,
    ∀ A, MapFold string A (SM A)} `{!FinMap string SM}.
Implicit Types (positions : list num) (vertices : list (VertexData num)).
Implicit Types (uniqueVertsMap : SM nat) (processedIndices : list nat).

(** The rounded coordinates read at offset [p], and their key. *)
Definition roundedAt positions (p : nat) : num * num * num :=
  (coordAt positions p, coordAt positions (p + 1), coordAt positions (p + 2)).

Definition keyAt positions (p : nat) : string :=
  vertexKey (coordAt positions p) (coordAt positions (p + 1))
            (coordAt positions (p + 2)).

(** What holds of the loop state after the offsets [visited]. *)
Definition merge_inv positions (visited : list nat)
    (st : list nat * list (VertexData num) * SM nat) : Prop :=
  let '(processedIndices, vertices, uniqueVertsMap) := st in
  length processedIndices = length visited
  ∧ (∀ i p, visited !! i = Some p →
       ∃ id, processedIndices !! i = Some id
             ∧ uniqueVertsMap !! keyAt positions p = Some id)
  ∧ (∀ k1 k2 id, uniqueVertsMap !! k1 = Some id →
       uniqueVertsMap !! k2 = Some id → k1 = k2)
  ∧ (∀ k id, uniqueVertsMap !! k = Some id → id < length vertices)
  ∧ (∀ id v, vertices !! id = Some v →
       vertex_id v = id
       ∧ uniqueVertsMap !! vertexKey (vertex_x v) (vertex_y v) (vertex_z v)
         = Some id
       ∧ vertex_incidentEdge v = None ∧ vertex_incidentHalfEdge v = None).

Lemma merge_inv_init positions :
  merge_inv positions [] ([], [], ∅).
Proof.
  repeat split; try done.
  all: intros *; rewrite ?lookup_empty; done.
Qed.

Lemma merge_inv_step positions visited st p :
  merge_inv positions visited st →
  merge_inv positions (visited ++ [p]) (mergeStep positions st p).
Proof.
  destruct st as [[pis vs] m]. intros (Hlen & Hkey & Hinj & Hbnd & Hvs).
  unfold mergeStep, getOrAddVertex. fold (keyAt positions p).
  destruct (m !! keyAt positions p) as [id|] eqn:Hm; split_and!.
  - rewrite !length_app. simpl. lia.
  - intros i q [[Hi Hq]|[-> <-]]%lookup_snoc_Some.
    + destruct (Hkey i q Hq) as (id' & ? & ?). exists id'.
      split; [|done]. rewrite lookup_app_l; [done|lia].
    + exists id. rewrite <-Hlen. by rewrite list_lookup_middle.
  - done.
  - done.
  - done.
  - rewrite !length_app. simpl. lia.
  - intros i q [[Hi Hq]|[-> <-]]%lookup_snoc_Some.
    + destruct (Hkey i q Hq) as (id' & ? & ?). exists id'.
      split; [rewrite lookup_app_l; [done|lia]|].
      rewrite lookup_insert_ne; [done|]. congruence.
    + exists (length vs). rewrite <-Hlen.
      split; [by rewrite list_lookup_middle|]. by rewrite lookup_insert_eq.
  - intros k1 k2 id. rewrite !lookup_insert.
    repeat case_decide; subst; intros H1' H2'; simplify_eq; try done.
    + apply Hbnd in H2'. lia.
    + apply Hbnd in H1'. lia.
    + eauto.
  - intros k id. rewrite lookup_insert, length_app. simpl.
    case_decide; intros Hk; simplify_eq; [lia|]. apply Hbnd in Hk. lia.
  - intros id v [[Hi Hv]|[-> <-]]%lookup_snoc_Some.
    + destruct (Hvs id v Hv) as (? & Hk & ? & ?). split_and!; try done.
      rewrite lookup_insert_ne; [done|]. congruence.
    + simpl. split_and!; try done. by rewrite lookup_insert_eq.
Qed.

Lemma merge_inv_foldl positions visited st ps :
  merge_inv positions visited st →
  merge_inv positions (visited ++ ps) (foldl (mergeStep positions) st ps).
Proof.
  revert visited st. induction ps as [|p ps IH]; intros visited st Hinv.
  - by rewrite app_nil_r.
  - simpl. rewrite (assoc_L (++) visited [p] ps : visited ++ p :: ps = _).
    by apply IH, merge_inv_step.
Qed.

Lemma mergeVertices_inv (geometry : BufferGeometry num) :
  merge_inv (geo_positions geometry) (bufferOffsets geometry)
            (mergeVertices (SM:=SM) geometry).
Proof.
  unfold mergeVertices.
  apply (merge_inv_foldl _ [] _ (bufferOffsets geometry)), merge_inv_init.
Qed.

Context `{!JSNumberLaws num}.

Lemma keyAt_eq_iff positions (p q : nat) :
  keyAt positions p = keyAt positions q
  ↔ roundedAt positions p = roundedAt positions q.
Proof.
  unfold keyAt, roundedAt. split.
  - intros (-> & -> & ->)%vertexKey_inj. done.
  - intros [= -> -> ->]. done.
Qed.

(** C1.  Two offsets the merger visits get the same vertex id when their
    coordinates round to equal values, and different vertex ids when a
    rounded coordinate differs. *)
Theorem dedup_correct (geometry : BufferGeometry num)
    processedIndices vertices uniqueVertsMap (i j p q a b : nat) :
  mergeVertices geometry = (processedIndices, vertices, uniqueVertsMap) →
  bufferOffsets geometry !! i = Some p →
  bufferOffsets geometry !! j = Some q →
  processedIndices !! i = Some a →
  processedIndices !! j = Some b →
  (roundedAt (geo_positions geometry) p = roundedAt (geo_positions geometry) q
     → a = b)
  ∧ (roundedAt (geo_positions geometry) p
       ≠ roundedAt (geo_positions geometry) q → a ≠ b).
Proof.
  intros Hrun Hp Hq Ha Hb.
  pose proof (mergeVertices_inv geometry) as Hinv.
  rewrite Hrun in Hinv. destruct Hinv as (_ & Hkey & Hinj & _ & _).
  destruct (Hkey i p Hp) as (a' & Ha' & Hma).
  destruct (Hkey j q Hq) as (b' & Hb' & Hmb). simplify_eq.
  split.
  - intros Heq%keyAt_eq_iff. rewrite Heq in Hma. congruence.
  - intros Hne ->. apply Hne, keyAt_eq_iff. eauto.
Qed.

(** The vertex a visited offset is mapped to carries the rounded
    coordinates read there. *)
Lemma merged_vertex_coords (geometry : BufferGeometry num)
    processedIndices vertices uniqueVertsMap (i p a : nat) :
  mergeVertices geometry = (processedIndices, vertices, uniqueVertsMap) →
  bufferOffsets geometry !! i = Some p →
  processedIndices !! i = Some a →
  ∃ v, vertices !! a = Some v ∧ vertex_id v = a
       ∧ (vertex_x v, vertex_y v, vertex_z v)
         = roundedAt (geo_positions geometry) p.
Proof.
  intros Hrun Hp Ha.
  pose proof (mergeVertices_inv geometry) as Hinv.
  rewrite Hrun in Hinv. destruct Hinv as (_ & Hkey & Hinj & Hbnd & Hvs).
  destruct (Hkey i p Hp) as (a' & Ha' & Hma). simplify_eq.
  destruct (lookup_lt_is_Some_2 vertices a) as [v Hv]; [eauto|].
  destruct (Hvs a v Hv) as (Hid & Hk & _).
  exists v. split_and!; [done..|].
  pose proof (Hinj _ _ _ Hk Hma) as Heq.
  apply vertexKey_inj in Heq as (-> & -> & ->). done.
Qed.

End VertexMerger.

(** * Faces *)

Lemma strides_lookup (n k i : nat) : strides n !! k = Some i → i = k * 3.
Proof.
  unfold strides. rewrite list_lookup_fmap.
  destruct (seq 0 ((n + 2) / 3) !! k) as [k'|] eqn:Hk; [|done].
  apply lookup_seq in Hk as [-> _]. by intros [= <-].
Qed.

Lemma strides_length (n : nat) : length (strides n) = (n + 2) / 3.
Proof. unfold strides. by rewrite length_fmap, length_seq. Qed.

Lemma mkFace_Some (processedIndices : list nat) (i : nat) (f : FaceData) :
  mkFace processedIndices i = Some f →
  face_id f = i / 3
  ∧ processedIndices !! i = Some (face_v1 f)
  ∧ processedIndices !! (i + 1) = Some (face_v2 f)
  ∧ processedIndices !! (i + 2) = Some (face_v3 f)
  ∧ face_incidentEdge f = None ∧ face_incidentHalfEdge f = None.
Proof.
  unfold mkFace. intros Hf.
  destruct (processedIndices !! i) as [v1|]; [|done].
  destruct (processedIndices !! (i + 1)) as [v2|]; [|done].
  destruct (processedIndices !! (i + 2)) as [v3|]; [|done].
  simpl in Hf. by injection Hf as <-.
Qed.

(** Face ids are the positions in the face table, and the corners are
    three consecutive entries of the index stream. *)
Lemma faces_lookup (processedIndices : list nat) (faces : list FaceData)
    (k : nat) (f : FaceData) :
  mapM (mkFace processedIndices) (strides (length processedIndices))
    = Some faces →
  faces !! k = Some f →
  face_id f = k
  ∧ processedIndices !! (k * 3) = Some (face_v1 f)
  ∧ processedIndices !! (k * 3 + 1) = Some (face_v2 f)
  ∧ processedIndices !! (k * 3 + 2) = Some (face_v3 f).
Proof.
  intros Hmap%mapM_Some_1 Hk.
  destruct (Forall2_lookup_r _ _ _ _ _ Hmap Hk) as (i & Hi & Hf).
  apply strides_lookup in Hi as ->.
  apply mkFace_Some in Hf as (Hid & ? & ? & ? & _).
  by rewrite Nat.div_mul in Hid.
Qed.

Lemma faces_length (processedIndices : list nat) (faces : list FaceData) :
  mapM (mkFace processedIndices) (strides (length processedIndices))
    = Some faces →
  length processedIndices = length faces * 3.
Proof.
  intros Hmap. pose proof (length_mapM _ _ _ Hmap) as Hlen.
  rewrite strides_length in Hlen.
  pose proof (Nat.div_mod_eq (length processedIndices + 2) 3).
  pose proof (Nat.mod_upper_bound (length processedIndices + 2) 3).
  destruct (decide (length faces = 0)) as [Hz|Hz]; [lia|].
  destruct (lookup_lt_is_Some_2 faces (length faces - 1)) as [f Hf]; [lia|].
  destruct (faces_lookup _ _ _ _ Hmap Hf) as (_ & _ & _ & H3).
  apply lookup_lt_Some in H3. lia.
Qed.

(** * Half-edges *)

(** The [i]-th half-edge of a face, as the loop body builds it. *)
Definition heOf (face : FaceData) (i : nat) : TempHalfEdge :=
  let vs (i : nat) :=
    match i with
    | 0 => face_v1 face | 1 => face_v2 face | _ => face_v3 face
    end in
  mkTemp (face_id face * 3 + i) (vs i) (vs ((i + 1) mod 3)) (face_id face)
         (face_id face * 3 + ((i + 1) mod 3))
         (face_id face * 3 + ((i + 2) mod 3)) None.

Lemma faceHalfEdges_eq (face : FaceData) :
  faceHalfEdges face = [heOf face 0; heOf face 1; heOf face 2].
Proof. reflexivity. Qed.

Lemma divmod3 (q i : nat) :
  i < 3 → (q * 3 + i) / 3 = q ∧ (q * 3 + i) mod 3 = i.
Proof.
  intros Hi. split.
  - symmetry. apply (Nat.div_unique _ 3 q i); lia.
  - symmetry. apply (Nat.mod_unique _ 3 q i); lia.
Qed.

Lemma tempHalfEdges_lookup (faces : list FaceData) (j : nat) :
  buildTempHalfEdges faces !! j
  = f ← faces !! (j / 3); Some (heOf f (j mod 3)).
Proof.
  unfold buildTempHalfEdges. revert j.
  induction faces as [|f faces IH]; intros j; [done|].
  rewrite bind_cons, faceHalfEdges_eq.
  destruct j as [|[|[|j]]]; [done..|].
  change (S (S (S j))) with (3 + j).
  change ([heOf f 0; heOf f 1; heOf f 2] ++ faces ≫= faceHalfEdges)
    with (heOf f 0 :: heOf f 1 :: heOf f 2 :: faces ≫= faceHalfEdges).
  replace (3 + j) with (1 * 3 + j) by lia.
  replace ((1 * 3 + j) mod 3) with (j mod 3)
    by (rewrite Nat.add_comm, Nat.Div0.mod_add; done).
  rewrite Nat.div_add_l by lia. simpl. apply IH.
Qed.

Lemma tempHalfEdges_length (faces : list FaceData) :
  length (buildTempHalfEdges faces) = length faces * 3.
Proof.
  unfold buildTempHalfEdges. induction faces as [|f faces IH]; [done|].
  rewrite bind_cons, length_app, IH. simpl. lia.
Qed.

(** Face ids double as positions in the face table. *)
Definition faces_wf (faces : list FaceData) : Prop :=
  ∀ k f, faces !! k = Some f → face_id f = k.

Lemma tempHalfEdges_lookup_wf (faces : list FaceData) (j : nat)
    (he : TempHalfEdge) :
  faces_wf faces →
  buildTempHalfEdges faces !! j = Some he →
  ∃ f, faces !! (j / 3) = Some f ∧ he = heOf f (j mod 3)
       ∧ t_id he = j ∧ t_face he = j / 3 ∧ t_twin he = None
       ∧ t_next he = j / 3 * 3 + (j mod 3 + 1) mod 3
       ∧ t_prev he = j / 3 * 3 + (j mod 3 + 2) mod 3.
Proof.
  intros Hwf. rewrite tempHalfEdges_lookup.
  pose proof (Nat.div_mod_eq j 3) as Hj.
  remember (j / 3) as q eqn:Hq. remember (j mod 3) as i eqn:Hi.
  destruct (faces !! q) as [f|] eqn:Hf; [|done].
  intros [= <-]. exists f. apply Hwf in Hf. simpl. rewrite Hf.
  split_and!; try done. lia.
Qed.

Section TwinLookup.
Context {SM : Type → Type}
  `{FMap SM, ∀ A, Lookup string A (SM A), ∀ A, Empty (SM A),
    ∀ A, PartialAlter string A (SM A), OMap SM, Merge SM,
    ∀ A, MapFold string A (SM A)} `{!FinMap string SM}.
Implicit Types (tempHalfEdges : list TempHalfEdge) (heLookup : SM nat).

(** The lookup holds, under a directed pair, the id of the last
    half-edge that has the pair. *)
Lemma heLookup_Some tempHalfEdges (k : string) (id : nat) :
  buildHeLookup (SM:=SM) tempHalfEdges !! k = Some id →
  ∃ j he, tempHalfEdges !! j = Some he ∧ t_id he = id
    ∧ dirKey (t_origin he) (t_target he) = k
    ∧ ∀ j' he', tempHalfEdges !! j' = Some he' →
        dirKey (t_origin he') (t_target he') = k → j' ≤ j.
Proof.
  unfold buildHeLookup. revert id.
  induction tempHalfEdges as [|he l IH] using rev_ind; intros id.
  - simpl. by rewrite lookup_empty.
  - rewrite foldl_snoc, lookup_insert. case_decide as Hk.
    + intros [= <-]. exists (length l), he. split_and!; try done.
      * by rewrite list_lookup_middle.
      * intros j' he' Hj' _. apply lookup_lt_Some in Hj'.
        rewrite length_app in Hj'. simpl in Hj'. lia.
    + intros (j & he0 & Hj & ? & ? & Hlast)%IH. exists j, he0.
      split_and!; try done.
      * rewrite lookup_app_l; [done|]. by eapply lookup_lt_Some.
      * intros j' he' [[? Hj']|[-> <-]]%lookup_snoc_Some Hk'; [eauto|done].
Qed.

Lemma heLookup_None tempHalfEdges (k : string) (he : TempHalfEdge) :
  buildHeLookup (SM:=SM) tempHalfEdges !! k = None →
  he ∈ tempHalfEdges → dirKey (t_origin he) (t_target he) ≠ k.
Proof.
  unfold buildHeLookup.
  induction tempHalfEdges as [|he0 l IH] using rev_ind.
  - by intros _ ?%elem_of_nil.
  - rewrite foldl_snoc, lookup_insert. case_decide as Hk; [done|].
    intros Hnone [Hin| ->%list_elem_of_singleton]%elem_of_app; auto.
Qed.

Lemma heLookup_is_Some tempHalfEdges (he : TempHalfEdge) :
  he ∈ tempHalfEdges →
  is_Some (buildHeLookup (SM:=SM) tempHalfEdges
             !! dirKey (t_origin he) (t_target he)).
Proof.
  intros Hin.
  destruct (buildHeLookup tempHalfEdges !! _) as [id|] eqn:Hlk; [eauto|].
  by destruct (heLookup_None _ _ _ Hlk Hin).
Qed.

Lemma linkTwin_fields heLookup (he : TempHalfEdge) :
  t_id (linkTwin heLookup he) = t_id he
  ∧ t_origin (linkTwin heLookup he) = t_origin he
  ∧ t_target (linkTwin heLookup he) = t_target he
  ∧ t_face (linkTwin heLookup he) = t_face he
  ∧ t_next (linkTwin heLookup he) = t_next he
  ∧ t_prev (linkTwin heLookup he) = t_prev he.
Proof. unfold linkTwin. by destruct (heLookup !! _). Qed.

Lemma linkTwin_twin heLookup (he : TempHalfEdge) :
  t_twin he = None →
  t_twin (linkTwin heLookup he)
  = heLookup !! dirKey (t_target he) (t_origin he).
Proof. unfold linkTwin. by destruct (heLookup !! _). Qed.

(** The half-edge table the engine returns for a face table. *)
Definition linkedHalfEdges (faces : list FaceData) : list TempHalfEdge :=
  let tempHalfEdges := buildTempHalfEdges faces in
  linkTwin (buildHeLookup (SM:=SM) tempHalfEdges) <$> tempHalfEdges.

Definition halfEdgesOf (faces : list FaceData) : list HalfEdgeData :=
  toHalfEdge <$> linkedHalfEdges faces.

Lemma halfEdgesOf_length (faces : list FaceData) :
  length (halfEdgesOf faces) = length faces * 3.
Proof.
  unfold halfEdgesOf, linkedHalfEdges.
  by rewrite !length_fmap, tempHalfEdges_length.
Qed.

Lemma halfEdgesOf_lookup (faces : list FaceData) (j : nat)
    (h : HalfEdgeData) :
  halfEdgesOf faces !! j = Some h →
  ∃ te, buildTempHalfEdges faces !! j = Some te
    ∧ he_id h = t_id te ∧ he_originVertex h = t_origin te
    ∧ he_targetVertex h = t_target te ∧ he_face h = t_face te
    ∧ he_next h = t_next te ∧ he_prev h = t_prev te
    ∧ (t_twin te = None →
       he_twin h = buildHeLookup (SM:=SM) (buildTempHalfEdges faces)
                     !! dirKey (t_target te) (t_origin te)).
Proof.
  unfold halfEdgesOf, linkedHalfEdges. rewrite !list_lookup_fmap.
  destruct (buildTempHalfEdges faces !! j) as [te|]; [|done].
  intros [= <-]. exists te. simpl.
  destruct (linkTwin_fields (buildHeLookup (buildTempHalfEdges faces)) te)
    as (-> & -> & -> & -> & -> & ->).
  split_and!; try done. apply linkTwin_twin.
Qed.

End TwinLookup.

(** ** The cyclic order inside a face *)

Definition nextId (j : nat) : nat := j / 3 * 3 + (j mod 3 + 1) mod 3.
Definition prevId (j : nat) : nat := j / 3 * 3 + (j mod 3 + 2) mod 3.

Lemma split3 (j : nat) : ∃ q i, j = q * 3 + i ∧ i < 3.
Proof.
  exists (j / 3), (j mod 3). split.
  - pose proof (Nat.div_mod_eq j 3). lia.
  - apply Nat.mod_upper_bound. lia.
Qed.

Lemma nextId_split (q i : nat) :
  i < 3 → nextId (q * 3 + i) = q * 3 + (i + 1) mod 3.
Proof. intros Hi. unfold nextId. by destruct (divmod3 q i Hi) as [-> ->]. Qed.

Lemma prevId_split (q i : nat) :
  i < 3 → prevId (q * 3 + i) = q * 3 + (i + 2) mod 3.
Proof. intros Hi. unfold prevId. by destruct (divmod3 q i Hi) as [-> ->]. Qed.

Ltac cycle3 j :=
  let q := fresh "q" in
  let i := fresh "i" in
  let Hi := fresh "Hi" in
  destruct (split3 j) as (q & i & -> & Hi);
  destruct i as [|[|[|i]]]; [| | |lia];
  repeat first
    [ rewrite nextId_split by lia | rewrite prevId_split by lia
    | progress change ((0 + 1) mod 3) with 1
    | progress change ((1 + 1) mod 3) with 2
    | progress change ((2 + 1) mod 3) with 0
    | progress change ((0 + 2) mod 3) with 2
    | progress change ((1 + 2) mod 3) with 0
    | progress change ((2 + 2) mod 3) with 1 ].

Lemma div3_split (q i : nat) : i < 3 → (q * 3 + i) / 3 = q.
Proof. intros Hi. by destruct (divmod3 q i Hi). Qed.

Lemma nextId_div (j : nat) : nextId j / 3 = j / 3.
Proof. cycle3 j; by rewrite !div3_split by lia. Qed.

Lemma prevId_div (j : nat) : prevId j / 3 = j / 3.
Proof. cycle3 j; by rewrite !div3_split by lia. Qed.

Lemma nextId_thrice (j : nat) : nextId (nextId (nextId j)) = j.
Proof. cycle3 j; lia. Qed.

Lemma nextId_prevId (j : nat) : nextId (prevId j) = j.
Proof. cycle3 j; lia. Qed.

Lemma prevId_nextId (j : nat) : prevId (nextId j) = j.
Proof. cycle3 j; lia. Qed.

Lemma div3_lt (j n : nat) : j < n * 3 ↔ j / 3 < n.
Proof.
  pose proof (Nat.div_mod_eq j 3). pose proof (Nat.mod_upper_bound j 3). lia.
Qed.

(** Successor, predecessor and face of the half-edge with a given id. *)
Definition nextOf (halfEdges : list HalfEdgeData) (id : nat) : option nat :=
  he_next <$> halfEdges !! id.
Definition prevOf (halfEdges : list HalfEdgeData) (id : nat) : option nat :=
  he_prev <$> halfEdges !! id.
Definition faceOf (halfEdges : list HalfEdgeData) (id : nat) : option nat :=
  he_face <$> halfEdges !! id.

Section HalfEdgeTable.
Context {SM : Type → Type}
  `{FMap SM, ∀ A, Lookup string A (SM A), ∀ A, Empty (SM A),
    ∀ A, PartialAlter string A (SM A), OMap SM, Merge SM,
    ∀ A, MapFold string A (SM A)} `{!FinMap string SM}.

Lemma halfEdgesOf_shape (faces : list FaceData) (j : nat) (h : HalfEdgeData) :
  faces_wf faces →
  halfEdgesOf (SM:=SM) faces !! j = Some h →
  he_id h = j ∧ he_face h = j / 3
  ∧ he_next h = nextId j ∧ he_prev h = prevId j.
Proof.
  intros Hwf (te & Hte & -> & _ & _ & -> & -> & -> & _)%halfEdgesOf_lookup.
  destruct (tempHalfEdges_lookup_wf _ _ _ Hwf Hte)
    as (f & _ & _ & -> & -> & _ & -> & ->).
  done.
Qed.

Lemma halfEdgesOf_links (faces : list FaceData) (j : nat) :
  faces_wf faces →
  j < length faces * 3 →
  nextOf (halfEdgesOf (SM:=SM) faces) j = Some (nextId j)
  ∧ prevOf (halfEdgesOf (SM:=SM) faces) j = Some (prevId j)
  ∧ faceOf (halfEdgesOf (SM:=SM) faces) j = Some (j / 3).
Proof.
  intros Hwf Hj. unfold nextOf, prevOf, faceOf.
  destruct (lookup_lt_is_Some_2 (halfEdgesOf (SM:=SM) faces) j) as [h Hh];
    [by rewrite halfEdgesOf_length|].
  rewrite Hh. simpl.
  by destruct (halfEdgesOf_shape _ _ _ Hwf Hh) as (_ & -> & -> & ->).
Qed.

(** Closure of a well-formed half-edge table under [next] and [prev]. *)
Lemma halfEdgesOf_closure (faces : list FaceData) (j : nat)
    (h : HalfEdgeData) :
  faces_wf faces →
  halfEdgesOf (SM:=SM) faces !! j = Some h →
  let halfEdges := halfEdgesOf (SM:=SM) faces in
  he_id h = j
  ∧ faceOf halfEdges (he_next h) = Some (he_face h)
  ∧ faceOf halfEdges (he_prev h) = Some (he_face h)
  ∧ (nextOf halfEdges j ≫= nextOf halfEdges) ≫= nextOf halfEdges = Some j
  ∧ prevOf halfEdges j ≫= nextOf halfEdges = Some j
  ∧ nextOf halfEdges j ≫= prevOf halfEdges = Some j.
Proof.
  intros Hwf Hh halfEdges.
  assert (Hj : j < length faces * 3).
  { rewrite <-(halfEdgesOf_length (SM:=SM)). by eapply lookup_lt_Some. }
  destruct (halfEdgesOf_shape _ _ _ Hwf Hh) as (-> & -> & -> & ->).
  assert (Hn : ∀ k, k < length faces * 3 → nextId k < length faces * 3).
  { intros k. rewrite !div3_lt, nextId_div. done. }
  assert (Hp : ∀ k, k < length faces * 3 → prevId k < length faces * 3).
  { intros k. rewrite !div3_lt, prevId_div. done. }
  pose proof (λ k Hk, halfEdgesOf_links faces k Hwf Hk) as Hl.
  fold halfEdges in Hl. split_and!.
  - done.
  - destruct (Hl (nextId j)) as (_ & _ & ->); [auto|]. by rewrite nextId_div.
  - destruct (Hl (prevId j)) as (_ & _ & ->); [auto|]. by rewrite prevId_div.
  - destruct (Hl j) as (-> & _ & _); [auto|]. simpl.
    destruct (Hl (nextId j)) as (-> & _ & _); [auto|]. simpl.
    destruct (Hl (nextId (nextId j))) as (-> & _ & _); [auto|].
    by rewrite nextId_thrice.
  - destruct (Hl j) as (_ & -> & _); [auto|]. simpl.
    destruct (Hl (prevId j)) as (-> & _ & _); [auto|]. by rewrite nextId_prevId.
  - destruct (Hl j) as (-> & _ & _); [auto|]. simpl.
    destruct (Hl (nextId j)) as (_ & -> & _); [auto|]. by rewrite prevId_nextId.
Qed.

End HalfEdgeTable.

(** ** Twins *)

(** [t] is the id of the last half-edge running [a → b]. *)
Definition lastWithPair (halfEdges : list HalfEdgeData) (a b t : nat)
    : Prop :=
  (∃ g, halfEdges !! t = Some g
        ∧ he_originVertex g = a ∧ he_targetVertex g = b)
  ∧ ∀ j g, halfEdges !! j = Some g →
      he_originVertex g = a → he_targetVertex g = b → j ≤ t.

Lemma lastWithPair_unique halfEdges (a b t t' : nat) :
  lastWithPair halfEdges a b t → lastWithPair halfEdges a b t' → t = t'.
Proof.
  intros [(g & Hg & ? & ?) Hmax] [(g' & Hg' & ? & ?) Hmax'].
  pose proof (Hmax _ _ Hg'). pose proof (Hmax' _ _ Hg). lia.
Qed.

Section Twins.
Context {SM : Type → Type}
  `{FMap SM, ∀ A, Lookup string A (SM A), ∀ A, Empty (SM A),
    ∀ A, PartialAlter string A (SM A), OMap SM, Merge SM,
    ∀ A, MapFold string A (SM A)} `{!FinMap string SM}.

Lemma heLookup_lastWithPair (faces : list FaceData) (a b t : nat) :
  faces_wf faces →
  buildHeLookup (SM:=SM) (buildTempHalfEdges faces) !! dirKey a b = Some t
  ↔ lastWithPair (halfEdgesOf (SM:=SM) faces) a b t.
Proof.
  intros Hwf.
  assert (Hto : ∀ t0,
    buildHeLookup (SM:=SM) (buildTempHalfEdges faces) !! dirKey a b = Some t0
    → lastWithPair (halfEdgesOf (SM:=SM) faces) a b t0).
  { intros t0 (j & te & Hte & Hid & Hk & Hlast)%heLookup_Some.
    pose proof Hk as [Ha Hb]%dirKey_inj.
    destruct (tempHalfEdges_lookup_wf _ _ _ Hwf Hte) as (_ & _ & _ & Hj & _).
    rewrite Hid in Hj. subst j. split.
    - unfold halfEdgesOf, linkedHalfEdges.
      rewrite !list_lookup_fmap, Hte. simpl. eexists. split; [done|]. simpl.
      by destruct (linkTwin_fields
        (buildHeLookup (SM:=SM) (buildTempHalfEdges faces)) te)
        as (_ & -> & -> & _).
    - intros j g (te' & Hte' & _ & Ho & Ht & _)%halfEdgesOf_lookup Ha' Hb'.
      apply (Hlast j te' Hte'). congruence. }
  split; [apply Hto|].
  intros Hlast. pose proof Hlast as [(g & Hg & Ha & Hb) _].
  apply halfEdgesOf_lookup in Hg as (te & Hte & _ & Ho & Ht & _).
  destruct (heLookup_is_Some (SM:=SM) (buildTempHalfEdges faces) te) as [t' Ht'].
  { apply list_elem_of_lookup. eauto. }
  rewrite <-Ho, <-Ht, Ha, Hb in Ht'. rewrite Ht'. f_equal.
  eapply lastWithPair_unique; eauto.
Qed.

Lemma heLookup_no_pair (faces : list FaceData) (a b : nat) (g : HalfEdgeData) :
  buildHeLookup (SM:=SM) (buildTempHalfEdges faces) !! dirKey a b = None →
  g ∈ halfEdgesOf (SM:=SM) faces →
  ¬ (he_originVertex g = a ∧ he_targetVertex g = b).
Proof.
  intros Hnone [j Hg]%list_elem_of_lookup [Ha Hb].
  apply halfEdgesOf_lookup in Hg as (te & Hte & _ & Ho & Ht & _).
  eapply (heLookup_None (SM:=SM)); [exact Hnone| |].
  - apply list_elem_of_lookup. eauto.
  - congruence.
Qed.

Lemma halfEdgesOf_twin (faces : list FaceData) (j : nat) (h : HalfEdgeData) :
  faces_wf faces →
  halfEdgesOf (SM:=SM) faces !! j = Some h →
  he_twin h = buildHeLookup (SM:=SM) (buildTempHalfEdges faces)
                !! dirKey (he_targetVertex h) (he_originVertex h).
Proof.
  intros Hwf (te & Hte & _ & -> & -> & _ & _ & _ & Htw)%halfEdgesOf_lookup.
  apply Htw.
  by destruct (tempHalfEdges_lookup_wf _ _ _ Hwf Hte)
    as (_ & _ & _ & _ & _ & ? & _).
Qed.

(** The twin of the twin of [h] is the last half-edge with the directed
    pair of [h]; it is [h] exactly when no later half-edge repeats the
    pair. *)
Lemma halfEdgesOf_twin_symmetry (faces : list FaceData) (j t : nat)
    (h : HalfEdgeData) :
  faces_wf faces →
  halfEdgesOf (SM:=SM) faces !! j = Some h →
  he_twin h = Some t →
  (∃ h', halfEdgesOf (SM:=SM) faces !! t = Some h' ∧ he_twin h' = Some j)
  ↔ (∀ j' g, halfEdgesOf (SM:=SM) faces !! j' = Some g →
       he_originVertex g = he_originVertex h →
       he_targetVertex g = he_targetVertex h → j' ≤ j).
Proof.
  intros Hwf Hh Htw.
  rewrite (halfEdgesOf_twin _ _ _ Hwf Hh) in Htw.
  apply heLookup_lastWithPair in Htw as [(h' & Hh' & Ho & Ht) _]; [|done].
  pose proof (halfEdgesOf_twin _ _ _ Hwf Hh') as Htw'.
  rewrite Ho, Ht in Htw'. split.
  - intros (h'' & Hh'' & Hj). simplify_eq. rewrite Htw' in Hj.
    apply heLookup_lastWithPair in Hj as [_ Hmax]; done.
  - intros Hmax. exists h'. split; [done|]. rewrite Htw'.
    apply heLookup_lastWithPair; [done|]. split; [eauto|done].
Qed.

(** A half-edge from a vertex to itself is linked to the last half-edge
    with the same pair, which is itself when none follows. *)
Lemma halfEdgesOf_self_twin (faces : list FaceData) (j : nat)
    (h : HalfEdgeData) :
  faces_wf faces →
  halfEdgesOf (SM:=SM) faces !! j = Some h →
  he_originVertex h = he_targetVertex h →
  ∃ t, he_twin h = Some t
    ∧ lastWithPair (halfEdgesOf (SM:=SM) faces)
        (he_originVertex h) (he_originVertex h) t
    ∧ j ≤ t.
Proof.
  intros Hwf Hh Hloop.
  pose proof (halfEdgesOf_twin _ _ _ Hwf Hh) as Htw. rewrite <-Hloop in Htw.
  destruct (he_twin h) as [t|] eqn:Ht.
  - symmetry in Htw. apply heLookup_lastWithPair in Htw; [|done].
    exists t. split_and!; [done..|]. destruct Htw as [_ Hmax]. eauto.
  - symmetry in Htw. destruct (heLookup_no_pair _ _ _ h Htw).
    + apply list_elem_of_lookup. eauto.
    + done.
Qed.

End Twins.

(** * The output of [analyzeGeometry] *)

Section Output.
Context {num : Type} `{JSNumber num}.
Context {SM : Type → Type}
  `{FMap SM, ∀ A, Lookup string A (SM A), ∀ A, Empty (SM A),
    ∀ A, PartialAlter string A (SM A), OMap SM, Merge SM,
    ∀ A, MapFold string A (SM A)} `{!FinMap string SM}.
Context {NM : Type → Type}
  `{FMap NM, ∀ A, Lookup nat A (NM A), ∀ A, Empty (NM A),
    ∀ A, PartialAlter nat A (NM A), OMap NM, Merge NM,
    ∀ A, MapFold nat A (NM A)} `{!FinMap nat NM}.

(** The stages a successful run went through. *)
Lemma analyzeGeometry_inv (geometry : BufferGeometry num)
    (mesh : ProcessedMesh num) :
  analyzeGeometry (SM:=SM) (NM:=NM) geometry = Some mesh →
  ∃ processedIndices vertices uniqueVertsMap faces vertices1 faces1
    wingedEdges edgeKeyToIndex heToWeMap,
    mergeVertices (SM:=SM) geometry
      = (processedIndices, vertices, uniqueVertsMap)
    ∧ mapM (mkFace processedIndices) (strides (length processedIndices))
      = Some faces
    ∧ mapM (mkSoupTriangle vertices processedIndices)
           (strides (length processedIndices))
      = Some (mesh_soupTriangles mesh)
    ∧ mesh_halfEdges mesh = halfEdgesOf (SM:=SM) faces
    ∧ forEachM heRefStep (vertices, faces) (halfEdgesOf (SM:=SM) faces)
      = Some (vertices1, faces1)
    ∧ forEachM (wePassOneStep (SM:=SM) (NM:=NM)) ([], ∅, ∅)
               (linkedHalfEdges (SM:=SM) faces)
      = Some (wingedEdges, edgeKeyToIndex, heToWeMap)
    ∧ forEachM
        (wePassTwoStep (buildHeLookup (SM:=SM) (buildTempHalfEdges faces))
                       (linkedHalfEdges (SM:=SM) faces) heToWeMap)
        (wingedEdges, vertices1, faces1) (seq 0 (length wingedEdges))
      = Some (mesh_edges mesh, mesh_vertices mesh, mesh_faces mesh).
Proof.
  unfold analyzeGeometry.
  destruct (mergeVertices geometry) as [[pis vs] um].
  destruct (mapM (mkFace pis) _) as [faces|] eqn:Hfaces; [|done].
  destruct (mapM (mkSoupTriangle vs pis) _) as [soup|] eqn:Hsoup; [|done].
  simpl. fold (linkedHalfEdges (SM:=SM) faces).
  fold (halfEdgesOf (SM:=SM) faces).
  destruct (forEachM heRefStep _ _) as [[vs1 fs1]|] eqn:Hrefs; [|done].
  simpl.
  destruct (forEachM wePassOneStep _ _) as [[[wes ekm] h2w]|] eqn:Hone;
    [|done].
  simpl.
  destruct (forEachM (wePassTwoStep _ _ _) _ _) as [[[wes' vs2] fs2]|] eqn:Htwo;
    [|done].
  simpl. intros [= <-]. simpl.
  by exists pis, vs, um, faces, vs1, fs1, wes, ekm, h2w.
Qed.

Lemma analyzeGeometry_halfEdges (geometry : BufferGeometry num)
    (mesh : ProcessedMesh num) :
  analyzeGeometry (SM:=SM) (NM:=NM) geometry = Some mesh →
  ∃ faces, faces_wf faces ∧ mesh_halfEdges mesh = halfEdgesOf (SM:=SM) faces.
Proof.
  intros (pis & vs & um & faces & vs1 & fs1 & wes & ekm & h2w & _ & Hfaces
          & _ & Hhes & _)%analyzeGeometry_inv.
  exists faces. split; [|done].
  intros k f Hf. by destruct (faces_lookup _ _ _ _ Hfaces Hf).
Qed.

(** C3.  In the half-edge table of the output, [next] and [prev] of a
    half-edge lie in its face, three [next] steps return to it, and
    [prev] then [next], or [next] then [prev], is the identity. *)
Theorem halfedge_closure (geometry : BufferGeometry num)
    (mesh : ProcessedMesh num) (h : HalfEdgeData) :
  analyzeGeometry (SM:=SM) (NM:=NM) geometry = Some mesh →
  h ∈ mesh_halfEdges mesh →
  let halfEdges := mesh_halfEdges mesh in
  halfEdges !! he_id h = Some h
  ∧ faceOf halfEdges (he_next h) = Some (he_face h)
  ∧ faceOf halfEdges (he_prev h) = Some (he_face h)
  ∧ (nextOf halfEdges (he_id h) ≫= nextOf halfEdges) ≫= nextOf halfEdges
    = Some (he_id h)
  ∧ prevOf halfEdges (he_id h) ≫= nextOf halfEdges = Some (he_id h)
  ∧ nextOf halfEdges (he_id h) ≫= prevOf halfEdges = Some (he_id h).
Proof.
  intros (faces & Hwf & ->)%analyzeGeometry_halfEdges [j Hh]%list_elem_of_lookup.
  destruct (halfEdgesOf_closure faces j h Hwf Hh) as (Hid & ?).
  rewrite Hid. by split.
Qed.

(** C2, as the code has it.  When [h] has a twin, the twin is a
    half-edge of the table that has a twin of its own, and that twin of
    the twin is the last half-edge with the directed pair of [h]; so the
    twin's twin is [h] exactly when [h] is the last half-edge with its
    directed pair. *)
Theorem twin_symmetry_last (geometry : BufferGeometry num)
    (mesh : ProcessedMesh num) (h : HalfEdgeData) (t : nat) :
  analyzeGeometry (SM:=SM) (NM:=NM) geometry = Some mesh →
  h ∈ mesh_halfEdges mesh →
  he_twin h = Some t →
  (∃ h' t', mesh_halfEdges mesh !! t = Some h'
            ∧ he_twin h' = Some t'
            ∧ lastWithPair (mesh_halfEdges mesh)
                (he_originVertex h) (he_targetVertex h) t')
  ∧ ((∃ h', mesh_halfEdges mesh !! t = Some h'
            ∧ he_twin h' = Some (he_id h))
     ↔ (∀ g, g ∈ mesh_halfEdges mesh →
          he_originVertex g = he_originVertex h →
          he_targetVertex g = he_targetVertex h → he_id g ≤ he_id h)).
Proof.
  intros (faces & Hwf & ->)%analyzeGeometry_halfEdges [j Hh]%list_elem_of_lookup
    Htw.
  destruct (halfEdgesOf_shape _ _ _ Hwf Hh) as (Hid & _). rewrite Hid.
  split.
  - pose proof Htw as Hlk. rewrite (halfEdgesOf_twin _ _ _ Hwf Hh) in Hlk.
    apply (heLookup_lastWithPair (SM:=SM)) in Hlk
      as [(h' & Hh' & Ho & Ht) _]; [|done].
    pose proof (halfEdgesOf_twin _ _ _ Hwf Hh') as Htw'.
    rewrite Ho, Ht in Htw'.
    destruct (buildHeLookup (SM:=SM) (buildTempHalfEdges faces)
                !! dirKey (he_originVertex h) (he_targetVertex h))
      as [t'|] eqn:Hlk'.
    + exists h', t'. split; [done|]. split; [done|].
      by apply (heLookup_lastWithPair (SM:=SM)).
    + destruct (heLookup_no_pair (SM:=SM) _ _ _ h Hlk');
        [apply list_elem_of_lookup; eauto|done].
  - rewrite (halfEdgesOf_twin_symmetry faces j t h Hwf Hh Htw). split.
    + intros Hmax g [j' Hg]%list_elem_of_lookup Ho Ht.
      destruct (halfEdgesOf_shape _ _ _ Hwf Hg) as (-> & _). eauto.
    + intros Hmax j' g Hg Ho Ht.
      destruct (halfEdgesOf_shape _ _ _ Hwf Hg) as (<- & _).
      apply Hmax; [|done..]. apply list_elem_of_lookup. eauto.
Qed.

(** C10, as the code has it.  A half-edge whose origin is its target
    always gets a twin: the last half-edge with that same pair, which is
    the half-edge itself exactly when no later one repeats the pair. *)
Theorem degenerate_twin_last (geometry : BufferGeometry num)
    (mesh : ProcessedMesh num) (h : HalfEdgeData) :
  analyzeGeometry (SM:=SM) (NM:=NM) geometry = Some mesh →
  h ∈ mesh_halfEdges mesh →
  he_originVertex h = he_targetVertex h →
  ∃ t g, he_twin h = Some t
    ∧ mesh_halfEdges mesh !! t = Some g
    ∧ he_id g = t
    ∧ he_originVertex g = he_originVertex h
    ∧ he_targetVertex g = he_targetVertex h
    ∧ (∀ g', g' ∈ mesh_halfEdges mesh →
         he_originVertex g' = he_originVertex h →
         he_targetVertex g' = he_targetVertex h → he_id g' ≤ t)
    ∧ lastWithPair (mesh_halfEdges mesh)
        (he_originVertex h) (he_targetVertex h) t
    ∧ he_id h ≤ t
    ∧ (t = he_id h
       ↔ ∀ g', g' ∈ mesh_halfEdges mesh →
           he_originVertex g' = he_originVertex h →
           he_targetVertex g' = he_targetVertex h → he_id g' ≤ he_id h).
Proof.
  intros (faces & Hwf & ->)%analyzeGeometry_halfEdges [j Hh]%list_elem_of_lookup
    Hloop.
  destruct (halfEdgesOf_self_twin faces j h Hwf Hh Hloop)
    as (t & Htw & Hlast & Hle).
  pose proof Hlast as [(g & Hg & Ho & Ht) Hmax].
  destruct (halfEdgesOf_shape _ _ _ Hwf Hh) as (Hid & _). rewrite Hid.
  destruct (halfEdgesOf_shape _ _ _ Hwf Hg) as (Hidg & _).
  exists t, g. split_and!; try done.
  - congruence.
  - intros g' [j' Hg']%list_elem_of_lookup Ho' Ht'.
    destruct (halfEdgesOf_shape _ _ _ Hwf Hg') as (-> & _).
    apply (Hmax _ _ Hg'); congruence.
  - by rewrite <-Hloop.
  - split.
    + intros -> g' [j' Hg']%list_elem_of_lookup Ho' Ht'.
      destruct (halfEdgesOf_shape _ _ _ Hwf Hg') as (-> & _).
      apply (Hmax _ _ Hg'); congruence.
    + intros Hlast'. assert (t ≤ j); [|lia].
      rewrite <-Hidg. apply Hlast'; [|congruence..].
      apply list_elem_of_lookup. eauto.
Qed.

End Output.

(** * Integer coordinates satisfy the rendering laws *)

Definition is_numeral_char (c : ascii) : bool :=
  match c with
  | "0" | "1" | "2" | "3" | "4" | "5" | "6" | "7" | "8" | "9" | "-" => true
  | _ => false
  end%char.

Fixpoint numeral (s : string) : bool :=
  match s with
  | EmptyString => true
  | String c s' => is_numeral_char c && numeral s'
  end.

Lemma numeral_no_sep (s : string) : numeral s = true → has_sep s = false.
Proof.
  induction s as [|c s IH]; [done|]. simpl.
  intros [Hc Hs]%andb_prop. rewrite (IH Hs).
  destruct (Ascii.eqb c "_") eqn:Heq; [|done].
  apply Ascii.eqb_eq in Heq as ->. done.
Qed.

Lemma numeral_pretty_N_go (x : N) (s : string) :
  numeral s = true → numeral (pretty_N_go x s) = true.
Proof.
  revert s. induction (N.lt_wf_0 x) as [x _ IH]; intros s Hs.
  destruct (decide (x = 0)%N) as [->|Hx].
  - by rewrite pretty_N_go_0.
  - rewrite pretty_N_go_step by lia.
    apply IH; [apply N.div_lt; lia|]. simpl. rewrite Hs.
    unfold pretty_N_char. by repeat case_match.
Qed.

Lemma numeral_pretty_Z (n : Z) : numeral (pretty n) = true.
Proof.
  destruct n as [|p|p]; [done|..].
  - by apply numeral_pretty_N_go.
  - change (pretty (Z.neg p)) with (String "-" (pretty_N_go (N.pos p) "")).
    simpl. by apply numeral_pretty_N_go.
Qed.

#[global] Instance intnum_JSNumberLaws : JSNumberLaws intnum.
Proof.
  split.
  - intros [|m] [|n]; simpl; intros Heq; [done| | |].
    + pose proof (numeral_pretty_Z n) as Hn. by rewrite <-Heq in Hn.
    + pose proof (numeral_pretty_Z m) as Hm. by rewrite Heq in Hm.
    + f_equal. by apply (inj pretty).
  - intros [|n]; [done|]. apply numeral_no_sep, numeral_pretty_Z.
Qed.

(** * Winged edges: the second pass *)

Section PassTwo.
Context {num : Type}.
Context {SM : Type → Type}
  `{FMap SM, ∀ A, Lookup string A (SM A), ∀ A, Empty (SM A),
    ∀ A, PartialAlter string A (SM A), OMap SM, Merge SM,
    ∀ A, MapFold string A (SM A)} `{!FinMap string SM}.
Context {NM : Type → Type}
  `{FMap NM, ∀ A, Lookup nat A (NM A), ∀ A, Empty (NM A),
    ∀ A, PartialAlter nat A (NM A), OMap NM, Merge NM,
    ∀ A, MapFold nat A (NM A)} `{!FinMap nat NM}.
Implicit Types (heLookup : SM nat) (heToWeMap : NM nat).
Implicit Types (tempHalfEdges : list TempHalfEdge).
Implicit Types (we : WingedEdgeData) (wingedEdges : list WingedEdgeData).

(** The fields the second pass never writes. *)
Definition same_frame (we we' : WingedEdgeData) : Prop :=
  we_id we' = we_id we ∧ we_createdStep we' = we_createdStep we
  ∧ we_startVertex we' = we_startVertex we
  ∧ we_endVertex we' = we_endVertex we
  ∧ we_faceLeft we' = we_faceLeft we ∧ we_faceRight we' = we_faceRight we.

Lemma linkSide_left heLookup tempHalfEdges heToWeMap (a b : nat) we we' :
  linkSide heLookup tempHalfEdges heToWeMap set_succLeft set_predLeft a b we
    = Some we' →
  same_frame we we'
  ∧ we_predRight we' = we_predRight we ∧ we_succRight we' = we_succRight we
  ∧ (heLookup !! dirKey a b = None → we' = we).
Proof.
  unfold linkSide, same_frame.
  destruct (heLookup !! dirKey a b) as [heId|]; [|by intros [= <-]].
  destruct (tempHalfEdges !! heId) as [he|]; [|done]. simpl.
  intros [= <-].
  by destruct (heToWeMap !! t_next he), (heToWeMap !! t_prev he).
Qed.

Lemma linkSide_right heLookup tempHalfEdges heToWeMap (a b : nat) we we' :
  linkSide heLookup tempHalfEdges heToWeMap set_succRight set_predRight a b we
    = Some we' →
  same_frame we we'
  ∧ we_predLeft we' = we_predLeft we ∧ we_succLeft we' = we_succLeft we
  ∧ (heLookup !! dirKey a b = None → we' = we).
Proof.
  unfold linkSide, same_frame.
  destruct (heLookup !! dirKey a b) as [heId|]; [|by intros [= <-]].
  destruct (tempHalfEdges !! heId) as [he|]; [|done]. simpl.
  intros [= <-].
  by destruct (heToWeMap !! t_next he), (heToWeMap !! t_prev he).
Qed.

(** What the second pass does to one record. *)
Definition linkedEdge heLookup tempHalfEdges heToWeMap we we' : Prop :=
  same_frame we we'
  ∧ (heLookup !! dirKey (we_startVertex we) (we_endVertex we) = None →
     we_predLeft we' = we_predLeft we ∧ we_succLeft we' = we_succLeft we)
  ∧ (heLookup !! dirKey (we_endVertex we) (we_startVertex we) = None →
     we_predRight we' = we_predRight we ∧ we_succRight we' = we_succRight we).

Lemma wePassTwoStep_Some heLookup tempHalfEdges heToWeMap wingedEdges
    (vertices vertices' : list (VertexData num)) (faces faces' : list FaceData)
    wingedEdges' (i : nat) :
  wePassTwoStep heLookup tempHalfEdges heToWeMap (wingedEdges, vertices, faces) i
    = Some (wingedEdges', vertices', faces') →
  ∃ we we', wingedEdges !! i = Some we
    ∧ linkedEdge heLookup tempHalfEdges heToWeMap we we'
    ∧ wingedEdges' = <[i := we']> wingedEdges.
Proof.
  unfold wePassTwoStep.
  destruct (wingedEdges !! i) as [we|]; [|done]. simpl.
  destruct (linkSide _ _ _ set_succLeft _ _ _ we) as [we1|] eqn:Hl; [|done].
  simpl.
  destruct (linkSide _ _ _ set_succRight _ _ _ we1) as [we2|] eqn:Hr; [|done].
  simpl. intros Hrest.
  destruct (updateAt _ _ vertices) as [vs1|]; [|done]. simpl in Hrest.
  destruct (updateAt _ _ vs1) as [vs2|]; [|done]. simpl in Hrest.
  destruct (faceRefStep _ _ faces) as [fs1|]; [|done]. simpl in Hrest.
  destruct (faceRefStep _ _ fs1) as [fs2|]; [|done]. simpl in Hrest.
  injection Hrest as <- _ _. exists we, we2. split_and!; [done| |done].
  apply linkSide_left in Hl as ((? & ? & Hs & He & ? & ?) & Hpr & Hsr & Hl).
  rewrite Hs, He in Hr.
  apply linkSide_right in Hr as ((? & ? & ? & ? & ? & ?) & Hpl & Hsl & Hr).
  unfold linkedEdge, same_frame. split_and!; try congruence.
  - intros ->%Hl. done.
  - intros ->%Hr. done.
Qed.

Lemma wePassTwo_loop heLookup tempHalfEdges heToWeMap (n a : nat)
    wingedEdges wingedEdges'
    (vertices vertices' : list (VertexData num)) (faces faces' : list FaceData) :
  forEachM (wePassTwoStep heLookup tempHalfEdges heToWeMap)
           (wingedEdges, vertices, faces) (seq a n)
    = Some (wingedEdges', vertices', faces') →
  length wingedEdges' = length wingedEdges
  ∧ ∀ i we', wingedEdges' !! i = Some we' →
      if decide (a ≤ i < a + n)
      then ∃ we, wingedEdges !! i = Some we
                 ∧ linkedEdge heLookup tempHalfEdges heToWeMap we we'
      else wingedEdges !! i = Some we'.
Proof.
  revert a wingedEdges vertices faces.
  induction n as [|n IH]; intros a wes vs fs.
  - intros [= <- _ _]. split; [done|]. intros i we' Hi.
    case_decide; [lia|done].
  - change (seq a (S n)) with (a :: seq (S a) n). rewrite forEachM_cons.
    destruct (wePassTwoStep heLookup tempHalfEdges heToWeMap (wes, vs, fs) a)
      as [[[wes1 vs1] fs1]|] eqn:Hstep; [|done].
    simpl. intros Hloop.
    apply wePassTwoStep_Some in Hstep as (we & we1 & Ha & Hlink & ->).
    apply IH in Hloop as [Hlen Hloop]. rewrite length_insert in Hlen.
    split; [done|]. intros i we' Hi. specialize (Hloop i we' Hi).
    destruct (decide (i = a)) as [->|Hne].
    + rewrite decide_False in Hloop by lia. rewrite decide_True by lia.
      rewrite list_lookup_insert_eq in Hloop by (by eapply lookup_lt_Some).
      exists we. by simplify_eq.
    + rewrite list_lookup_insert_ne in Hloop by done.
      repeat case_decide; try done; lia.
Qed.

Lemma wePassTwo_edges heLookup tempHalfEdges heToWeMap
    wingedEdges wingedEdges'
    (vertices vertices' : list (VertexData num)) (faces faces' : list FaceData)
    (i : nat) we' :
  forEachM (wePassTwoStep heLookup tempHalfEdges heToWeMap)
           (wingedEdges, vertices, faces) (seq 0 (length wingedEdges))
    = Some (wingedEdges', vertices', faces') →
  wingedEdges' !! i = Some we' →
  ∃ we, wingedEdges !! i = Some we
        ∧ linkedEdge heLookup tempHalfEdges heToWeMap we we'.
Proof.
  intros [Hlen Hloop]%wePassTwo_loop Hi. specialize (Hloop i we' Hi).
  apply lookup_lt_Some in Hi. rewrite decide_True in Hloop by lia. done.
Qed.

End PassTwo.

(** * Winged edges: the first pass *)

Definition weKey (we : WingedEdgeData) : string :=
  getEdgeKey (we_startVertex we) (we_endVertex we).
Definition heKey (he : TempHalfEdge) : string :=
  getEdgeKey (t_origin he) (t_target he).

(** What holds of the record at position [i] once the half-edges
    [visited] have been seen. *)
Definition we_ok (visited : list TempHalfEdge) (i : nat)
    (we : WingedEdgeData) : Prop :=
  we_id we = i
  ∧ we_startVertex we ≤ we_endVertex we
  ∧ we_createdStep we = None
  ∧ we_predLeft we = (-1)%Z ∧ we_succLeft we = (-1)%Z
  ∧ we_predRight we = (-1)%Z ∧ we_succRight we = (-1)%Z
  ∧ (∃ he, he ∈ visited ∧ heKey he = weKey we)
  ∧ (we_faceLeft we = (-1)%Z
     ∨ ∃ he, he ∈ visited ∧ t_origin he = we_startVertex we
             ∧ t_target he = we_endVertex we
             ∧ we_faceLeft we = Z.of_nat (t_face he))
  ∧ (we_faceRight we = (-1)%Z
     ∨ ∃ he, he ∈ visited ∧ t_origin he = we_endVertex we
             ∧ t_target he = we_startVertex we
             ∧ we_startVertex we ≠ we_endVertex we
             ∧ we_faceRight we = Z.of_nat (t_face he)).

Lemma we_ok_mono (visited visited' : list TempHalfEdge) (i : nat)
    (we : WingedEdgeData) :
  visited ⊆ visited' → we_ok visited i we → we_ok visited' i we.
Proof.
  intros Hsub (? & ? & ? & ? & ? & ? & ? & (he & ? & ?) & Hl & Hr).
  unfold we_ok. split_and!; try done.
  - exists he. auto.
  - destruct Hl as [?|(he' & ? & ?)]; [by left|right]. exists he'. auto.
  - destruct Hr as [?|(he' & ? & ?)]; [by left|right]. exists he'. auto.
Qed.

Lemma newWingedEdge_key (weId : nat) (he : TempHalfEdge) :
  weKey (newWingedEdge weId he) = heKey he.
Proof.
  unfold weKey, heKey, newWingedEdge. simpl.
  case_bool_decide; [done|apply getEdgeKey_comm].
Qed.

Lemma newWingedEdge_ok (visited : list TempHalfEdge) (weId : nat)
    (he : TempHalfEdge) :
  he ∈ visited → we_ok visited weId (newWingedEdge weId he).
Proof.
  intros Hin. unfold we_ok. split_and!; try done.
  - unfold newWingedEdge. simpl. case_bool_decide; lia.
  - exists he. by rewrite newWingedEdge_key.
  - by left.
  - by left.
Qed.

(** The assignment [we.faceLeft = he.face] or [we.faceRight = he.face]. *)
Definition assignFace (he : TempHalfEdge) (we : WingedEdgeData)
    : WingedEdgeData :=
  if decide (t_origin he = we_startVertex we)
  then set_faceLeft (Z.of_nat (t_face he)) we
  else set_faceRight (Z.of_nat (t_face he)) we.

Lemma assignFace_key (he : TempHalfEdge) (we : WingedEdgeData) :
  weKey (assignFace he we) = weKey we.
Proof. unfold assignFace. by case_decide. Qed.

Lemma assignFace_ok (visited : list TempHalfEdge) (i : nat)
    (he : TempHalfEdge) (we : WingedEdgeData) :
  he ∈ visited → heKey he = weKey we →
  we_ok visited i we → we_ok visited i (assignFace he we).
Proof.
  intros Hin Hkey (? & ? & ? & ? & ? & ? & ? & Hex & Hl & Hr).
  apply getEdgeKey_inj in Hkey.
  unfold we_ok, assignFace. case_decide as Ho; simpl; split_and!; try done.
  - right. exists he. split_and!; try done. lia.
  - right. exists he. split_and!; try done; lia.
Qed.

Section PassOne.
Context {SM : Type → Type}
  `{FMap SM, ∀ A, Lookup string A (SM A), ∀ A, Empty (SM A),
    ∀ A, PartialAlter string A (SM A), OMap SM, Merge SM,
    ∀ A, MapFold string A (SM A)} `{!FinMap string SM}.
Context {NM : Type → Type}
  `{FMap NM, ∀ A, Lookup nat A (NM A), ∀ A, Empty (NM A),
    ∀ A, PartialAlter nat A (NM A), OMap NM, Merge NM,
    ∀ A, MapFold nat A (NM A)} `{!FinMap nat NM}.
Implicit Types (edgeKeyToIndex : SM nat) (heToWeMap : NM nat).
Implicit Types (he : TempHalfEdge) (visited : list TempHalfEdge).
Implicit Types (we : WingedEdgeData) (wingedEdges : list WingedEdgeData).

Definition pass1_inv visited
    (st : list WingedEdgeData * SM nat * NM nat) : Prop :=
  let '(wingedEdges, edgeKeyToIndex, _) := st in
  (∀ k i, edgeKeyToIndex !! k = Some i
          ↔ ∃ we, wingedEdges !! i = Some we ∧ weKey we = k)
  ∧ (∀ i we, wingedEdges !! i = Some we → we_ok visited i we)
  ∧ (∀ he, he ∈ visited → is_Some (edgeKeyToIndex !! heKey he)).

Lemma pass1_inv_init : pass1_inv [] ([], ∅, ∅).
Proof.
  split_and!.
  - intros k i. rewrite lookup_empty. split; [done|]. by intros (? & ? & _).
  - done.
  - by intros he ?%elem_of_nil.
Qed.

(** First half of the loop body: the record for the key exists. *)
Lemma pass1_ensure visited wingedEdges edgeKeyToIndex heToWeMap heToWeMap' he :
  pass1_inv visited (wingedEdges, edgeKeyToIndex, heToWeMap) →
  pass1_inv (visited ++ [he])
    (match edgeKeyToIndex !! heKey he with
     | None =>
         (wingedEdges ++ [newWingedEdge (length wingedEdges) he],
          <[heKey he := length wingedEdges]> edgeKeyToIndex)
     | Some _ => (wingedEdges, edgeKeyToIndex)
     end, heToWeMap').
Proof.
  intros (Hmap & Hok & Hseen).
  assert (Hsub : visited ⊆ visited ++ [he])
    by (intros ? ?; apply elem_of_app; by left).
  destruct (edgeKeyToIndex !! heKey he) as [i0|] eqn:Hlk; split_and!.
  - done.
  - intros i we Hi. eapply we_ok_mono; eauto.
  - intros he' [Hin| ->%list_elem_of_singleton]%elem_of_app; eauto.
  - intros k i. rewrite lookup_insert. case_decide as Hk.
    + subst k. split.
      * intros [= <-]. exists (newWingedEdge (length wingedEdges) he).
        by rewrite list_lookup_middle, newWingedEdge_key.
      * intros (we & [[Hi Hwe]|[-> <-]]%lookup_snoc_Some & Hkey); [|done].
        assert (edgeKeyToIndex !! heKey he = Some i) by (apply Hmap; eauto).
        congruence.
    + rewrite Hmap. split.
      * intros (we & Hwe & Hkey). exists we. split; [|done].
        rewrite lookup_app_l; [done|]. by eapply lookup_lt_Some.
      * intros (we & [[Hi Hwe]|[-> <-]]%lookup_snoc_Some & Hkey); [eauto|].
        by rewrite newWingedEdge_key in Hkey.
  - intros i we [[Hi Hwe]|[-> <-]]%lookup_snoc_Some.
    + eapply we_ok_mono; eauto.
    + apply newWingedEdge_ok, elem_of_app. right. by apply list_elem_of_singleton.
  - intros he' [Hin| ->%list_elem_of_singleton]%elem_of_app.
    + apply lookup_insert_is_Some. destruct (decide (heKey he = heKey he'));
        [by left|right; auto].
    + rewrite lookup_insert_eq. eauto.
Qed.

(** Second half: the face of [he] is written into the record. *)
Lemma pass1_assign visited wingedEdges edgeKeyToIndex heToWeMap heToWeMap'
    he (weId : nat) we :
  pass1_inv visited (wingedEdges, edgeKeyToIndex, heToWeMap) →
  he ∈ visited →
  edgeKeyToIndex !! heKey he = Some weId →
  wingedEdges !! weId = Some we →
  pass1_inv visited
    (<[weId := assignFace he we]> wingedEdges, edgeKeyToIndex, heToWeMap').
Proof.
  intros (Hmap & Hok & Hseen) Hin Hid Hwe.
  assert (Hkey : heKey he = weKey we).
  { apply Hmap in Hid as (we' & ? & ?). congruence. }
  assert (Hlt : weId < length wingedEdges) by (by eapply lookup_lt_Some).
  split_and!; [| |done].
  - intros k i. rewrite Hmap. destruct (decide (i = weId)) as [->|Hne].
    + rewrite list_lookup_insert_eq by done. split.
      * intros (we' & ? & <-). simplify_eq. eexists. split; [done|].
        apply assignFace_key.
      * intros (we' & [= <-] & <-). exists we. split; [done|].
        by rewrite assignFace_key.
    + by rewrite list_lookup_insert_ne.
  - intros i we'. destruct (decide (i = weId)) as [->|Hne].
    + rewrite list_lookup_insert_eq by done. intros [= <-].
      apply assignFace_ok; auto.
    + rewrite list_lookup_insert_ne by done. auto.
Qed.

Lemma pass1_inv_step visited st st' he :
  pass1_inv visited st →
  wePassOneStep (SM:=SM) (NM:=NM) st he = Some st' →
  pass1_inv (visited ++ [he]) st'.
Proof.
  destruct st as [[wes ekm] h2w]. intros Hinv. unfold wePassOneStep.
  fold (heKey he).
  pose proof (pass1_ensure _ _ _ _ h2w he Hinv) as Hens.
  destruct (match ekm !! heKey he with
            | None => _ | Some _ => _ end) as [wes1 ekm1].
  destruct (ekm1 !! heKey he) as [weId|] eqn:Hid; [|done]. simpl.
  destruct (wes1 !! weId) as [we|] eqn:Hwe; [|done]. simpl.
  intros [= <-]. fold (assignFace he we).
  eapply pass1_assign; eauto.
  apply elem_of_app. right. by apply list_elem_of_singleton.
Qed.

Lemma pass1_inv_loop (tempHalfEdges : list TempHalfEdge)
    (st : list WingedEdgeData * SM nat * NM nat) :
  forEachM (wePassOneStep (SM:=SM) (NM:=NM)) ([], ∅, ∅) tempHalfEdges
    = Some st →
  pass1_inv tempHalfEdges st.
Proof.
  revert st. induction tempHalfEdges as [|he l IH] using rev_ind; intros st.
  - intros [= <-]. apply pass1_inv_init.
  - rewrite forEachM_snoc.
    destruct (forEachM wePassOneStep _ l) as [st0|]; [|done]. simpl.
    apply pass1_inv_step. by apply IH.
Qed.

End PassOne.

(** * The winged-edge table of the output *)

Section EdgeTable.
Context {num : Type} `{JSNumber num}.
Context {SM : Type → Type}
  `{FMap SM, ∀ A, Lookup string A (SM A), ∀ A, Empty (SM A),
    ∀ A, PartialAlter string A (SM A), OMap SM, Merge SM,
    ∀ A, MapFold string A (SM A)} `{!FinMap string SM}.
Context {NM : Type → Type}
  `{FMap NM, ∀ A, Lookup nat A (NM A), ∀ A, Empty (NM A),
    ∀ A, PartialAlter nat A (NM A), OMap NM, Merge NM,
    ∀ A, MapFold nat A (NM A)} `{!FinMap nat NM}.

Lemma linked_elem_of (faces : list FaceData) (he : TempHalfEdge) :
  he ∈ linkedHalfEdges (SM:=SM) faces →
  ∃ h, h ∈ halfEdgesOf (SM:=SM) faces
       ∧ he_originVertex h = t_origin he ∧ he_targetVertex h = t_target he
       ∧ he_face h = t_face he ∧ he_id h = t_id he.
Proof.
  intros Hin. exists (toHalfEdge he). split; [|done].
  unfold halfEdgesOf. by apply list_elem_of_fmap_2.
Qed.

(** Everything the two passes establish about one record of the output,
    in terms of the half-edge table of the output. *)
Lemma edge_facts (geometry : BufferGeometry num) (mesh : ProcessedMesh num)
    (i : nat) (we : WingedEdgeData) :
  analyzeGeometry (SM:=SM) (NM:=NM) geometry = Some mesh →
  mesh_edges mesh !! i = Some we →
  let halfEdges := mesh_halfEdges mesh in
  we_id we = i
  ∧ we_createdStep we = None
  ∧ we_startVertex we ≤ we_endVertex we
  ∧ (∃ h, h ∈ halfEdges
          ∧ getEdgeKey (he_originVertex h) (he_targetVertex h) = weKey we)
  ∧ (we_faceLeft we = (-1)%Z
     ∨ ∃ h, h ∈ halfEdges ∧ he_originVertex h = we_startVertex we
            ∧ he_targetVertex h = we_endVertex we
            ∧ we_faceLeft we = Z.of_nat (he_face h))
  ∧ (we_faceRight we = (-1)%Z
     ∨ ∃ h, h ∈ halfEdges ∧ he_originVertex h = we_endVertex we
            ∧ he_targetVertex h = we_startVertex we
            ∧ we_startVertex we ≠ we_endVertex we
            ∧ we_faceRight we = Z.of_nat (he_face h))
  ∧ ((∀ h, h ∈ halfEdges →
        ¬ (he_originVertex h = we_startVertex we
           ∧ he_targetVertex h = we_endVertex we)) →
     we_predLeft we = (-1)%Z ∧ we_succLeft we = (-1)%Z)
  ∧ ((∀ h, h ∈ halfEdges →
        ¬ (he_originVertex h = we_endVertex we
           ∧ he_targetVertex h = we_startVertex we)) →
     we_predRight we = (-1)%Z ∧ we_succRight we = (-1)%Z).
Proof.
  intros Hrun Hwe halfEdges. pose proof Hrun as Hrun'.
  apply analyzeGeometry_inv in Hrun'
    as (pis & vs & um & faces & vs1 & fs1 & wes & ekm & h2w & _ & Hfaces
        & _ & Hhes & _ & Hone & Htwo).
  assert (Hwf : faces_wf faces).
  { intros k f Hf. by destruct (faces_lookup _ _ _ _ Hfaces Hf). }
  apply pass1_inv_loop in Hone as (_ & Hok & _).
  destruct (wePassTwo_edges _ _ _ _ _ _ _ _ _ _ _ Htwo Hwe)
    as (we0 & Hwe0 & (Hid & Hcs & Hs & He & Hfl & Hfr) & Hleft & Hright).
  destruct (Hok i we0 Hwe0)
    as (Hid0 & Hle & Hcs0 & Hpl & Hsl & Hpr & Hsr & (he & Hhe & Hkey) & Hl & Hr).
  subst halfEdges. rewrite Hhes. unfold weKey in *.
  rewrite Hid, Hcs, Hs, He, Hfl, Hfr. split_and!; try done.
  - apply linked_elem_of in Hhe as (h & ? & Ho & Ht & _). exists h.
    split; [done|]. unfold heKey in Hkey. congruence.
  - destruct Hl as [?|(he' & Hin & ? & ? & ?)]; [by left|right].
    apply linked_elem_of in Hin as (h & ? & Ho & Ht & Hf & _). exists h.
    split_and!; congruence.
  - destruct Hr as [?|(he' & Hin & ? & ? & ? & ?)]; [by left|right].
    apply linked_elem_of in Hin as (h & ? & Ho & Ht & Hf & _). exists h.
    split_and!; congruence.
  - intros Hno. destruct Hleft as [-> ->]; [|done].
    destruct (buildHeLookup (SM:=SM) (buildTempHalfEdges faces)
                !! dirKey (we_startVertex we0) (we_endVertex we0))
      as [t|] eqn:Hlk; [|done].
    apply heLookup_lastWithPair in Hlk as [(g & Hg & ? & ?) _]; [|done].
    destruct (Hno g); [|done]. apply list_elem_of_lookup. eauto.
  - intros Hno. destruct Hright as [-> ->]; [|done].
    destruct (buildHeLookup (SM:=SM) (buildTempHalfEdges faces)
                !! dirKey (we_endVertex we0) (we_startVertex we0))
      as [t|] eqn:Hlk; [|done].
    apply heLookup_lastWithPair in Hlk as [(g & Hg & ? & ?) _]; [|done].
    destruct (Hno g); [|done]. apply list_elem_of_lookup. eauto.
Qed.

(** C4.  A face on the left comes from a half-edge running
    [startVertex → endVertex] in that face, a face on the right from one
    running [endVertex → startVertex]. *)
Theorem left_right_faces (geometry : BufferGeometry num)
    (mesh : ProcessedMesh num) (we : WingedEdgeData) :
  analyzeGeometry (SM:=SM) (NM:=NM) geometry = Some mesh →
  we ∈ mesh_edges mesh →
  (we_faceLeft we ≠ (-1)%Z →
   ∃ h, h ∈ mesh_halfEdges mesh
        ∧ he_originVertex h = we_startVertex we
        ∧ he_targetVertex h = we_endVertex we
        ∧ Z.of_nat (he_face h) = we_faceLeft we)
  ∧ (we_faceRight we ≠ (-1)%Z →
     ∃ h, h ∈ mesh_halfEdges mesh
          ∧ he_originVertex h = we_endVertex we
          ∧ he_targetVertex h = we_startVertex we
          ∧ Z.of_nat (he_face h) = we_faceRight we).
Proof.
  intros Hrun [i Hwe]%list_elem_of_lookup.
  destruct (edge_facts _ _ _ _ Hrun Hwe) as (_ & _ & _ & _ & Hl & Hr & _).
  split.
  - intros Hset. destruct Hl as [?|(h & ? & ? & ? & ?)]; [done|].
    exists h. by split_and!.
  - intros Hset. destruct Hr as [?|(h & ? & ? & ? & ? & ?)]; [done|].
    exists h. by split_and!.
Qed.

(** C6, as the code has it.  The endpoints of a record are the smaller
    and the larger vertex of one of the half-edges; they are in strict
    order unless that half-edge runs from a vertex to itself. *)
Theorem canonical_orientation (geometry : BufferGeometry num)
    (mesh : ProcessedMesh num) (we : WingedEdgeData) :
  analyzeGeometry (SM:=SM) (NM:=NM) geometry = Some mesh →
  we ∈ mesh_edges mesh →
  we_startVertex we ≤ we_endVertex we
  ∧ (∃ h, h ∈ mesh_halfEdges mesh
          ∧ we_startVertex we = he_originVertex h `min` he_targetVertex h
          ∧ we_endVertex we = he_originVertex h `max` he_targetVertex h)
  ∧ ((∀ h, h ∈ mesh_halfEdges mesh → he_originVertex h ≠ he_targetVertex h)
     → we_startVertex we < we_endVertex we).
Proof.
  intros Hrun [i Hwe]%list_elem_of_lookup.
  destruct (edge_facts _ _ _ _ Hrun Hwe)
    as (_ & _ & Hle & (h & Hh & Hkey) & _).
  apply getEdgeKey_inj in Hkey. split_and!; [done| |].
  - exists h. split; [done|]. lia.
  - intros Hnd. specialize (Hnd h Hh). lia.
Qed.

(** C7, as the code has it.  When one half-edge alone has the key of a
    record and the endpoints of the record differ, the side opposite to
    that half-edge has no face, no predecessor and no successor. *)
Theorem boundary_side_empty (geometry : BufferGeometry num)
    (mesh : ProcessedMesh num) (we : WingedEdgeData) (h : HalfEdgeData) :
  analyzeGeometry (SM:=SM) (NM:=NM) geometry = Some mesh →
  we ∈ mesh_edges mesh →
  h ∈ mesh_halfEdges mesh →
  getEdgeKey (he_originVertex h) (he_targetVertex h) = weKey we →
  (∀ g, g ∈ mesh_halfEdges mesh →
     getEdgeKey (he_originVertex g) (he_targetVertex g) = weKey we → g = h) →
  we_startVertex we ≠ we_endVertex we →
  (he_originVertex h = we_startVertex we →
   we_faceRight we = (-1)%Z
   ∧ we_predRight we = (-1)%Z ∧ we_succRight we = (-1)%Z)
  ∧ (he_originVertex h = we_endVertex we →
     we_faceLeft we = (-1)%Z
     ∧ we_predLeft we = (-1)%Z ∧ we_succLeft we = (-1)%Z).
Proof.
  intros Hrun [i Hwe]%list_elem_of_lookup Hh Hkey Hsole Hne.
  destruct (edge_facts _ _ _ _ Hrun Hwe)
    as (_ & _ & _ & _ & Hl & Hr & Hpl & Hpr).
  assert (Hpair : ∀ g a b, g ∈ mesh_halfEdges mesh →
            he_originVertex g = a → he_targetVertex g = b →
            getEdgeKey a b = weKey we → he_originVertex h = a).
  { intros g a b Hg <- <- Hk. by rewrite (Hsole g Hg Hk). }
  unfold weKey in Hpair. split; intros Ho.
  - assert (Hno : ∀ g, g ∈ mesh_halfEdges mesh →
              ¬ (he_originVertex g = we_endVertex we
                 ∧ he_targetVertex g = we_startVertex we)).
    { intros g Hg [Hgo Hgt].
      pose proof (Hpair g _ _ Hg Hgo Hgt (getEdgeKey_comm _ _)). congruence. }
    split; [|by apply Hpr].
    destruct Hr as [?|(g & Hg & ? & ? & _)]; [done|]. by destruct (Hno g).
  - assert (Hno : ∀ g, g ∈ mesh_halfEdges mesh →
              ¬ (he_originVertex g = we_startVertex we
                 ∧ he_targetVertex g = we_endVertex we)).
    { intros g Hg [Hgo Hgt].
      pose proof (Hpair g _ _ Hg Hgo Hgt eq_refl). congruence. }
    split; [|by apply Hpl].
    destruct Hl as [?|(g & Hg & ? & ? & _)]; [done|]. by destruct (Hno g).
Qed.

(** C8.  No record of the output has a [createdStep]. *)
Theorem createdStep_absent (geometry : BufferGeometry num)
    (mesh : ProcessedMesh num) (we : WingedEdgeData) :
  analyzeGeometry (SM:=SM) (NM:=NM) geometry = Some mesh →
  we ∈ mesh_edges mesh →
  we_createdStep we = None.
Proof.
  intros Hrun [i Hwe]%list_elem_of_lookup.
  by destruct (edge_facts _ _ _ _ Hrun Hwe) as (_ & ? & _).
Qed.

End EdgeTable.

(** * Counting edges *)

Section Counting.

Lemma filter_length_ext_in {A : Type} (P Q : A → Prop)
    `{!∀ x, Decision (P x), !∀ x, Decision (Q x)} (l : list A) :
  (∀ x, x ∈ l → P x ↔ Q x) →
  length (filter P l) = length (filter Q l).
Proof.
  induction l as [|a l IH]; intros Hiff; [done|].
  rewrite !filter_cons.
  assert (length (filter P l) = length (filter Q l)) as Hl.
  { apply IH. intros x Hx. apply Hiff. by right. }
  destruct (decide (P a)) as [Hp|Hp], (decide (Q a)) as [Hq|Hq]; simpl;
    try lia.
  - destruct Hq. apply Hiff; [by left|done].
  - destruct Hp. apply Hiff; [by left|done].
Qed.

Lemma filter_length_fmap {A B : Type} (f : A → B) (P : B → Prop)
    `{!∀ y, Decision (P y)} (l : list A) :
  length (filter P (f <$> l)) = length (filter (λ x, P (f x)) l).
Proof.
  induction l as [|a l IH]; [done|].
  rewrite fmap_cons, !filter_cons. destruct (decide (P (f a))); simpl; lia.
Qed.

Lemma filter_length_remove {A : Type} `{!EqDecision A} (P : A → Prop)
    `{!∀ x, Decision (P x)} (l : list A) (x : A) :
  NoDup l → x ∈ l → P x →
  length (filter (λ e, e ≠ x ∧ P e) l) + 1 = length (filter P l).
Proof.
  induction l as [|a l IH]; intros Hnd Hin Hx; [by apply elem_of_nil in Hin|].
  apply NoDup_cons in Hnd as [Ha Hnd]. rewrite !filter_cons.
  apply elem_of_cons in Hin as [->|Hin].
  - rewrite decide_False by (by intros [? _]). rewrite decide_True by done.
    simpl. rewrite (filter_length_ext_in _ P); [lia|].
    intros e He. split; [by intros [_ ?]|]. intros. split; [|done].
    by intros ->.
  - specialize (IH Hnd Hin Hx). assert (a ≠ x) by (by intros ->).
    destruct (decide (P a)).
    + rewrite decide_True by done. simpl. lia.
    + rewrite decide_False by (by intros [_ ?]). done.
Qed.

Implicit Types (p d : nat * nat) (D : list (nat * nat)).

Definition pairKey p : string := getEdgeKey p.1 p.2.
Definition swap p : nat * nat := (p.2, p.1).

(** The distinct undirected keys of a list of directed pairs. *)
Definition edgeKeys D : gset string := list_to_set (pairKey <$> D).

Lemma swap_swap p : swap (swap p) = p.
Proof. by destruct p. Qed.

Lemma elem_of_edgeKeys p D : pairKey p ∈ edgeKeys D ↔ p ∈ D ∨ swap p ∈ D.
Proof.
  unfold edgeKeys. rewrite elem_of_list_to_set, list_elem_of_fmap. split.
  - intros ([a b] & Hk & Hin). destruct p as [c e].
    unfold pairKey in Hk. simpl in Hk.
    apply getEdgeKey_inj in Hk as [[-> ->]|[-> ->]]; auto.
  - intros [Hin|Hin]; [by exists p|]. exists (swap p). split; [|done].
    destruct p. apply getEdgeKey_comm.
Qed.

Lemma edgeKeys_cons d D :
  size (edgeKeys (d :: D))
  = if decide (d ∈ D ∨ swap d ∈ D) then size (edgeKeys D)
    else S (size (edgeKeys D)).
Proof.
  unfold edgeKeys at 1. rewrite fmap_cons, list_to_set_cons.
  fold (edgeKeys D). case_decide as Hin.
  - apply elem_of_edgeKeys in Hin. f_equal.
    by apply subseteq_union_1_L, singleton_subseteq_l.
  - rewrite <-elem_of_edgeKeys in Hin.
    rewrite size_union by (by apply disjoint_singleton_l).
    by rewrite size_singleton.
Qed.

Lemma edgeKeys_le D : size (edgeKeys D) ≤ length D.
Proof.
  induction D as [|d D IH]; [done|].
  rewrite edgeKeys_cons. case_decide; simpl; lia.
Qed.

(** Without repeated directed pairs, every key is carried by two
    half-edges, except that a pair with no reverse and a pair [(a, a)]
    carry their key alone. *)
Lemma edge_count D :
  NoDup D →
  2 * size (edgeKeys D)
  = length D + length (filter (λ p, swap p ∉ D) D)
    + length (filter (λ p, p.1 = p.2) D).
Proof.
  induction D as [|d D IH]; [done|].
  intros [Hd Hnd]%NoDup_cons. specialize (IH Hnd).
  rewrite edgeKeys_cons.
  rewrite (filter_cons (λ p, p.1 = p.2)), (filter_cons (λ p, swap p ∉ d :: D)).
  assert (Hrest : length (filter (λ p, swap p ∉ d :: D) D)
                  = length (filter (λ p, p ≠ swap d ∧ swap p ∉ D) D)).
  { apply filter_length_ext_in. intros p _. rewrite not_elem_of_cons.
    split; intros [Hne ?]; (split; [|done]); intros Heq; apply Hne.
    - by rewrite Heq, swap_swap.
    - by rewrite <-Heq, swap_swap. }
  destruct (decide (swap d ∈ D)) as [Hs|Hs].
  - assert (d.1 ≠ d.2) as Hnd'.
    { intros Heq. apply Hd. destruct d as [a b]. simpl in Heq. by subst. }
    rewrite decide_True by auto.
    rewrite (decide_False (P := d.1 = d.2)) by done.
    rewrite decide_False by (intros Hn; apply Hn; by right).
    pose proof (filter_length_remove (λ p, swap p ∉ D) D (swap d) Hnd Hs)
      as Hrem.
    cbn beta in Hrem. rewrite swap_swap in Hrem. specialize (Hrem Hd).
    simpl in *. lia.
  - rewrite decide_False by (by intros [?|?]).
    assert (length (filter (λ p, p ≠ swap d ∧ swap p ∉ D) D)
            = length (filter (λ p, swap p ∉ D) D)) as Hsame.
    { apply filter_length_ext_in. intros p Hp. split; [by intros [_ ?]|].
      intros. split; [|done]. by intros ->. }
    destruct (decide (d.1 = d.2)) as [Heq|Hne].
    + rewrite decide_False.
      2: { intros Hn. apply Hn, elem_of_cons. left. destruct d as [a b].
           simpl in Heq. by subst. }
      simpl in *. lia.
    + rewrite decide_True.
      2: { apply not_elem_of_cons. split; [|done]. intros Heq. apply Hne.
           destruct d as [a b]. by injection Heq. }
      simpl in *. lia.
Qed.

End Counting.

Definition hePair (h : HalfEdgeData) : nat * nat :=
  (he_originVertex h, he_targetVertex h).

Section EdgeCount.
Context {num : Type} `{JSNumber num}.
Context {SM : Type → Type}
  `{FMap SM, ∀ A, Lookup string A (SM A), ∀ A, Empty (SM A),
    ∀ A, PartialAlter string A (SM A), OMap SM, Merge SM,
    ∀ A, MapFold string A (SM A)} `{!FinMap string SM}.
Context {NM : Type → Type}
  `{FMap NM, ∀ A, Lookup nat A (NM A), ∀ A, Empty (NM A),
    ∀ A, PartialAlter nat A (NM A), OMap NM, Merge NM,
    ∀ A, MapFold nat A (NM A)} `{!FinMap nat NM}.

(** One record per distinct undirected key. *)
Lemma edges_length (geometry : BufferGeometry num) (mesh : ProcessedMesh num) :
  analyzeGeometry (SM:=SM) (NM:=NM) geometry = Some mesh →
  length (mesh_edges mesh) = size (edgeKeys (hePair <$> mesh_halfEdges mesh)).
Proof.
  intros (pis & vs & um & faces & vs1 & fs1 & wes & ekm & h2w & _ & _
          & _ & -> & _ & Hone & Htwo)%analyzeGeometry_inv.
  apply wePassTwo_loop in Htwo as [-> _].
  apply pass1_inv_loop in Hone as (Hmap & Hok & Hseen).
  assert (Hnd : NoDup (weKey <$> wes)).
  { apply NoDup_alt. intros i j k.
    rewrite !list_lookup_fmap.
    destruct (wes !! i) as [wi|] eqn:Hi, (wes !! j) as [wj|] eqn:Hj; try done.
    simpl. intros [= Hki] [= Hkj].
    assert (ekm !! k = Some i) by (apply Hmap; eauto).
    assert (ekm !! k = Some j) by (apply Hmap; eauto). congruence. }
  rewrite <-(length_fmap weKey), <-(size_list_to_set (C:=gset string)) by done.
  f_equal. unfold edgeKeys. apply set_eq. intros k.
  rewrite !elem_of_list_to_set, !list_elem_of_fmap. split.
  - intros (we & -> & [i Hwe]%list_elem_of_lookup).
    destruct (Hok i we Hwe) as (_ & _ & _ & _ & _ & _ & _ & (he & Hin & Hk) & _).
    exists (hePair (toHalfEdge he)). split; [done|].
    apply list_elem_of_fmap. exists (toHalfEdge he). split; [done|].
    unfold halfEdgesOf. by apply list_elem_of_fmap_2.
  - intros (p & -> & (h & -> & Hh)%list_elem_of_fmap).
    unfold halfEdgesOf in Hh. apply list_elem_of_fmap in Hh as (he & -> & Hhe).
    destruct (Hseen he Hhe) as [i Hi].
    apply Hmap in Hi as (we & Hwe & Hk). exists we. split; [done|].
    apply list_elem_of_lookup. eauto.
Qed.

(** A half-edge is without twin exactly when no half-edge has the
    reversed pair. *)
Lemma twin_None_iff (geometry : BufferGeometry num) (mesh : ProcessedMesh num)
    (h : HalfEdgeData) :
  analyzeGeometry (SM:=SM) (NM:=NM) geometry = Some mesh →
  h ∈ mesh_halfEdges mesh →
  he_twin h = None ↔ swap (hePair h) ∉ hePair <$> mesh_halfEdges mesh.
Proof.
  intros (faces & Hwf & ->)%analyzeGeometry_halfEdges [j Hh]%list_elem_of_lookup.
  rewrite (halfEdgesOf_twin _ _ _ Hwf Hh). split.
  - intros Hnone (g & Hp & Hg)%list_elem_of_fmap.
    destruct (heLookup_no_pair _ _ _ g Hnone Hg).
    unfold swap, hePair in Hp. simpl in Hp. by injection Hp as -> ->.
  - intros Hno.
    destruct (buildHeLookup (SM:=SM) (buildTempHalfEdges faces)
                !! dirKey (he_targetVertex h) (he_originVertex h))
      as [t|] eqn:Hlk; [|done].
    apply heLookup_lastWithPair in Hlk as [(g & Hg & Ho & Ht) _]; [|done].
    destruct Hno. apply list_elem_of_fmap. exists g. split.
    + unfold swap, hePair. simpl. by rewrite Ho, Ht.
    + apply list_elem_of_lookup. eauto.
Qed.

(** C5, as the code has it.  There are never more records than
    half-edges.  When no directed pair is repeated, twice the number of
    records is the number of half-edges plus the number of half-edges
    without twin plus the number of half-edges from a vertex to itself:
    at least half the half-edges, and exactly half when every half-edge
    has a twin and none is such a loop. *)
Theorem edge_count_formula (geometry : BufferGeometry num)
    (mesh : ProcessedMesh num) :
  analyzeGeometry (SM:=SM) (NM:=NM) geometry = Some mesh →
  let halfEdges := mesh_halfEdges mesh in
  length (mesh_edges mesh) ≤ length halfEdges
  ∧ (NoDup (hePair <$> halfEdges) →
     2 * length (mesh_edges mesh)
     = length halfEdges
       + length (filter (λ h, he_twin h = None) halfEdges)
       + length (filter (λ h, he_originVertex h = he_targetVertex h)
                        halfEdges)).
Proof.
  intros Hrun halfEdges. rewrite (edges_length _ _ Hrun). fold halfEdges.
  split.
  - etrans; [apply edgeKeys_le|]. by rewrite length_fmap.
  - intros Hnd. rewrite (edge_count _ Hnd), length_fmap.
    rewrite !filter_length_fmap. f_equal. f_equal.
    apply filter_length_ext_in. intros h Hh. simpl.
    symmetry. apply (twin_None_iff geometry mesh h Hrun Hh).
Qed.

End EdgeCount.

(** * Independence of the map implementation *)

(** Two maps, possibly of different implementations, that answer every
    lookup alike. *)
Definition same_lookups {K A M1 M2 : Type} `{Lookup K A M1, Lookup K A M2}
    (m1 : M1) (m2 : M2) : Prop :=
  ∀ k : K, m1 !! k = m2 !! k.

Lemma forEachM_rel {A S1 S2 : Type} (R : S1 → S2 → Prop)
    (f1 : S1 → A → option S1) (f2 : S2 → A → option S2) (l : list A)
    (s1 : S1) (s2 : S2) :
  (∀ s1 s2 a, R s1 s2 → option_Forall2 R (f1 s1 a) (f2 s2 a)) →
  R s1 s2 →
  option_Forall2 R (forEachM f1 s1 l) (forEachM f2 s2 l).
Proof.
  intros Hstep. revert s1 s2.
  induction l as [|a l IH]; intros s1 s2 HR; simpl; [by constructor|].
  destruct (Hstep s1 s2 a HR) as [t1 t2 Ht|]; simpl; [by apply IH|constructor].
Qed.

Section Determinism.
Context {num : Type} `{JSNumber num}.
Context {SM1 : Type → Type}
  `{FMap SM1, ∀ A, Lookup string A (SM1 A), ∀ A, Empty (SM1 A),
    ∀ A, PartialAlter string A (SM1 A), OMap SM1, Merge SM1,
    ∀ A, MapFold string A (SM1 A)} `{!FinMap string SM1}.
Context {NM1 : Type → Type}
  `{FMap NM1, ∀ A, Lookup nat A (NM1 A), ∀ A, Empty (NM1 A),
    ∀ A, PartialAlter nat A (NM1 A), OMap NM1, Merge NM1,
    ∀ A, MapFold nat A (NM1 A)} `{!FinMap nat NM1}.
Context {SM2 : Type → Type}
  `{FMap SM2, ∀ A, Lookup string A (SM2 A), ∀ A, Empty (SM2 A),
    ∀ A, PartialAlter string A (SM2 A), OMap SM2, Merge SM2,
    ∀ A, MapFold string A (SM2 A)} `{!FinMap string SM2}.
Context {NM2 : Type → Type}
  `{FMap NM2, ∀ A, Lookup nat A (NM2 A), ∀ A, Empty (NM2 A),
    ∀ A, PartialAlter nat A (NM2 A), OMap NM2, Merge NM2,
    ∀ A, MapFold nat A (NM2 A)} `{!FinMap nat NM2}.

Lemma same_lookups_empty_s : same_lookups (∅ : SM1 nat) (∅ : SM2 nat).
Proof. intros k. by rewrite !lookup_empty. Qed.

Lemma same_lookups_empty_n : same_lookups (∅ : NM1 nat) (∅ : NM2 nat).
Proof. intros k. by rewrite !lookup_empty. Qed.

Lemma same_lookups_insert_s (m1 : SM1 nat) (m2 : SM2 nat) (k : string)
    (v : nat) :
  same_lookups m1 m2 → same_lookups (<[k := v]> m1) (<[k := v]> m2).
Proof. intros Hm k'. rewrite !lookup_insert. by case_decide. Qed.

Lemma same_lookups_insert_n (m1 : NM1 nat) (m2 : NM2 nat) (k v : nat) :
  same_lookups m1 m2 → same_lookups (<[k := v]> m1) (<[k := v]> m2).
Proof. intros Hm k'. rewrite !lookup_insert. by case_decide. Qed.

(** Stage 1. *)
Definition merge_rel
    (st1 : list nat * list (VertexData num) * SM1 nat)
    (st2 : list nat * list (VertexData num) * SM2 nat) : Prop :=
  st1.1 = st2.1 ∧ same_lookups st1.2 st2.2.

Lemma mergeStep_rel (positions : list num) st1 st2 (pIdx : nat) :
  merge_rel st1 st2 →
  merge_rel (mergeStep positions st1 pIdx) (mergeStep positions st2 pIdx).
Proof.
  destruct st1 as [[pis vs] m1], st2 as [[pis' vs'] m2].
  intros [[= <- <-] Hm]. simpl in Hm.
  unfold mergeStep, getOrAddVertex. rewrite <-Hm.
  destruct (m1 !! _) as [id|]; [done|].
  split; [done|]. by apply same_lookups_insert_s.
Qed.

Lemma merge_foldl_rel (positions : list num) (ps : list nat) st1 st2 :
  merge_rel st1 st2 →
  merge_rel (foldl (mergeStep positions) st1 ps)
            (foldl (mergeStep positions) st2 ps).
Proof.
  revert st1 st2. induction ps as [|p ps IH]; intros st1 st2 Hst; [done|].
  simpl. by apply IH, mergeStep_rel.
Qed.

Lemma mergeVertices_rel (geometry : BufferGeometry num) :
  merge_rel (mergeVertices (SM:=SM1) geometry)
            (mergeVertices (SM:=SM2) geometry).
Proof.
  unfold mergeVertices. apply merge_foldl_rel.
  split; [done|apply same_lookups_empty_s].
Qed.

(** Stage 4. *)
Lemma buildHeLookup_rel (tempHalfEdges : list TempHalfEdge) :
  same_lookups (buildHeLookup (SM:=SM1) tempHalfEdges)
               (buildHeLookup (SM:=SM2) tempHalfEdges).
Proof.
  unfold buildHeLookup.
  induction tempHalfEdges as [|he l IH] using rev_ind.
  - apply same_lookups_empty_s.
  - rewrite !foldl_snoc. by apply same_lookups_insert_s.
Qed.

Lemma linkTwin_rel (m1 : SM1 nat) (m2 : SM2 nat) (he : TempHalfEdge) :
  same_lookups m1 m2 → linkTwin m1 he = linkTwin m2 he.
Proof. intros Hm. unfold linkTwin. by rewrite Hm. Qed.

(** Stage 6, first pass. *)
Definition pass1_rel
    (st1 : list WingedEdgeData * SM1 nat * NM1 nat)
    (st2 : list WingedEdgeData * SM2 nat * NM2 nat) : Prop :=
  st1.1.1 = st2.1.1 ∧ same_lookups st1.1.2 st2.1.2
  ∧ same_lookups st1.2 st2.2.

Lemma wePassOneStep_rel st1 st2 (he : TempHalfEdge) :
  pass1_rel st1 st2 →
  option_Forall2 pass1_rel (wePassOneStep st1 he) (wePassOneStep st2 he).
Proof.
  destruct st1 as [[wes e1] h1], st2 as [[wes' e2] h2].
  intros ([= <-] & He & Hh). simpl in He, Hh.
  unfold wePassOneStep. rewrite <-He.
  destruct (e1 !! getEdgeKey (t_origin he) (t_target he)) as [i|] eqn:Hlk.
  - rewrite <-He, Hlk. simpl.
    destruct (wes !! i) as [we|]; simpl; constructor.
    split_and!; [done..|]. by apply same_lookups_insert_n.
  - rewrite !lookup_insert_eq. simpl.
    destruct ((wes ++ _) !! length wes) as [we|]; simpl; constructor.
    split_and!; [done| |].
    + by apply same_lookups_insert_s.
    + by apply same_lookups_insert_n.
Qed.

(** Stage 6, second pass. *)
Lemma linkSide_rel (lk1 : SM1 nat) (lk2 : SM2 nat)
    (tempHalfEdges : list TempHalfEdge) (h1 : NM1 nat) (h2 : NM2 nat)
    (set_succ set_pred : Z → WingedEdgeData → WingedEdgeData) (a b : nat)
    (we : WingedEdgeData) :
  same_lookups lk1 lk2 → same_lookups h1 h2 →
  linkSide lk1 tempHalfEdges h1 set_succ set_pred a b we
  = linkSide lk2 tempHalfEdges h2 set_succ set_pred a b we.
Proof.
  intros Hlk Hh. unfold linkSide. rewrite <-Hlk.
  destruct (lk1 !! dirKey a b) as [heId|]; [|done].
  destruct (tempHalfEdges !! heId) as [he|]; [|done]. simpl.
  by rewrite <-!Hh.
Qed.

Lemma wePassTwoStep_rel (lk1 : SM1 nat) (lk2 : SM2 nat)
    (tempHalfEdges : list TempHalfEdge) (h1 : NM1 nat) (h2 : NM2 nat)
    (st : list WingedEdgeData * list (VertexData num) * list FaceData)
    (i : nat) :
  same_lookups lk1 lk2 → same_lookups h1 h2 →
  wePassTwoStep lk1 tempHalfEdges h1 st i
  = wePassTwoStep lk2 tempHalfEdges h2 st i.
Proof.
  intros Hlk Hh. destruct st as [[wes vs] fs]. unfold wePassTwoStep.
  destruct (wes !! i) as [we|]; [|done]. simpl.
  rewrite (linkSide_rel lk1 lk2 _ h1 h2 set_succLeft) by done.
  destruct (linkSide lk2 _ h2 set_succLeft _ _ _ we) as [we1|]; [|done]. simpl.
  by rewrite (linkSide_rel lk1 lk2 _ h1 h2 set_succRight) by done.
Qed.

Lemma forEachM_ext {A S : Type} (f g : S → A → option S) (s : S)
    (l : list A) :
  (∀ s a, f s a = g s a) → forEachM f s l = forEachM g s l.
Proof.
  intros Hfg. revert s. induction l as [|a l IH]; intros s; simpl; [done|].
  rewrite Hfg. destruct (g s a); simpl; auto.
Qed.

(** C9.  Two runs on the same buffers return the same mesh, whatever
    map implementation each run uses for its lookup tables: nothing of
    the maps' internal order reaches the output. *)
Theorem analyzeGeometry_deterministic (geometry : BufferGeometry num) :
  analyzeGeometry (SM:=SM1) (NM:=NM1) geometry
  = analyzeGeometry (SM:=SM2) (NM:=NM2) geometry.
Proof.
  unfold analyzeGeometry.
  pose proof (mergeVertices_rel geometry) as Hm.
  destruct (mergeVertices (SM:=SM1) geometry) as [[pis vs] m1].
  destruct (mergeVertices (SM:=SM2) geometry) as [[pis' vs'] m2].
  destruct Hm as [[= <- <-] _].
  destruct (mapM (mkFace pis) _) as [faces|]; [|done].
  destruct (mapM (mkSoupTriangle vs pis) _) as [soup|]; [|done].
  cbn [mbind option_bind].
  pose proof (buildHeLookup_rel (buildTempHalfEdges faces)) as Hlk.
  assert (Hlinked : linkTwin (buildHeLookup (SM:=SM1) (buildTempHalfEdges faces))
                      <$> buildTempHalfEdges faces
                    = linkTwin (buildHeLookup (SM:=SM2) (buildTempHalfEdges faces))
                      <$> buildTempHalfEdges faces).
  { apply list_fmap_ext. intros _ he _. by apply linkTwin_rel. }
  rewrite <-Hlinked.
  destruct (forEachM heRefStep _ _) as [[vs1 fs1]|]; [|done].
  cbn [mbind option_bind].
  pose proof (forEachM_rel pass1_rel
    (wePassOneStep (SM:=SM1) (NM:=NM1)) (wePassOneStep (SM:=SM2) (NM:=NM2))
    (linkTwin (buildHeLookup (SM:=SM1) (buildTempHalfEdges faces))
       <$> buildTempHalfEdges faces)
    ([], ∅, ∅) ([], ∅, ∅) wePassOneStep_rel) as Hone.
  destruct Hone as [[[wes e1] h1] [[wes' e2] h2] ([= <-] & _ & Hh)|].
  { split_and!; [done|apply same_lookups_empty_s|apply same_lookups_empty_n]. }
  2: done.
  cbn [mbind option_bind]. simpl in Hh.
  rewrite (forEachM_ext _
    (wePassTwoStep (buildHeLookup (SM:=SM2) (buildTempHalfEdges faces))
       (linkTwin (buildHeLookup (SM:=SM1) (buildTempHalfEdges faces))
          <$> buildTempHalfEdges faces) h2)); [done|].
  intros st i. by apply wePassTwoStep_rel.
Qed.

End Determinism.

(** * Which inputs are accepted *)

Lemma updateAt_is_Some {A : Type} (f : A → A) (i : nat) (arr : list A) :
  i < length arr →
  ∃ arr', updateAt f i arr = Some arr' ∧ length arr' = length arr.
Proof.
  intros [a Ha]%lookup_lt_is_Some_2. unfold updateAt. rewrite Ha. simpl.
  eexists. split; [done|]. by rewrite length_insert.
Qed.

Lemma forEachM_is_Some {A S : Type} (I : S → Prop) (P : A → Prop)
    (f : S → A → option S) (l : list A) (s : S) :
  (∀ s a, I s → P a → ∃ s', f s a = Some s' ∧ I s') →
  I s → Forall P l →
  ∃ s', forEachM f s l = Some s' ∧ I s'.
Proof.
  intros Hstep. revert s. induction l as [|a l IH]; intros s Hs Hl.
  - exists s. by split.
  - apply Forall_cons in Hl as [Ha Hl].
    destruct (Hstep s a Hs Ha) as (s1 & Hs1 & HI). simpl. rewrite Hs1. simpl.
    by apply IH.
Qed.

(** Faces whose ids are their positions and whose corners are vertex
    ids below [nv]. *)
Definition faces_valid (nv : nat) (faces : list FaceData) : Prop :=
  faces_wf faces
  ∧ ∀ f, f ∈ faces → face_v1 f < nv ∧ face_v2 f < nv ∧ face_v3 f < nv.

Lemma heOf_bounds (nv : nat) (f : FaceData) (i : nat) :
  face_v1 f < nv ∧ face_v2 f < nv ∧ face_v3 f < nv →
  t_origin (heOf f i) < nv ∧ t_target (heOf f i) < nv.
Proof.
  intros (? & ? & ?). unfold heOf. cbn [t_origin t_target]. split.
  - by destruct i as [|[|i]].
  - by destruct ((i + 1) mod 3) as [|[|k]].
Qed.

Lemma tempHalfEdges_bounds (nv : nat) (faces : list FaceData) (j : nat)
    (he : TempHalfEdge) :
  faces_valid nv faces →
  buildTempHalfEdges faces !! j = Some he →
  t_id he = j ∧ t_origin he < nv ∧ t_target he < nv
  ∧ t_face he < length faces.
Proof.
  intros [Hwf Hb] Hhe.
  destruct (tempHalfEdges_lookup_wf _ _ _ Hwf Hhe)
    as (f & Hf & -> & Hid & Hface & _).
  split; [done|]. rewrite Hface.
  destruct (heOf_bounds nv f (j mod 3)) as [? ?].
  { apply Hb, list_elem_of_lookup. eauto. }
  split_and!; [done..|]. by eapply lookup_lt_Some.
Qed.

Section Totality.
Context {num : Type} `{JSNumber num}.
Context {SM : Type → Type}
  `{FMap SM, ∀ A, Lookup string A (SM A), ∀ A, Empty (SM A),
    ∀ A, PartialAlter string A (SM A), OMap SM, Merge SM,
    ∀ A, MapFold string A (SM A)} `{!FinMap string SM}.
Context {NM : Type → Type}
  `{FMap NM, ∀ A, Lookup nat A (NM A), ∀ A, Empty (NM A),
    ∀ A, PartialAlter nat A (NM A), OMap NM, Merge NM,
    ∀ A, MapFold nat A (NM A)} `{!FinMap nat NM}.

Lemma merged_bounds (geometry : BufferGeometry num) processedIndices
    (vertices : list (VertexData num)) (uniqueVertsMap : SM nat) :
  mergeVertices geometry = (processedIndices, vertices, uniqueVertsMap) →
  length processedIndices = length (bufferOffsets geometry)
  ∧ ∀ i id, processedIndices !! i = Some id → id < length vertices.
Proof.
  intros Hrun. pose proof (mergeVertices_inv (SM:=SM) geometry) as Hinv.
  rewrite Hrun in Hinv. destruct Hinv as (Hlen & Hkey & _ & Hbnd & _).
  split; [done|]. intros i id Hi.
  destruct (lookup_lt_is_Some_2 (bufferOffsets geometry) i) as [p Hp].
  { rewrite <-Hlen. by eapply lookup_lt_Some. }
  destruct (Hkey i p Hp) as (id' & ? & ?). simplify_eq. eauto.
Qed.

Lemma linked_bounds (nv : nat) (faces : list FaceData) (j : nat)
    (he : TempHalfEdge) :
  faces_valid nv faces →
  linkedHalfEdges (SM:=SM) faces !! j = Some he →
  t_id he = j ∧ t_origin he < nv ∧ t_target he < nv
  ∧ t_face he < length faces.
Proof.
  intros Hv. unfold linkedHalfEdges. rewrite list_lookup_fmap.
  destruct (buildTempHalfEdges faces !! j) as [te|] eqn:Hte; [|done].
  intros [= <-].
  destruct (linkTwin_fields (buildHeLookup (SM:=SM) (buildTempHalfEdges faces)) te)
    as (-> & -> & -> & -> & _).
  by eapply tempHalfEdges_bounds.
Qed.

Lemma wePassOneStep_is_Some (visited : list TempHalfEdge)
    (st : list WingedEdgeData * SM nat * NM nat) (he : TempHalfEdge) :
  pass1_inv visited st →
  is_Some (wePassOneStep (SM:=SM) (NM:=NM) st he).
Proof.
  destruct st as [[wes ekm] h2w]. intros Hinv. unfold wePassOneStep.
  fold (heKey he).
  pose proof (pass1_ensure _ _ _ _ h2w he Hinv) as Hens.
  destruct (match ekm !! heKey he with
            | None => _ | Some _ => _ end) as [wes1 ekm1].
  destruct Hens as (Hmap & _ & Hseen).
  destruct (Hseen he) as [weId Hid].
  { apply elem_of_app. right. by apply list_elem_of_singleton. }
  rewrite Hid. simpl.
  apply Hmap in Hid as (we & Hwe & _). rewrite Hwe. simpl. eauto.
Qed.

Lemma wePassOne_is_Some (tempHalfEdges : list TempHalfEdge) :
  is_Some (forEachM (wePassOneStep (SM:=SM) (NM:=NM)) ([], ∅, ∅)
                    tempHalfEdges).
Proof.
  induction tempHalfEdges as [|he l IH] using rev_ind; [by eexists|].
  rewrite forEachM_snoc. destruct IH as [st Hst]. rewrite Hst. simpl.
  eapply wePassOneStep_is_Some, pass1_inv_loop, Hst.
Qed.

(** The entries of the lookup are positions of the half-edge table. *)
Lemma linkSide_is_Some (faces : list FaceData) (heToWeMap : NM nat)
    (set_succ set_pred : Z → WingedEdgeData → WingedEdgeData) (a b : nat)
    (we : WingedEdgeData) :
  faces_wf faces →
  is_Some (linkSide (buildHeLookup (SM:=SM) (buildTempHalfEdges faces))
             (linkedHalfEdges (SM:=SM) faces) heToWeMap
             set_succ set_pred a b we).
Proof.
  intros Hwf. unfold linkSide.
  destruct (buildHeLookup (SM:=SM) (buildTempHalfEdges faces) !! dirKey a b)
    as [heId|] eqn:Hlk; [|by eexists].
  apply heLookup_Some in Hlk as (j & te & Hte & Hid & _).
  destruct (tempHalfEdges_lookup_wf _ _ _ Hwf Hte) as (_ & _ & _ & Hj & _).
  assert (heId = j) as -> by congruence.
  unfold linkedHalfEdges. rewrite list_lookup_fmap, Hte. simpl. by eexists.
Qed.

(** Bounds a record needs for the back-references of the second pass. *)
Definition edge_bounded (nv nf : nat) (we : WingedEdgeData) : Prop :=
  we_startVertex we < nv ∧ we_endVertex we < nv
  ∧ (we_faceLeft we = (-1)%Z ∨ (0 ≤ we_faceLeft we < Z.of_nat nf)%Z)
  ∧ (we_faceRight we = (-1)%Z ∨ (0 ≤ we_faceRight we < Z.of_nat nf)%Z).

Lemma faceRefStep_is_Some (weId : nat) (face : Z) (faces : list FaceData) :
  face = (-1)%Z ∨ (0 ≤ face < Z.of_nat (length faces))%Z →
  ∃ faces', faceRefStep weId face faces = Some faces'
            ∧ length faces' = length faces.
Proof.
  intros Hf. unfold faceRefStep. case_decide as Hne; [|by eexists].
  apply updateAt_is_Some. lia.
Qed.

Lemma wePassTwoStep_is_Some (nv : nat) (faces0 : list FaceData)
    (heToWeMap : NM nat) (wingedEdges : list WingedEdgeData)
    (vertices : list (VertexData num)) (faces : list FaceData) (i : nat) :
  faces_wf faces0 →
  length vertices = nv →
  (∀ j we, wingedEdges !! j = Some we → edge_bounded nv (length faces) we) →
  i < length wingedEdges →
  ∃ wingedEdges' vertices' faces',
    wePassTwoStep (buildHeLookup (SM:=SM) (buildTempHalfEdges faces0))
      (linkedHalfEdges (SM:=SM) faces0) heToWeMap
      (wingedEdges, vertices, faces) i
    = Some (wingedEdges', vertices', faces')
    ∧ length wingedEdges' = length wingedEdges
    ∧ length vertices' = nv ∧ length faces' = length faces
    ∧ ∀ j we, wingedEdges' !! j = Some we →
        edge_bounded nv (length faces) we.
Proof.
  intros Hwf Hnv Hb [we Hwe]%lookup_lt_is_Some_2.
  unfold wePassTwoStep. rewrite Hwe. simpl.
  destruct (linkSide_is_Some faces0 heToWeMap set_succLeft set_predLeft
              (we_startVertex we) (we_endVertex we) we Hwf) as [we1 Hl].
  rewrite Hl. simpl.
  destruct (linkSide_is_Some faces0 heToWeMap set_succRight set_predRight
              (we_endVertex we1) (we_startVertex we1) we1 Hwf) as [we2 Hr].
  rewrite Hr. simpl.
  apply linkSide_left in Hl as ((_ & _ & Hs1 & He1 & Hl1 & Hr1) & _).
  apply linkSide_right in Hr as ((_ & _ & Hs2 & He2 & Hl2 & Hr2) & _).
  destruct (Hb i we Hwe) as (Hs & He & Hfl & Hfr).
  assert (Hb2 : edge_bounded nv (length faces) we2).
  { unfold edge_bounded. by rewrite Hs2, He2, Hl2, Hr2, Hs1, He1, Hl1, Hr1. }
  pose proof Hb2 as (Hs' & He' & Hfl' & Hfr').
  destruct (updateAt_is_Some (set_vertex_incidentEdge (we_id we2))
              (we_startVertex we2) vertices) as (vs1 & -> & Hlen1); [lia|].
  simpl.
  destruct (updateAt_is_Some (set_vertex_incidentEdge (we_id we2))
              (we_endVertex we2) vs1) as (vs2 & -> & Hlen2); [lia|].
  simpl.
  destruct (faceRefStep_is_Some (we_id we2) (we_faceLeft we2) faces Hfl')
    as (fs1 & -> & Hlenf1).
  simpl. rewrite <-Hlenf1 in Hfr'.
  destruct (faceRefStep_is_Some (we_id we2) (we_faceRight we2) fs1 Hfr')
    as (fs2 & -> & Hlenf2).
  simpl. eexists _, _, _. split; [done|].
  rewrite length_insert. split_and!; [done|lia|lia|].
  intros j we' Hj. apply list_lookup_insert_Some in Hj.
  destruct Hj as [(<- & <- & _)|[_ Hj]]; [done|eauto].
Qed.

End Totality.

Lemma strides_bound (n i : nat) :
  n mod 3 = 0 → i ∈ strides n → i + 2 < n.
Proof.
  intros Hn [k Hk]%list_elem_of_lookup.
  pose proof (strides_lookup _ _ _ Hk) as ->.
  apply lookup_lt_Some in Hk. rewrite strides_length in Hk.
  pose proof (Nat.div_mod_eq n 3) as Hdiv. rewrite Hn in Hdiv.
  replace (n + 2) with (n / 3 * 3 + 2) in Hk by lia.
  rewrite div3_split in Hk by lia. lia.
Qed.

Lemma mkFace_is_Some (processedIndices : list nat) (i : nat) :
  i + 2 < length processedIndices → is_Some (mkFace processedIndices i).
Proof.
  intros Hi. unfold mkFace.
  destruct (lookup_lt_is_Some_2 processedIndices i) as [v1 ->]; [lia|].
  destruct (lookup_lt_is_Some_2 processedIndices (i + 1)) as [v2 ->]; [lia|].
  destruct (lookup_lt_is_Some_2 processedIndices (i + 2)) as [v3 ->]; [lia|].
  by eexists.
Qed.

Lemma mkSoupTriangle_is_Some {num : Type} (vertices : list (VertexData num))
    (processedIndices : list nat) (i : nat) :
  (∀ j id, processedIndices !! j = Some id → id < length vertices) →
  i + 2 < length processedIndices →
  is_Some (mkSoupTriangle vertices processedIndices i).
Proof.
  intros Hb Hi. unfold mkSoupTriangle.
  destruct (lookup_lt_is_Some_2 processedIndices i) as [a Ha]; [lia|].
  destruct (lookup_lt_is_Some_2 processedIndices (i + 1)) as [b Hb']; [lia|].
  destruct (lookup_lt_is_Some_2 processedIndices (i + 2)) as [c Hc]; [lia|].
  rewrite Ha, Hb', Hc. simpl.
  destruct (lookup_lt_is_Some_2 vertices a) as [va ->]; [eauto|].
  destruct (lookup_lt_is_Some_2 vertices b) as [vb ->]; [eauto|].
  destruct (lookup_lt_is_Some_2 vertices c) as [vc ->]; [eauto|].
  by eexists.
Qed.

Lemma mkFace_None (processedIndices : list nat) (i : nat) :
  length processedIndices ≤ i + 2 → mkFace processedIndices i = None.
Proof.
  intros Hi. unfold mkFace.
  destruct (processedIndices !! i) as [v1|]; [|done].
  destruct (processedIndices !! (i + 1)) as [v2|]; [|done].
  by rewrite (lookup_ge_None_2 processedIndices (i + 2)).
Qed.

Section Acceptance.
Context {num : Type} `{JSNumber num}.
Context {SM : Type → Type}
  `{FMap SM, ∀ A, Lookup string A (SM A), ∀ A, Empty (SM A),
    ∀ A, PartialAlter string A (SM A), OMap SM, Merge SM,
    ∀ A, MapFold string A (SM A)} `{!FinMap string SM}.
Context {NM : Type → Type}
  `{FMap NM, ∀ A, Lookup nat A (NM A), ∀ A, Empty (NM A),
    ∀ A, PartialAlter nat A (NM A), OMap NM, Merge NM,
    ∀ A, MapFold nat A (NM A)} `{!FinMap nat NM}.

Lemma pass1_edge_bounded (nv : nat) (faces : list FaceData) (i : nat)
    (we : WingedEdgeData) :
  faces_valid nv faces →
  we_ok (linkedHalfEdges (SM:=SM) faces) i we →
  edge_bounded nv (length faces) we.
Proof.
  intros Hv (_ & _ & _ & _ & _ & _ & _ & (he & Hin & Hkey) & Hl & Hr).
  assert (Hb : ∀ he', he' ∈ linkedHalfEdges (SM:=SM) faces →
             t_origin he' < nv ∧ t_target he' < nv
             ∧ t_face he' < length faces).
  { intros he' [j Hj]%list_elem_of_lookup.
    by destruct (linked_bounds nv faces j he' Hv Hj) as (_ & ? & ? & ?). }
  unfold edge_bounded. split_and!.
  - destruct (Hb he Hin) as (? & ? & _).
    apply getEdgeKey_inj in Hkey. lia.
  - destruct (Hb he Hin) as (? & ? & _).
    apply getEdgeKey_inj in Hkey. lia.
  - destruct Hl as [?|(he' & Hin' & _ & _ & ->)]; [by left|right].
    destruct (Hb he' Hin') as (_ & _ & ?). lia.
  - destruct Hr as [?|(he' & Hin' & _ & _ & _ & ->)]; [by left|right].
    destruct (Hb he' Hin') as (_ & _ & ?). lia.
Qed.

(** The function returns a mesh whenever the index stream splits into
    triangles. *)
Theorem analyzeGeometry_accepts (geometry : BufferGeometry num) :
  length (bufferOffsets geometry) mod 3 = 0 →
  is_Some (analyzeGeometry (SM:=SM) (NM:=NM) geometry).
Proof.
  intros Hn. unfold analyzeGeometry.
  destruct (mergeVertices (SM:=SM) geometry) as [[pis vs] um] eqn:Hmerge.
  apply merged_bounds in Hmerge as [Hlen Hids]. rewrite <-Hlen in Hn.
  destruct (mapM_is_Some_2 (mkFace pis) (strides (length pis)))
    as [faces Hfaces].
  { apply Forall_forall. intros i Hi.
    apply mkFace_is_Some, strides_bound; done. }
  destruct (mapM_is_Some_2 (mkSoupTriangle vs pis) (strides (length pis)))
    as [soup Hsoup].
  { apply Forall_forall. intros i Hi.
    apply mkSoupTriangle_is_Some; [done|]. by apply strides_bound. }
  rewrite Hfaces, Hsoup. simpl.
  fold (linkedHalfEdges (SM:=SM) faces). fold (halfEdgesOf (SM:=SM) faces).
  assert (Hv : faces_valid (length vs) faces).
  { split.
    - intros k f Hf. by destruct (faces_lookup _ _ _ _ Hfaces Hf).
    - intros f [k Hf]%list_elem_of_lookup.
      destruct (faces_lookup _ _ _ _ Hfaces Hf) as (_ & ? & ? & ?).
      split_and!; eauto. }
  destruct (forEachM_is_Some
    (λ st : list (VertexData num) * list FaceData,
       length st.1 = length vs ∧ length st.2 = length faces)
    (λ h, he_originVertex h < length vs ∧ he_face h < length faces)
    heRefStep (halfEdgesOf (SM:=SM) faces) (vs, faces))
    as ([vs1 fs1] & -> & Hvs1 & Hfs1); [|done|..].
  { intros [vs' fs'] h [Hl1 Hl2] [Ho Hf]. simpl in *. unfold heRefStep.
    destruct (updateAt_is_Some (set_vertex_incidentHalfEdge (he_id h))
                (he_originVertex h) vs') as (vs'' & -> & ?); [lia|].
    simpl.
    destruct (updateAt_is_Some (set_face_incidentHalfEdge (he_id h))
                (he_face h) fs') as (fs'' & -> & ?); [lia|].
    simpl. eexists. split; [done|]. simpl. lia. }
  { apply Forall_forall. intros h [j Hh]%list_elem_of_lookup.
    apply halfEdgesOf_lookup in Hh as (te & Hte & _ & -> & _ & -> & _).
    by destruct (tempHalfEdges_bounds _ _ _ _ Hv Hte) as (_ & ? & _ & ?). }
  simpl in Hvs1, Hfs1. simpl.
  destruct (wePassOne_is_Some (SM:=SM) (NM:=NM) (linkedHalfEdges (SM:=SM) faces))
    as [[[wes ekm] h2w] Hone].
  rewrite Hone. simpl.
  apply pass1_inv_loop in Hone as (_ & Hok & _).
  destruct (forEachM_is_Some
    (λ st : list WingedEdgeData * list (VertexData num) * list FaceData,
       length st.1.1 = length wes ∧ length st.1.2 = length vs
       ∧ length st.2 = length faces
       ∧ ∀ j we, st.1.1 !! j = Some we →
           edge_bounded (length vs) (length faces) we)
    (λ i, i < length wes)
    (wePassTwoStep (buildHeLookup (SM:=SM) (buildTempHalfEdges faces))
                   (linkedHalfEdges (SM:=SM) faces) h2w)
    (seq 0 (length wes)) (wes, vs1, fs1))
    as ([[wes' vs2] fs2] & -> & _).
  - intros [[wes0 vs0] fs0] i (Hl1 & Hl2 & Hl3 & Hb) Hi.
    cbn [fst snd] in Hl1, Hl2, Hl3, Hb.
    destruct (wePassTwoStep_is_Some (SM:=SM) (NM:=NM) (length vs) faces h2w
                wes0 vs0 fs0 i) as (w' & v' & f' & -> & ? & ? & ? & Hb');
      [apply Hv|done| |lia|].
    + intros j we Hj. rewrite Hl3. eauto.
    + eexists. split; [done|]. cbn [fst snd]. split_and!; try lia.
      intros j we Hj. rewrite <-Hl3. eauto.
  - cbn [fst snd]. split_and!; [done..|]. intros j we Hj.
    eapply pass1_edge_bounded; eauto.
  - apply Forall_forall. intros i [_ ?]%elem_of_seq. lia.
  - simpl. by eexists.
Qed.

(** An index stream whose length is not a multiple of three makes the
    soup loop throw. *)
Theorem analyzeGeometry_rejects (geometry : BufferGeometry num) :
  length (bufferOffsets geometry) mod 3 ≠ 0 →
  analyzeGeometry (SM:=SM) (NM:=NM) geometry = None.
Proof.
  intros Hn. unfold analyzeGeometry.
  destruct (mergeVertices (SM:=SM) geometry) as [[pis vs] um] eqn:Hmerge.
  apply merged_bounds in Hmerge as [Hlen _]. rewrite <-Hlen in Hn.
  assert (mapM (mkFace pis) (strides (length pis)) = None) as ->; [|done].
  apply mapM_None_2, Exists_exists.
  pose proof (Nat.div_mod_eq (length pis) 3) as Hdiv.
  pose proof (Nat.mod_upper_bound (length pis) 3) as Hlt.
  exists (length pis / 3 * 3). split.
  - apply list_elem_of_lookup. exists (length pis / 3). unfold strides.
    rewrite list_lookup_fmap, lookup_seq_lt; [done|].
    replace (length pis + 2)
      with (length pis / 3 * 3 + (length pis mod 3 + 2)) by lia.
    destruct (length pis mod 3) as [|[|[|k]]] eqn:Hmod; try lia.
    + replace (length pis / 3 * 3 + (1 + 2))
        with ((length pis / 3 + 1) * 3 + 0) by lia.
      rewrite div3_split by lia. lia.
    + replace (length pis / 3 * 3 + (2 + 2))
        with ((length pis / 3 + 1) * 3 + 1) by lia.
      rewrite div3_split by lia. lia.
  - apply mkFace_None. lia.
Qed.

End Acceptance.

(** * Concrete meshes *)

(** The first stage on integer coordinates. *)
Definition merged (geometry : BufferGeometry intnum)
    : list nat * list (VertexData intnum) * gmap string nat :=
  mergeVertices (SM:=gmap string) geometry.

(** The meshes the engine returns for the sample buffers. *)
Definition emptyMesh : ProcessedMesh intnum := mkMesh intnum [] [] [] [] [].
Definition triangle_mesh : ProcessedMesh intnum :=
  Eval vm_compute in default emptyMesh (analyze triangle).
Definition quad_mesh : ProcessedMesh intnum :=
  Eval vm_compute in default emptyMesh (analyze quad).
Definition sliver_mesh : ProcessedMesh intnum :=
  Eval vm_compute in default emptyMesh (analyze sliver).
Definition collapsed_mesh : ProcessedMesh intnum :=
  Eval vm_compute in default emptyMesh (analyze collapsed).
Definition fan_mesh : ProcessedMesh intnum :=
  Eval vm_compute in default emptyMesh (analyze fan).

Ltac run := vm_compute; reflexivity.
Ltac at_position k := apply list_elem_of_lookup; exists k; reflexivity.

Lemma analyze_triangle : analyze triangle = Some triangle_mesh.
Proof. run. Qed.
Lemma analyze_quad : analyze quad = Some quad_mesh.
Proof. run. Qed.
Lemma analyze_sliver : analyze sliver = Some sliver_mesh.
Proof. run. Qed.
Lemma analyze_collapsed : analyze collapsed = Some collapsed_mesh.
Proof. run. Qed.
Lemma analyze_fan : analyze fan = Some fan_mesh.
Proof. run. Qed.

(** In [folded] the positions at offsets 0 and 6 coincide and both get
    vertex id 0. *)
Lemma dedup_correct_witness :
  (roundedAt (geo_positions folded) 0 = roundedAt (geo_positions folded) 6
     → 0 = 0)
  ∧ (roundedAt (geo_positions folded) 0 ≠ roundedAt (geo_positions folded) 6
       → 0 ≠ 0).
Proof.
  apply (dedup_correct (SM:=gmap string) folded (merged folded).1.1
           (merged folded).1.2 (merged folded).2 0 2 0 6 0 0); run.
Defined.

(** In [fan] the pair [0 → 1] occurs in faces 0 and 1.  Half-edge 0 gets
    twin 6, whose twin is 3. *)
Lemma twin_symmetry_fails :
  ∃ h h',
    analyze fan = Some fan_mesh
    ∧ mesh_halfEdges fan_mesh !! 0 = Some h ∧ he_id h = 0
    ∧ he_twin h = Some 6
    ∧ mesh_halfEdges fan_mesh !! 6 = Some h'
    ∧ he_twin h' ≠ Some (he_id h).
Proof.
  eexists _, _. split; [exact analyze_fan|]. by split_and!.
Qed.

Lemma twin_symmetry_last_witness :
  ∃ h t,
    mesh_halfEdges quad_mesh !! 1 = Some h ∧ he_twin h = Some t
    ∧ (∃ h' t', mesh_halfEdges quad_mesh !! t = Some h'
                ∧ he_twin h' = Some t'
                ∧ lastWithPair (mesh_halfEdges quad_mesh)
                    (he_originVertex h) (he_targetVertex h) t')
    ∧ ((∃ h', mesh_halfEdges quad_mesh !! t = Some h'
              ∧ he_twin h' = Some (he_id h))
       ↔ (∀ g, g ∈ mesh_halfEdges quad_mesh →
            he_originVertex g = he_originVertex h →
            he_targetVertex g = he_targetVertex h → he_id g ≤ he_id h)).
Proof.
  eexists _, _. split; [reflexivity|]. split; [reflexivity|].
  apply (twin_symmetry_last (SM:=gmap string) (NM:=gmap nat) quad);
    [exact analyze_quad|at_position 1|reflexivity].
Defined.

Lemma halfedge_closure_witness :
  ∃ h,
    mesh_halfEdges quad_mesh !! 4 = Some h
    ∧ mesh_halfEdges quad_mesh !! he_id h = Some h
    ∧ faceOf (mesh_halfEdges quad_mesh) (he_next h) = Some (he_face h)
    ∧ faceOf (mesh_halfEdges quad_mesh) (he_prev h) = Some (he_face h)
    ∧ (nextOf (mesh_halfEdges quad_mesh) (he_id h)
         ≫= nextOf (mesh_halfEdges quad_mesh))
        ≫= nextOf (mesh_halfEdges quad_mesh) = Some (he_id h)
    ∧ prevOf (mesh_halfEdges quad_mesh) (he_id h)
        ≫= nextOf (mesh_halfEdges quad_mesh) = Some (he_id h)
    ∧ nextOf (mesh_halfEdges quad_mesh) (he_id h)
        ≫= prevOf (mesh_halfEdges quad_mesh) = Some (he_id h).
Proof.
  eexists. split; [reflexivity|].
  apply (halfedge_closure (SM:=gmap string) (NM:=gmap nat) quad);
    [exact analyze_quad|at_position 4].
Defined.

(** The shared edge [{1,2}] of [quad] has a face on either side. *)
Lemma left_right_faces_witness :
  ∃ we,
    mesh_edges quad_mesh !! 1 = Some we
    ∧ (we_faceLeft we ≠ (-1)%Z →
       ∃ h, h ∈ mesh_halfEdges quad_mesh
            ∧ he_originVertex h = we_startVertex we
            ∧ he_targetVertex h = we_endVertex we
            ∧ Z.of_nat (he_face h) = we_faceLeft we)
    ∧ (we_faceRight we ≠ (-1)%Z →
       ∃ h, h ∈ mesh_halfEdges quad_mesh
            ∧ he_originVertex h = we_endVertex we
            ∧ he_targetVertex h = we_startVertex we
            ∧ Z.of_nat (he_face h) = we_faceRight we).
Proof.
  eexists. split; [reflexivity|].
  apply (left_right_faces (SM:=gmap string) (NM:=gmap nat) quad);
    [exact analyze_quad|at_position 1].
Defined.

(** One triangle: three records for three half-edges. *)
Lemma edge_count_exceeds_half :
  analyze triangle = Some triangle_mesh
  ∧ length (mesh_edges triangle_mesh) = 3
  ∧ length (mesh_halfEdges triangle_mesh) = 3
  ∧ ¬ (2 * length (mesh_edges triangle_mesh)
       ≤ length (mesh_halfEdges triangle_mesh)).
Proof.
  split; [exact analyze_triangle|]. split_and!; [done..|]. vm_compute. lia.
Qed.

(** [quad]: five records, six half-edges, four of them without twin. *)
Lemma edge_count_formula_witness :
  NoDup (hePair <$> mesh_halfEdges quad_mesh)
  ∧ length (mesh_edges quad_mesh) ≤ length (mesh_halfEdges quad_mesh)
  ∧ 2 * length (mesh_edges quad_mesh)
    = length (mesh_halfEdges quad_mesh)
      + length (filter (λ h, he_twin h = None) (mesh_halfEdges quad_mesh))
      + length (filter (λ h, he_originVertex h = he_targetVertex h)
                       (mesh_halfEdges quad_mesh)).
Proof.
  assert (Hnd : NoDup (hePair <$> mesh_halfEdges quad_mesh)).
  { apply (bool_decide_unpack _). vm_compute. exact I. }
  split; [exact Hnd|].
  destruct (edge_count_formula (SM:=gmap string) (NM:=gmap nat) quad quad_mesh)
    as [Hle Heq]; [exact analyze_quad|].
  split; [exact Hle|exact (Heq Hnd)].
Defined.

(** [collapsed] has the single record [0 — 0]: its endpoints are equal. *)
Lemma canonical_orientation_fails :
  ∃ we,
    analyze collapsed = Some collapsed_mesh
    ∧ mesh_edges collapsed_mesh !! 0 = Some we
    ∧ we_startVertex we = 0 ∧ we_endVertex we = 0
    ∧ ¬ (we_startVertex we < we_endVertex we).
Proof.
  eexists. split; [exact analyze_collapsed|]. split; [reflexivity|].
  split_and!; [done..|].
  vm_compute. lia.
Qed.

Lemma canonical_orientation_witness :
  ∃ we,
    mesh_edges sliver_mesh !! 1 = Some we
    ∧ we_startVertex we ≤ we_endVertex we
    ∧ (∃ h, h ∈ mesh_halfEdges sliver_mesh
            ∧ we_startVertex we = he_originVertex h `min` he_targetVertex h
            ∧ we_endVertex we = he_originVertex h `max` he_targetVertex h)
    ∧ ((∀ h, h ∈ mesh_halfEdges sliver_mesh →
          he_originVertex h ≠ he_targetVertex h)
       → we_startVertex we < we_endVertex we).
Proof.
  eexists. split; [reflexivity|].
  apply (canonical_orientation (SM:=gmap string) (NM:=gmap nat) sliver);
    [exact analyze_sliver|at_position 1].
Defined.

(** In [sliver] the half-edge [0 → 0] alone has the key of record 0 and
    runs from its start to its end, yet the right-hand neighbours of the
    record are set. *)
Lemma boundary_side_fails :
  ∃ we h,
    analyze sliver = Some sliver_mesh
    ∧ mesh_edges sliver_mesh !! 0 = Some we
    ∧ mesh_halfEdges sliver_mesh !! 0 = Some h
    ∧ he_originVertex h = we_startVertex we
    ∧ he_targetVertex h = we_endVertex we
    ∧ (∀ g, g ∈ mesh_halfEdges sliver_mesh →
         getEdgeKey (he_originVertex g) (he_targetVertex g) = weKey we →
         g = h)
    ∧ we_faceRight we = (-1)%Z
    ∧ we_predRight we = 1%Z ∧ we_succRight we = 1%Z.
Proof.
  eexists _, _. split; [exact analyze_sliver|]. do 4 (split; [reflexivity|]).
  split; [|by split_and!].
  intros g Hg Hk. repeat (apply elem_of_cons in Hg as [->|Hg]); try done.
  by apply elem_of_nil in Hg.
Qed.

(** The edge [0 — 1] of the single triangle: its one half-edge runs from
    start to end, and the right side is empty. *)
Lemma boundary_side_empty_witness :
  ∃ we h,
    mesh_edges triangle_mesh !! 0 = Some we
    ∧ mesh_halfEdges triangle_mesh !! 0 = Some h
    ∧ (he_originVertex h = we_startVertex we →
       we_faceRight we = (-1)%Z
       ∧ we_predRight we = (-1)%Z ∧ we_succRight we = (-1)%Z)
    ∧ (he_originVertex h = we_endVertex we →
       we_faceLeft we = (-1)%Z
       ∧ we_predLeft we = (-1)%Z ∧ we_succLeft we = (-1)%Z).
Proof.
  eexists _, _. do 2 (split; [reflexivity|]).
  apply (boundary_side_empty (SM:=gmap string) (NM:=gmap nat) triangle
           triangle_mesh);
    [exact analyze_triangle|at_position 0|at_position 0|reflexivity| |done].
  intros g Hg Hk. repeat (apply elem_of_cons in Hg as [->|Hg]); try done.
  by apply elem_of_nil in Hg.
Defined.

Lemma createdStep_absent_witness :
  ∃ we, mesh_edges quad_mesh !! 3 = Some we ∧ we_createdStep we = None.
Proof.
  eexists. split; [reflexivity|].
  apply (createdStep_absent (SM:=gmap string) (NM:=gmap nat) quad quad_mesh);
    [exact analyze_quad|at_position 3].
Defined.

(** A run with [gmap] for both maps against one with [natmap] for the
    number-keyed map. *)
Lemma analyzeGeometry_deterministic_witness :
  analyzeGeometry (SM:=gmap string) (NM:=gmap nat) quad
  = analyzeGeometry (SM:=gmap string) (NM:=natmap) quad.
Proof.
  apply (analyzeGeometry_deterministic
           (SM1:=gmap string) (NM1:=gmap nat) (SM2:=gmap string) (NM2:=natmap)).
Defined.

(** In [collapsed] all three half-edges run [0 → 0]; the first one is
    linked to the last, not to itself. *)
Lemma degenerate_twin_fails :
  ∃ h,
    analyze collapsed = Some collapsed_mesh
    ∧ mesh_halfEdges collapsed_mesh !! 0 = Some h ∧ he_id h = 0
    ∧ he_originVertex h = he_targetVertex h
    ∧ he_twin h = Some 2 ∧ he_twin h ≠ Some (he_id h).
Proof.
  eexists. split; [exact analyze_collapsed|]. by split_and!.
Qed.

(** In [sliver] the half-edge [0 → 0] is the only one with its pair and
    is its own twin. *)
Lemma degenerate_twin_last_witness :
  ∃ h t g,
    mesh_halfEdges sliver_mesh !! 0 = Some h
    ∧ he_twin h = Some t
    ∧ mesh_halfEdges sliver_mesh !! t = Some g
    ∧ he_id g = t
    ∧ he_originVertex g = he_originVertex h
    ∧ he_targetVertex g = he_targetVertex h
    ∧ (∀ g', g' ∈ mesh_halfEdges sliver_mesh →
         he_originVertex g' = he_originVertex h →
         he_targetVertex g' = he_targetVertex h → he_id g' ≤ t)
    ∧ lastWithPair (mesh_halfEdges sliver_mesh)
        (he_originVertex h) (he_targetVertex h) t
    ∧ he_id h ≤ t
    ∧ (t = he_id h
       ↔ ∀ g', g' ∈ mesh_halfEdges sliver_mesh →
           he_originVertex g' = he_originVertex h →
           he_targetVertex g' = he_targetVertex h → he_id g' ≤ he_id h).
Proof.
  destruct (degenerate_twin_last (SM:=gmap string) (NM:=gmap nat) sliver
              sliver_mesh (mkHalfEdge 0 0 0 0 (Some 0) 1 2))
    as (t & g & Htw & Hg & Hid & Ho & Ht & Hmax & Hlast & Hle & Hiff);
    [exact analyze_sliver|at_position 0|done|].
  exists (mkHalfEdge 0 0 0 0 (Some 0) 1 2), t, g. by split_and!.
Defined.

(** * Last writers *)

(** The last element of a list that satisfies [P]: the writer whose
    assignment survives a loop of conditional assignments. *)
Definition lastWhere {A : Type} (P : A → Prop) `{!∀ x, Decision (P x)}
    (l : list A) : option A :=
  last (filter P l).

(** The field left by the last writer, if there was one. *)
Definition stamp {A B : Type} (set : B → A → A) (o : option B) (a : A) : A :=
  match o with
  | Some b => set b a
  | None => a
  end.

Section LastWhere.
Context {A : Type} (P : A → Prop) `{!∀ x, Decision (P x)}.

Lemma lastWhere_snoc (l : list A) (x : A) :
  lastWhere P (l ++ [x]) = if decide (P x) then Some x else lastWhere P l.
Proof.
  unfold lastWhere. rewrite filter_app, filter_cons, filter_nil.
  case_decide; [apply last_snoc|by rewrite app_nil_r].
Qed.

Lemma lastWhere_Some (l : list A) (x : A) :
  lastWhere P l = Some x →
  P x ∧ ∃ i, l !! i = Some x
             ∧ ∀ j y, l !! j = Some y → P y → j ≤ i.
Proof.
  induction l as [|y l IH] using rev_ind; [done|].
  rewrite lastWhere_snoc. case_decide as Hy.
  - intros [= <-]. split; [done|]. exists (length l).
    split; [by rewrite list_lookup_middle|].
    intros j z Hj _. apply lookup_lt_Some in Hj.
    rewrite length_app in Hj. simpl in Hj. lia.
  - intros (Hx & i & Hi & Hmax)%IH. split; [done|]. exists i. split.
    + rewrite lookup_app_l; [done|]. by eapply lookup_lt_Some.
    + intros j z [[_ Hj]|[-> <-]]%lookup_snoc_Some Hz; [eauto|done].
Qed.

Lemma lastWhere_None (l : list A) :
  lastWhere P l = None ↔ ∀ x, x ∈ l → ¬ P x.
Proof.
  unfold lastWhere. rewrite last_None. split.
  - intros Hnil x Hx HP.
    assert (x ∈ filter P l) as Hin by (by apply list_elem_of_filter).
    rewrite Hnil in Hin. by apply elem_of_nil in Hin.
  - intros Hno. destruct (filter P l) as [|x l'] eqn:Hf; [done|].
    assert (x ∈ filter P l) as [HP Hx]%list_elem_of_filter
      by (rewrite Hf; by left).
    by destruct (Hno x Hx).
Qed.

Lemma lastWhere_is_Some (l : list A) (x : A) :
  x ∈ l → P x → is_Some (lastWhere P l).
Proof.
  intros Hx HP. destruct (lastWhere P l) eqn:Hl; [eauto|].
  by destruct (proj1 (lastWhere_None l) Hl x Hx).
Qed.

End LastWhere.

Lemma lastWhere_ext_in {A : Type} (P Q : A → Prop)
    `{!∀ x, Decision (P x), !∀ x, Decision (Q x)} (l : list A) :
  (∀ x, x ∈ l → P x ↔ Q x) → lastWhere P l = lastWhere Q l.
Proof.
  induction l as [|x l IH] using rev_ind; intros Hiff; [done|].
  rewrite !lastWhere_snoc.
  assert (lastWhere P l = lastWhere Q l) as ->.
  { apply IH. intros y Hy. apply Hiff, elem_of_app. by left. }
  assert (P x ↔ Q x) as Hx.
  { apply Hiff, elem_of_app. right. by apply list_elem_of_singleton. }
  repeat case_decide; tauto.
Qed.

Lemma updateAt_lookup {A : Type} (f : A → A) (i : nat) (arr arr' : list A)
    (a : nat) :
  updateAt f i arr = Some arr' →
  arr' !! a = if decide (a = i) then f <$> arr !! a else arr !! a.
Proof.
  unfold updateAt. destruct (arr !! i) as [x|] eqn:Hi; [|done].
  intros [= <-]. case_decide as Ha.
  - subst a. rewrite list_lookup_insert_eq, Hi; [done|].
    by eapply lookup_lt_Some.
  - by rewrite list_lookup_insert_ne.
Qed.

(** * Order of discovery *)

(** Ids are handed out in the order in which the index stream first
    needs them: an id occurs only after every smaller id, and each of
    the [nv] vertices is used. *)
Definition discovery_order (processedIndices : list nat) (nv : nat) : Prop :=
  (∀ b, b < nv → ∃ j, processedIndices !! j = Some b)
  ∧ (∀ i a, processedIndices !! i = Some a →
       a < nv ∧ ∀ b, b < a → ∃ j, j < i ∧ processedIndices !! j = Some b).

Section Discovery.
Context {num : Type} `{JSNumber num}.
Context {SM : Type → Type}
  `{FMap SM, ∀ A, Lookup string A (SM A), ∀ A, Empty (SM A),
    ∀ A, PartialAlter string A (SM A), OMap SM, Merge SM,
    ∀ A, MapFold string A (SM A)} `{!FinMap string SM}.

Definition merge_order (st : list nat * list (VertexData num) * SM nat)
    : Prop :=
  discovery_order st.1.1 (length st.1.2).

Lemma merge_order_step (positions : list num) (visited : list nat)
    (st : list nat * list (VertexData num) * SM nat) (p : nat) :
  merge_inv positions visited st → merge_order st →
  merge_order (mergeStep positions st p).
Proof.
  destruct st as [[pis vs] m]. intros (_ & _ & _ & Hbnd & _) [Hall Hord].
  unfold merge_order, discovery_order in *. cbn [fst snd] in *.
  unfold mergeStep, getOrAddVertex. fold (keyAt positions p).
  assert (Hold : ∀ b, b < length vs →
            ∃ j, j < length pis ∧ (pis ++ [b]) !! j = Some b
                 ∧ ∀ x, (pis ++ [x]) !! j = Some b).
  { intros b Hb. destruct (Hall b Hb) as [j Hj]. exists j.
    pose proof (lookup_lt_Some _ _ _ Hj).
    split; [done|]. split; [|intros x]; by rewrite lookup_app_l. }
  destruct (m !! keyAt positions p) as [id|] eqn:Hm; cbn [fst snd]; split.
  - intros b Hb. destruct (Hold b Hb) as (j & _ & _ & Hj). eauto.
  - intros i a [[Hi Ha]|[-> <-]]%lookup_snoc_Some.
    + destruct (Hord i a Ha) as [? Hsm]. split; [done|].
      intros b Hb. destruct (Hsm b Hb) as (j & ? & Hj). exists j.
      split; [done|]. rewrite lookup_app_l; [done|lia].
    + pose proof (Hbnd _ _ Hm). split; [done|]. intros b Hb.
      destruct (Hold b) as (j & ? & _ & Hj); [lia|]. eauto.
  - rewrite length_app. simpl. intros b Hb.
    destruct (decide (b = length vs)) as [->|Hne].
    + exists (length pis). by rewrite list_lookup_middle.
    + destruct (Hold b) as (j & _ & _ & Hj); [lia|]. eauto.
  - rewrite length_app. simpl.
    intros i a [[Hi Ha]|[-> <-]]%lookup_snoc_Some.
    + destruct (Hord i a Ha) as [? Hsm]. split; [lia|].
      intros b Hb. destruct (Hsm b Hb) as (j & ? & Hj). exists j.
      split; [done|]. rewrite lookup_app_l; [done|lia].
    + split; [lia|]. intros b Hb.
      destruct (Hold b) as (j & ? & _ & Hj); [lia|]. eauto.
Qed.

Lemma merge_order_foldl (positions : list num) (visited ps : list nat)
    (st : list nat * list (VertexData num) * SM nat) :
  merge_inv positions visited st → merge_order st →
  merge_order (foldl (mergeStep positions) st ps).
Proof.
  revert visited st. induction ps as [|p ps IH]; intros visited st Hinv Ho;
    [done|].
  simpl. apply (IH (visited ++ [p])).
  - by apply merge_inv_step.
  - by eapply merge_order_step.
Qed.

Lemma mergeVertices_order (geometry : BufferGeometry num)
    (processedIndices : list nat) (vertices : list (VertexData num))
    (uniqueVertsMap : SM nat) :
  mergeVertices geometry = (processedIndices, vertices, uniqueVertsMap) →
  discovery_order processedIndices (length vertices).
Proof.
  intros Hrun.
  pose proof (merge_order_foldl (geo_positions geometry) []
                (bufferOffsets geometry) ([], [], ∅)
                (merge_inv_init _)) as Ho.
  fold (mergeVertices (SM:=SM) geometry) in Ho. rewrite Hrun in Ho.
  apply Ho. split; [|intros i a Hi]; [intros b Hb|]; simpl in *; [lia|done].
Qed.

End Discovery.

(** * The back-references *)

Lemma set_vertex_incidentHalfEdge_stamp {num : Type} (h : nat)
    (o : option nat) (v : VertexData num) :
  set_vertex_incidentHalfEdge h (stamp set_vertex_incidentHalfEdge o v)
  = set_vertex_incidentHalfEdge h v.
Proof. by destruct o. Qed.

Lemma set_face_incidentHalfEdge_stamp (h : nat) (o : option nat)
    (f : FaceData) :
  set_face_incidentHalfEdge h (stamp set_face_incidentHalfEdge o f)
  = set_face_incidentHalfEdge h f.
Proof. by destruct o. Qed.

Lemma set_vertex_incidentEdge_stamp {num : Type} (e : nat) (o : option nat)
    (v : VertexData num) :
  set_vertex_incidentEdge e (stamp set_vertex_incidentEdge o v)
  = set_vertex_incidentEdge e v.
Proof. by destruct o. Qed.

Lemma set_vertex_incidentEdge_twice {num : Type} (e e' : nat)
    (v : VertexData num) :
  set_vertex_incidentEdge e (set_vertex_incidentEdge e' v)
  = set_vertex_incidentEdge e v.
Proof. done. Qed.

Lemma set_face_incidentEdge_twice (e e' : nat) (f : FaceData) :
  set_face_incidentEdge e (set_face_incidentEdge e' f)
  = set_face_incidentEdge e f.
Proof. done. Qed.

Lemma set_face_incidentEdge_stamp (e : nat) (o : option nat) (f : FaceData) :
  set_face_incidentEdge e (stamp set_face_incidentEdge o f)
  = set_face_incidentEdge e f.
Proof. by destruct o. Qed.

(** After the loop over the half-edges, every vertex carries the id of
    the last half-edge that leaves it and every face the id of its last
    half-edge. *)
Lemma heRef_loop {num : Type} (halfEdges : list HalfEdgeData)
    (vertices vertices' : list (VertexData num))
    (faces faces' : list FaceData) :
  forEachM heRefStep (vertices, faces) halfEdges = Some (vertices', faces') →
  (∀ a, vertices' !! a
        = stamp set_vertex_incidentHalfEdge
            (he_id <$> lastWhere (λ h, he_originVertex h = a) halfEdges)
          <$> vertices !! a)
  ∧ (∀ k, faces' !! k
          = stamp set_face_incidentHalfEdge
              (he_id <$> lastWhere (λ h, he_face h = k) halfEdges)
            <$> faces !! k).
Proof.
  revert vertices' faces'.
  induction halfEdges as [|h l IH] using rev_ind; intros vs' fs'.
  - intros [= <- <-]. split; intros a; simpl.
    + by destruct (vertices !! a).
    + by destruct (faces !! a).
  - rewrite forEachM_snoc.
    destruct (forEachM heRefStep (vertices, faces) l) as [[vs0 fs0]|];
      [|done].
    destruct (IH vs0 fs0 eq_refl) as [Hv Hf]. simpl. unfold heRefStep.
    destruct (updateAt _ _ vs0) as [vs1|] eqn:Hvs; [|done]. simpl.
    destruct (updateAt _ _ fs0) as [fs1|] eqn:Hfs; [|done]. simpl.
    intros [= <- <-]. split.
    + intros a. rewrite (updateAt_lookup _ _ _ _ a Hvs), Hv, lastWhere_snoc.
      repeat case_decide; try done; simplify_eq.
      destruct (vertices !! he_originVertex h); [|done]. simpl.
      by rewrite set_vertex_incidentHalfEdge_stamp.
    + intros k. rewrite (updateAt_lookup _ _ _ _ k Hfs), Hf, lastWhere_snoc.
      repeat case_decide; try done; simplify_eq.
      destruct (faces !! he_face h); [|done]. simpl.
      by rewrite set_face_incidentHalfEdge_stamp.
Qed.

Lemma faceRefStep_lookup (weId : nat) (face : Z) (faces faces' : list FaceData)
    (k : nat) :
  face = (-1)%Z ∨ (0 ≤ face)%Z →
  faceRefStep weId face faces = Some faces' →
  faces' !! k
  = if decide (face = Z.of_nat k)
    then set_face_incidentEdge weId <$> faces !! k else faces !! k.
Proof.
  intros Hf. unfold faceRefStep. case_decide as Hne.
  - intros Hup. rewrite (updateAt_lookup _ _ _ _ k Hup).
    repeat case_decide; try done; lia.
  - intros [= <-]. rewrite decide_False; [done|lia].
Qed.

(** An edge record has the vertex [a] as an endpoint; it has the face
    [k] on one of its sides. *)
Definition touches (a : nat) (we : WingedEdgeData) : Prop :=
  we_startVertex we = a ∨ we_endVertex we = a.
Definition borders (k : nat) (we : WingedEdgeData) : Prop :=
  we_faceLeft we = Z.of_nat k ∨ we_faceRight we = Z.of_nat k.

Section PassTwoFull.
Context {num : Type}.
Context {SM : Type → Type}
  `{FMap SM, ∀ A, Lookup string A (SM A), ∀ A, Empty (SM A),
    ∀ A, PartialAlter string A (SM A), OMap SM, Merge SM,
    ∀ A, MapFold string A (SM A)} `{!FinMap string SM}.
Context {NM : Type → Type}
  `{FMap NM, ∀ A, Lookup nat A (NM A), ∀ A, Empty (NM A),
    ∀ A, PartialAlter nat A (NM A), OMap NM, Merge NM,
    ∀ A, MapFold nat A (NM A)} `{!FinMap nat NM}.
Implicit Types (heLookup : SM nat) (heToWeMap : NM nat).
Implicit Types (tempHalfEdges : list TempHalfEdge).
Implicit Types (we : WingedEdgeData) (wingedEdges : list WingedEdgeData).

(** Both sides of a record linked, as the loop body does it. *)
Definition linkBoth heLookup tempHalfEdges heToWeMap we
    : option WingedEdgeData :=
  we1 ← linkSide heLookup tempHalfEdges heToWeMap set_succLeft set_predLeft
         (we_startVertex we) (we_endVertex we) we;
  linkSide heLookup tempHalfEdges heToWeMap set_succRight set_predRight
    (we_endVertex we1) (we_startVertex we1) we1.

Lemma linkBoth_frame heLookup tempHalfEdges heToWeMap we we' :
  linkBoth heLookup tempHalfEdges heToWeMap we = Some we' →
  same_frame we we'.
Proof.
  unfold linkBoth.
  destruct (linkSide _ _ _ set_succLeft _ _ _ we) as [we1|] eqn:Hl; [|done].
  simpl. intros Hr.
  apply linkSide_left in Hl as ((? & ? & ? & ? & ? & ?) & _).
  apply linkSide_right in Hr as ((? & ? & ? & ? & ? & ?) & _).
  unfold same_frame. split_and!; congruence.
Qed.

Lemma wePassTwoStep_exact heLookup tempHalfEdges heToWeMap wingedEdges
    (vertices vertices' : list (VertexData num)) (faces faces' : list FaceData)
    wingedEdges' (i : nat) :
  wePassTwoStep heLookup tempHalfEdges heToWeMap (wingedEdges, vertices, faces) i
    = Some (wingedEdges', vertices', faces') →
  ∃ we we' vertices1 faces1,
    wingedEdges !! i = Some we
    ∧ linkBoth heLookup tempHalfEdges heToWeMap we = Some we'
    ∧ wingedEdges' = <[i := we']> wingedEdges
    ∧ updateAt (set_vertex_incidentEdge (we_id we')) (we_startVertex we')
               vertices = Some vertices1
    ∧ updateAt (set_vertex_incidentEdge (we_id we')) (we_endVertex we')
               vertices1 = Some vertices'
    ∧ faceRefStep (we_id we') (we_faceLeft we') faces = Some faces1
    ∧ faceRefStep (we_id we') (we_faceRight we') faces1 = Some faces'.
Proof.
  unfold wePassTwoStep, linkBoth.
  destruct (wingedEdges !! i) as [we|]; [|done]. simpl.
  destruct (linkSide _ _ _ set_succLeft _ _ _ we) as [we1|] eqn:Hl; [|done].
  simpl.
  destruct (linkSide _ _ _ set_succRight _ _ _ we1) as [we2|] eqn:Hr; [|done].
  simpl. intros Hrest.
  destruct (updateAt _ _ vertices) as [vs1|] eqn:Hv1; [|done].
  simpl in Hrest.
  destruct (updateAt _ _ vs1) as [vs2|] eqn:Hv2; [|done]. simpl in Hrest.
  destruct (faceRefStep _ _ faces) as [fs1|] eqn:Hf1; [|done].
  simpl in Hrest.
  destruct (faceRefStep _ _ fs1) as [fs2|] eqn:Hf2; [|done]. simpl in Hrest.
  injection Hrest as <- <- <-. exists we, we2, vs1, fs1.
  split_and!; try done. by rewrite Hl.
Qed.

(** The faces written by the first pass are [-1] or face ids. *)
Definition faces_or_none (we : WingedEdgeData) : Prop :=
  (we_faceLeft we = (-1)%Z ∨ (0 ≤ we_faceLeft we)%Z)
  ∧ (we_faceRight we = (-1)%Z ∨ (0 ≤ we_faceRight we)%Z).

(** The state of the second pass after the first [n] records. *)
Lemma wePassTwo_prefix heLookup tempHalfEdges heToWeMap (n : nat)
    wingedEdges wingedEdges'
    (vertices vertices' : list (VertexData num))
    (faces faces' : list FaceData) :
  (∀ j we, wingedEdges !! j = Some we → faces_or_none we) →
  forEachM (wePassTwoStep heLookup tempHalfEdges heToWeMap)
           (wingedEdges, vertices, faces) (seq 0 n)
    = Some (wingedEdges', vertices', faces') →
  length wingedEdges' = length wingedEdges
  ∧ (∀ j, n ≤ j → wingedEdges' !! j = wingedEdges !! j)
  ∧ (∀ j we', j < n → wingedEdges' !! j = Some we' →
       ∃ we, wingedEdges !! j = Some we
             ∧ linkBoth heLookup tempHalfEdges heToWeMap we = Some we')
  ∧ (∀ a, vertices' !! a
          = stamp set_vertex_incidentEdge
              (we_id <$> lastWhere (touches a) (take n wingedEdges'))
            <$> vertices !! a)
  ∧ (∀ k, faces' !! k
          = stamp set_face_incidentEdge
              (we_id <$> lastWhere (borders k) (take n wingedEdges'))
            <$> faces !! k).
Proof.
  intros Hfaces. revert wingedEdges' vertices' faces'.
  induction n as [|n IH]; intros wes' vs' fs'.
  - intros [= <- <- <-]. split_and!; try done.
    + intros j we' Hj. lia.
    + intros a. rewrite take_0. simpl. by destruct (vertices !! a).
    + intros k. rewrite take_0. simpl. by destruct (faces !! k).
  - rewrite seq_S, forEachM_snoc. simpl.
    destruct (forEachM _ _ (seq 0 n)) as [[[wes0 vs0] fs0]|]; [|done].
    destruct (IH wes0 vs0 fs0 eq_refl) as (Hlen & Hrest & Hdone & Hv & Hf).
    simpl. intros Hstep.
    apply wePassTwoStep_exact in Hstep
      as (we & we' & vs1 & fs1 & Hwe & Hlink & -> & Hv1 & Hv2 & Hf1 & Hf2).
    assert (Hn : n < length wes0) by (by eapply lookup_lt_Some).
    pose proof (linkBoth_frame _ _ _ _ _ Hlink) as (_ & _ & _ & _ & Hfl & Hfr).
    assert (Hwe0 : wingedEdges !! n = Some we) by (by rewrite <-Hrest).
    destruct (Hfaces n we Hwe0) as [Hl Hr]. rewrite <-Hfl in Hl.
    rewrite <-Hfr in Hr.
    assert (Htake : take (S n) (<[n := we']> wes0) = take n wes0 ++ [we']).
    { rewrite (take_S_r _ _ we') by (by apply list_lookup_insert_eq).
      by rewrite take_insert_ge. }
    rewrite Htake. split_and!.
    + by rewrite length_insert.
    + intros j Hj. rewrite list_lookup_insert_ne by lia. apply Hrest. lia.
    + intros j w Hj. destruct (decide (j = n)) as [->|Hne].
      * rewrite list_lookup_insert_eq by done. intros [= <-]. eauto.
      * rewrite list_lookup_insert_ne by done. apply Hdone. lia.
    + intros a. rewrite (updateAt_lookup _ _ _ _ a Hv2).
      rewrite (updateAt_lookup _ _ _ _ a Hv1), Hv, lastWhere_snoc.
      destruct (vertices !! a) as [v|]; [|by repeat case_decide]. simpl.
      destruct (decide (touches a we')) as [Ht|Ht]; unfold touches in Ht.
      * simpl. repeat case_decide; simpl; f_equal;
          rewrite ?set_vertex_incidentEdge_twice;
          rewrite ?set_vertex_incidentEdge_stamp; try done.
        destruct Ht; congruence.
      * rewrite !decide_False by (intros ->; tauto). done.
    + intros k. rewrite (faceRefStep_lookup _ _ _ _ k Hr Hf2).
      rewrite (faceRefStep_lookup _ _ _ _ k Hl Hf1), Hf, lastWhere_snoc.
      destruct (faces !! k) as [f|]; [|by repeat case_decide]. simpl.
      destruct (decide (borders k we')) as [Hb|Hb]; unfold borders in Hb.
      * simpl. repeat case_decide; simpl; f_equal;
          rewrite ?set_face_incidentEdge_twice;
          rewrite ?set_face_incidentEdge_stamp; try done.
        destruct Hb; congruence.
      * rewrite !decide_False by tauto. done.
Qed.

End PassTwoFull.

(** * The first pass, in full *)

(** A half-edge runs [a → b]. *)
Definition runs (a b : nat) (he : TempHalfEdge) : Prop :=
  t_origin he = a ∧ t_target he = b.

Definition faceOfLast (o : option TempHalfEdge) : Z :=
  from_option (λ he, Z.of_nat (t_face he)) (-1)%Z o.

(** The faces a record with endpoints [s ≤ e] has after the half-edges
    [visited]: the face of the last half-edge [s → e] on the left; on
    the right the face of the last half-edge [e → s], which a record
    with [s = e] never gets. *)
Definition leftFaceAfter (s e : nat) (visited : list TempHalfEdge) : Z :=
  faceOfLast (lastWhere (runs s e) visited).
Definition rightFaceAfter (s e : nat) (visited : list TempHalfEdge) : Z :=
  if decide (s = e) then (-1)%Z
  else faceOfLast (lastWhere (runs e s) visited).

Lemma runs_heKey (a b : nat) (he : TempHalfEdge) :
  runs a b he ∨ runs b a he → heKey he = getEdgeKey a b.
Proof.
  unfold runs, heKey. intros [[-> ->]|[-> ->]]; [done|apply getEdgeKey_comm].
Qed.

Lemma faces_after_other_key (s e : nat) (visited : list TempHalfEdge)
    (he : TempHalfEdge) :
  heKey he ≠ getEdgeKey s e →
  leftFaceAfter s e (visited ++ [he]) = leftFaceAfter s e visited
  ∧ rightFaceAfter s e (visited ++ [he]) = rightFaceAfter s e visited.
Proof.
  intros Hk. unfold leftFaceAfter, rightFaceAfter.
  rewrite !lastWhere_snoc.
  rewrite (decide_False (P := runs s e he)),
    (decide_False (P := runs e s he)); [done|..];
    intros Hr; apply Hk, runs_heKey; auto.
Qed.

Lemma faces_after_fresh_key (s e : nat) (visited : list TempHalfEdge) :
  (∀ he, he ∈ visited → heKey he ≠ getEdgeKey s e) →
  leftFaceAfter s e visited = (-1)%Z ∧ rightFaceAfter s e visited = (-1)%Z.
Proof.
  intros Hk. unfold leftFaceAfter, rightFaceAfter.
  assert (∀ a b, getEdgeKey a b = getEdgeKey s e →
            lastWhere (runs a b) visited = None) as Hnone.
  { intros a b Hab. apply lastWhere_None. intros he Hin Hr.
    apply (Hk he Hin). rewrite <-Hab. apply runs_heKey. by left. }
  rewrite (Hnone s e), (Hnone e s); [|apply getEdgeKey_comm|done].
  by case_decide.
Qed.

Lemma assignFace_faces (visited : list TempHalfEdge) (he : TempHalfEdge)
    (we : WingedEdgeData) :
  heKey he = weKey we →
  we_startVertex we ≤ we_endVertex we →
  we_faceLeft we
    = leftFaceAfter (we_startVertex we) (we_endVertex we) visited →
  we_faceRight we
    = rightFaceAfter (we_startVertex we) (we_endVertex we) visited →
  we_faceLeft (assignFace he we)
    = leftFaceAfter (we_startVertex we) (we_endVertex we) (visited ++ [he])
  ∧ we_faceRight (assignFace he we)
    = rightFaceAfter (we_startVertex we) (we_endVertex we) (visited ++ [he]).
Proof.
  intros Hkey%getEdgeKey_inj Hle Hl Hr.
  unfold assignFace, leftFaceAfter, rightFaceAfter, runs in *.
  rewrite !lastWhere_snoc.
  destruct (decide (t_origin he = we_startVertex we)) as [Ho|Ho]; simpl.
  - rewrite (decide_True (P := _ ∧ _)) by lia. split; [done|]. rewrite Hr.
    destruct (decide (we_startVertex we = we_endVertex we)); [done|].
    rewrite (decide_False (P := _ ∧ _)); [done|lia].
  - rewrite (decide_False (P := _ ∧ _)) by tauto. split; [done|].
    rewrite (decide_False (P := we_startVertex we = we_endVertex we)) by lia.
    rewrite (decide_True (P := _ ∧ _)); [done|lia].
Qed.

Section PassOneFull.
Context {SM : Type → Type}
  `{FMap SM, ∀ A, Lookup string A (SM A), ∀ A, Empty (SM A),
    ∀ A, PartialAlter string A (SM A), OMap SM, Merge SM,
    ∀ A, MapFold string A (SM A)} `{!FinMap string SM}.
Context {NM : Type → Type}
  `{FMap NM, ∀ A, Lookup nat A (NM A), ∀ A, Empty (NM A),
    ∀ A, PartialAlter nat A (NM A), OMap NM, Merge NM,
    ∀ A, MapFold nat A (NM A)} `{!FinMap nat NM}.
Implicit Types (edgeKeyToIndex : SM nat) (heToWeMap : NM nat).
Implicit Types (he : TempHalfEdge) (visited : list TempHalfEdge).
Implicit Types (we : WingedEdgeData) (wingedEdges : list WingedEdgeData).

(** The loop body, taken apart. *)
Lemma wePassOneStep_exact wingedEdges edgeKeyToIndex heToWeMap he
    wingedEdges' edgeKeyToIndex' heToWeMap' :
  wePassOneStep (SM:=SM) (NM:=NM)
    (wingedEdges, edgeKeyToIndex, heToWeMap) he
    = Some (wingedEdges', edgeKeyToIndex', heToWeMap') →
  ∃ wingedEdges1 (weId : nat) we,
    (wingedEdges1, edgeKeyToIndex')
      = match edgeKeyToIndex !! heKey he with
        | None =>
            (wingedEdges ++ [newWingedEdge (length wingedEdges) he],
             <[heKey he := length wingedEdges]> edgeKeyToIndex)
        | Some _ => (wingedEdges, edgeKeyToIndex)
        end
    ∧ edgeKeyToIndex' !! heKey he = Some weId
    ∧ wingedEdges1 !! weId = Some we
    ∧ wingedEdges' = <[weId := assignFace he we]> wingedEdges1
    ∧ heToWeMap' = <[t_id he := weId]> heToWeMap.
Proof.
  unfold wePassOneStep. fold (heKey he).
  destruct (match edgeKeyToIndex !! heKey he with
            | None => _ | Some _ => _ end) as [wes1 ekm1].
  destruct (ekm1 !! heKey he) as [weId|] eqn:Hid; [|done]. simpl.
  destruct (wes1 !! weId) as [we|] eqn:Hwe; [|done]. simpl.
  intros [= <- <- <-]. by exists wes1, weId, we.
Qed.

(** Faces and the half-edge-to-record map after the half-edges
    [visited], whose ids are their positions. *)
Definition pass1_full visited
    (st : list WingedEdgeData * SM nat * NM nat) : Prop :=
  let '(wingedEdges, edgeKeyToIndex, heToWeMap) := st in
  (∀ i we, wingedEdges !! i = Some we →
     we_faceLeft we
       = leftFaceAfter (we_startVertex we) (we_endVertex we) visited
     ∧ we_faceRight we
       = rightFaceAfter (we_startVertex we) (we_endVertex we) visited)
  ∧ (∀ j he, visited !! j = Some he →
       heToWeMap !! j = edgeKeyToIndex !! heKey he)
  ∧ (∀ j, is_Some (heToWeMap !! j) → j < length visited).

Lemma pass1_full_step visited st st' he :
  t_id he = length visited →
  pass1_inv visited st → pass1_full visited st →
  wePassOneStep (SM:=SM) (NM:=NM) st he = Some st' →
  pass1_full (visited ++ [he]) st'.
Proof.
  destruct st as [[wes ekm] h2w], st' as [[wes' ekm'] h2w'].
  intros Hid Hinv (Hfaces & Hmap2 & Hdom) Hstep.
  pose proof (pass1_ensure _ _ _ _ h2w he Hinv) as Hens.
  apply wePassOneStep_exact in Hstep
    as (wes1 & weId & we & Hpair & Hlk & Hwe & -> & ->).
  rewrite <-Hpair in Hens. destruct Hens as (Hmap1 & Hok1 & Hseen1).
  destruct Hinv as (Hmap & Hok & Hseen).
  (* the records before the assignment, against the old [visited] *)
  assert (Hbefore : ∀ i w, wes1 !! i = Some w →
            we_faceLeft w
              = leftFaceAfter (we_startVertex w) (we_endVertex w) visited
            ∧ we_faceRight w
              = rightFaceAfter (we_startVertex w) (we_endVertex w) visited).
  { destruct (ekm !! heKey he) as [i0|] eqn:Hold;
      injection Hpair as -> ->; [done|].
    intros i w [[_ Hw]|[-> <-]]%lookup_snoc_Some; [eauto|].
    destruct (faces_after_fresh_key
                (we_startVertex (newWingedEdge (length wes) he))
                (we_endVertex (newWingedEdge (length wes) he)) visited)
      as [-> ->]; [|done].
    intros he' Hin' Heq. destruct (Hseen he' Hin') as [x Hx].
    fold (weKey (newWingedEdge (length wes) he)) in Heq.
    rewrite newWingedEdge_key in Heq. congruence. }
  assert (Hsub : ∀ k, is_Some (ekm !! k) → ekm' !! k = ekm !! k).
  { intros k [x Hx]. destruct (ekm !! heKey he) as [i0|] eqn:Hold;
      injection Hpair as -> ->; [done|].
    rewrite lookup_insert_ne; [done|]. congruence. }
  split_and!.
  - intros i w. destruct (decide (i = weId)) as [->|Hne].
    + rewrite list_lookup_insert_eq by (by eapply lookup_lt_Some).
      intros [= <-].
      assert (Hk : heKey he = weKey we).
      { apply Hmap1 in Hlk as (w' & ? & ?). congruence. }
      destruct (Hbefore weId we Hwe) as [Hl Hr].
      destruct (Hok1 weId we Hwe) as (_ & Hle & _).
      destruct (assignFace_faces visited he we Hk Hle Hl Hr) as [Hl' Hr'].
      assert (we_startVertex (assignFace he we) = we_startVertex we
              ∧ we_endVertex (assignFace he we) = we_endVertex we)
        as [-> ->] by (unfold assignFace; by case_decide).
      done.
    + rewrite list_lookup_insert_ne by done. intros Hw.
      destruct (Hbefore i w Hw) as [Hl Hr].
      destruct (faces_after_other_key (we_startVertex w) (we_endVertex w)
                  visited he) as [-> ->]; [|done].
      intros Heq. apply Hne.
      assert (ekm' !! weKey w = Some i) by (apply Hmap1; eauto).
      unfold weKey in *. congruence.
  - intros j he' [[Hj Hhe']|[-> <-]]%lookup_snoc_Some.
    + rewrite lookup_insert_ne by lia. rewrite (Hmap2 j he' Hhe').
      symmetry. apply Hsub, Hseen, list_elem_of_lookup. eauto.
    + rewrite <-Hid, lookup_insert_eq. done.
  - intros j. rewrite length_app. simpl.
    rewrite lookup_insert_is_Some. intros [<-|[_ ?%Hdom]]; lia.
Qed.

Lemma pass1_full_loop (tempHalfEdges : list TempHalfEdge)
    (st : list WingedEdgeData * SM nat * NM nat) :
  (∀ j he, tempHalfEdges !! j = Some he → t_id he = j) →
  forEachM (wePassOneStep (SM:=SM) (NM:=NM)) ([], ∅, ∅) tempHalfEdges
    = Some st →
  pass1_full tempHalfEdges st.
Proof.
  revert st. induction tempHalfEdges as [|he l IH] using rev_ind;
    intros st Hids.
  - intros [= <-]. split_and!; [done|done|].
    intros j [x Hx]. by rewrite lookup_empty in Hx.
  - rewrite forEachM_snoc.
    destruct (forEachM wePassOneStep _ l) as [st0|] eqn:Hl; [|done]. simpl.
    apply pass1_full_step.
    + apply Hids. by rewrite list_lookup_middle.
    + by apply pass1_inv_loop.
    + apply IH; [|done]. intros j he' Hj. apply Hids.
      rewrite lookup_app_l; [done|]. by eapply lookup_lt_Some.
Qed.

End PassOneFull.

(** * The tables of the output, field by field *)

Section Tables.
Context {num : Type} `{JSNumber num}.
Context {SM : Type → Type}
  `{FMap SM, ∀ A, Lookup string A (SM A), ∀ A, Empty (SM A),
    ∀ A, PartialAlter string A (SM A), OMap SM, Merge SM,
    ∀ A, MapFold string A (SM A)} `{!FinMap string SM}.
Context {NM : Type → Type}
  `{FMap NM, ∀ A, Lookup nat A (NM A), ∀ A, Empty (NM A),
    ∀ A, PartialAlter nat A (NM A), OMap NM, Merge NM,
    ∀ A, MapFold nat A (NM A)} `{!FinMap nat NM}.

Lemma linked_ids (faces : list FaceData) (j : nat) (he : TempHalfEdge) :
  faces_wf faces →
  linkedHalfEdges (SM:=SM) faces !! j = Some he → t_id he = j.
Proof.
  intros Hwf. unfold linkedHalfEdges. rewrite list_lookup_fmap.
  destruct (buildTempHalfEdges faces !! j) as [te|] eqn:Hte; [|done].
  intros [= <-].
  destruct (linkTwin_fields (buildHeLookup (SM:=SM) (buildTempHalfEdges faces)) te)
    as (-> & _).
  by destruct (tempHalfEdges_lookup_wf _ _ _ Hwf Hte) as (_ & _ & _ & ? & _).
Qed.

(** Everything a successful run fixes: the tables before the
    back-references, and each output table in terms of them. *)
Lemma output_tables (geometry : BufferGeometry num)
    (mesh : ProcessedMesh num) :
  analyzeGeometry (SM:=SM) (NM:=NM) geometry = Some mesh →
  ∃ processedIndices vertices uniqueVertsMap faces
    wingedEdges (edgeKeyToIndex : SM nat) (heToWeMap : NM nat),
    mergeVertices (SM:=SM) geometry
      = (processedIndices, vertices, uniqueVertsMap)
    ∧ mapM (mkFace processedIndices) (strides (length processedIndices))
      = Some faces
    ∧ faces_valid (length vertices) faces
    ∧ mapM (mkSoupTriangle vertices processedIndices)
           (strides (length processedIndices))
      = Some (mesh_soupTriangles mesh)
    ∧ mesh_halfEdges mesh = halfEdgesOf (SM:=SM) faces
    ∧ (∀ a, mesh_vertices mesh !! a
            = (λ v, stamp set_vertex_incidentEdge
                      (we_id <$> lastWhere (touches a) (mesh_edges mesh))
                      (stamp set_vertex_incidentHalfEdge
                         (he_id <$> lastWhere (λ h, he_originVertex h = a)
                                      (mesh_halfEdges mesh)) v))
              <$> vertices !! a)
    ∧ (∀ k, mesh_faces mesh !! k
            = (λ f, stamp set_face_incidentEdge
                      (we_id <$> lastWhere (borders k) (mesh_edges mesh))
                      (stamp set_face_incidentHalfEdge
                         (he_id <$> lastWhere (λ h, he_face h = k)
                                      (mesh_halfEdges mesh)) f))
              <$> faces !! k)
    ∧ pass1_inv (SM:=SM) (NM:=NM) (linkedHalfEdges (SM:=SM) faces)
                (wingedEdges, edgeKeyToIndex, heToWeMap)
    ∧ pass1_full (SM:=SM) (NM:=NM) (linkedHalfEdges (SM:=SM) faces)
                 (wingedEdges, edgeKeyToIndex, heToWeMap)
    ∧ length (mesh_edges mesh) = length wingedEdges
    ∧ (∀ i we', mesh_edges mesh !! i = Some we' →
         ∃ we, wingedEdges !! i = Some we
               ∧ linkBoth (buildHeLookup (SM:=SM) (buildTempHalfEdges faces))
                          (linkedHalfEdges (SM:=SM) faces) heToWeMap we
                 = Some we').
Proof.
  intros (pis & vs & um & faces & vs1 & fs1 & wes & ekm & h2w & Hmerge
          & Hfaces & Hsoup & Hhes & Hrefs & Hone & Htwo)%analyzeGeometry_inv.
  exists pis, vs, um, faces, wes, ekm, h2w.
  assert (Hv : faces_valid (length vs) faces).
  { destruct (merged_bounds _ _ _ _ Hmerge) as [_ Hids]. split.
    - intros k f Hf. by destruct (faces_lookup _ _ _ _ Hfaces Hf).
    - intros f [k Hf]%list_elem_of_lookup.
      destruct (faces_lookup _ _ _ _ Hfaces Hf) as (_ & ? & ? & ?).
      split_and!; eauto. }
  pose proof (pass1_inv_loop _ _ Hone) as Hinv.
  pose proof (pass1_full_loop _ _ (λ j he, linked_ids faces j he (proj1 Hv))
                Hone) as Hfull.
  apply heRef_loop in Hrefs as [Hrv Hrf].
  apply wePassTwo_prefix in Htwo as (Hlen & _ & Hdone & Htv & Htf).
  2: { intros j we Hj. destruct Hinv as (_ & Hok & _).
       destruct (Hok j we Hj) as (_ & _ & _ & _ & _ & _ & _ & _ & Hl & Hr).
       split.
       - destruct Hl as [?|(? & _ & _ & _ & ->)]; [by left|right; lia].
       - destruct Hr as [?|(? & _ & _ & _ & _ & ->)]; [by left|right; lia]. }
  rewrite take_ge in Htv, Htf by lia.
  split_and!; try done.
  - intros a. rewrite Htv, Hrv, Hhes. by destruct (vs !! a).
  - intros k. rewrite Htf, Hrf, Hhes. by destruct (faces !! k).
  - intros i we' Hi. apply Hdone; [|done].
    rewrite <-Hlen. by eapply lookup_lt_Some.
Qed.

(** One vertex of the output. *)
Lemma mesh_vertex_fields (geometry : BufferGeometry num)
    (mesh : ProcessedMesh num) (a : nat) (v' : VertexData num) :
  analyzeGeometry (SM:=SM) (NM:=NM) geometry = Some mesh →
  mesh_vertices mesh !! a = Some v' →
  ∃ processedIndices vertices uniqueVertsMap v,
    mergeVertices (SM:=SM) geometry
      = (processedIndices, vertices, uniqueVertsMap)
    ∧ vertices !! a = Some v
    ∧ vertex_id v' = a
    ∧ vertex_x v' = vertex_x v ∧ vertex_y v' = vertex_y v
    ∧ vertex_z v' = vertex_z v
    ∧ vertex_incidentHalfEdge v'
      = he_id <$> lastWhere (λ h, he_originVertex h = a) (mesh_halfEdges mesh)
    ∧ vertex_incidentEdge v'
      = we_id <$> lastWhere (touches a) (mesh_edges mesh).
Proof.
  intros (pis & vs & um & faces & wes & ekm & h2w & Hmerge & _ & _ & _ & _
          & Hv & _)%output_tables Hv'.
  rewrite Hv in Hv'. destruct (vs !! a) as [v|] eqn:Ha; [|done].
  injection Hv' as <-. exists pis, vs, um, v. split; [done|]. split; [done|].
  pose proof (mergeVertices_inv (SM:=SM) geometry) as Hinv.
  rewrite Hmerge in Hinv. destruct Hinv as (_ & _ & _ & _ & Hvs).
  destruct (Hvs a v Ha) as (Hid & _ & HE & HH).
  destruct (lastWhere (touches a) _), (lastWhere (λ h, _ = a) _);
    by split_and!.
Qed.

(** One face of the output. *)
Lemma mesh_face_fields (geometry : BufferGeometry num)
    (mesh : ProcessedMesh num) (k : nat) (f' : FaceData) :
  analyzeGeometry (SM:=SM) (NM:=NM) geometry = Some mesh →
  mesh_faces mesh !! k = Some f' →
  ∃ processedIndices vertices uniqueVertsMap,
    mergeVertices (SM:=SM) geometry
      = (processedIndices, vertices, uniqueVertsMap)
    ∧ face_id f' = k
    ∧ processedIndices !! (k * 3) = Some (face_v1 f')
    ∧ processedIndices !! (k * 3 + 1) = Some (face_v2 f')
    ∧ processedIndices !! (k * 3 + 2) = Some (face_v3 f')
    ∧ face_incidentHalfEdge f'
      = he_id <$> lastWhere (λ h, he_face h = k) (mesh_halfEdges mesh)
    ∧ face_incidentEdge f'
      = we_id <$> lastWhere (borders k) (mesh_edges mesh).
Proof.
  intros (pis & vs & um & faces & wes & ekm & h2w & Hmerge & Hfaces & _ & _
          & _ & _ & Hf & _)%output_tables Hf'.
  rewrite Hf in Hf'. destruct (faces !! k) as [f|] eqn:Hk; [|done].
  injection Hf' as <-. exists pis, vs, um. split; [done|].
  destruct (faces_lookup _ _ _ _ Hfaces Hk) as (? & ? & ? & ?).
  apply mapM_Some_1 in Hfaces.
  destruct (Forall2_lookup_r _ _ _ _ _ Hfaces Hk) as (i & _ & Hmk).
  apply mkFace_Some in Hmk as (_ & _ & _ & _ & HE & HH).
  destruct (lastWhere (borders k) _), (lastWhere (λ h, _ = k) _);
    by split_and!.
Qed.

Lemma mesh_lengths (geometry : BufferGeometry num)
    (mesh : ProcessedMesh num) :
  analyzeGeometry (SM:=SM) (NM:=NM) geometry = Some mesh →
  ∃ processedIndices vertices uniqueVertsMap,
    mergeVertices (SM:=SM) geometry
      = (processedIndices, vertices, uniqueVertsMap)
    ∧ length processedIndices = length (bufferOffsets geometry)
    ∧ length (mesh_vertices mesh) = length vertices
    ∧ length (mesh_faces mesh) * 3 = length processedIndices
    ∧ length (mesh_soupTriangles mesh) = length (mesh_faces mesh)
    ∧ length (mesh_halfEdges mesh) = length processedIndices.
Proof.
  intros (pis & vs & um & faces & wes & ekm & h2w & Hmerge & Hfaces & _
          & Hsoup & Hhes & Hv & Hf & _)%output_tables.
  exists pis, vs, um. split; [done|].
  destruct (merged_bounds _ _ _ _ Hmerge) as [Hlen _].
  pose proof (faces_length _ _ Hfaces) as Hfl.
  assert (∀ {A B} (l : list A) (l' : list B) (g : nat → A → B),
            (∀ a, l' !! a = g a <$> l !! a) → length l' = length l) as Hsame.
  { intros A B l l' g Hl.
    destruct (decide (length l' = length l)) as [|Hne]; [done|].
    destruct (decide (length l' < length l)).
    - destruct (lookup_lt_is_Some_2 l (length l')) as [x Hx]; [done|].
      pose proof (Hl (length l')) as Hq. rewrite Hx in Hq.
      apply lookup_lt_Some in Hq. lia.
    - destruct (lookup_lt_is_Some_2 l' (length l)) as [x Hx]; [lia|].
      rewrite Hl in Hx. rewrite lookup_ge_None_2 in Hx; [done|lia]. }
  split_and!.
  - done.
  - eapply (Hsame _ _ _ _ _ Hv).
  - rewrite (Hsame _ _ _ _ _ Hf). lia.
  - rewrite (Hsame _ _ _ _ _ Hf).
    rewrite <-(length_mapM _ _ _ Hsoup), <-(length_mapM _ _ _ Hfaces). done.
  - rewrite Hhes, halfEdgesOf_length. lia.
Qed.

End Tables.

(** * The index stream of a face table *)

(** Corner [i] of a face, as the half-edge loop reads it. *)
Definition corner (f : FaceData) (i : nat) : nat :=
  match i with
  | 0 => face_v1 f | 1 => face_v2 f | _ => face_v3 f
  end.

(** The corners of all faces in table order. *)
Definition cornersOf (faces : list FaceData) : list nat :=
  faces ≫= λ f, [face_v1 f; face_v2 f; face_v3 f].

Lemma cornersOf_lookup (faces : list FaceData) (j : nat) :
  cornersOf faces !! j = (λ f, corner f (j mod 3)) <$> faces !! (j / 3).
Proof.
  unfold cornersOf. revert j.
  induction faces as [|f faces IH]; intros j; [done|].
  rewrite bind_cons.
  destruct j as [|[|[|j]]]; [done..|].
  change (S (S (S j))) with (3 + j).
  change ([face_v1 f; face_v2 f; face_v3 f] ++ ?l)
    with (face_v1 f :: face_v2 f :: face_v3 f :: l).
  replace (3 + j) with (1 * 3 + j) by lia.
  replace ((1 * 3 + j) mod 3) with (j mod 3)
    by (rewrite Nat.add_comm, Nat.Div0.mod_add; done).
  rewrite Nat.div_add_l by lia. simpl. apply IH.
Qed.

Lemma cornersOf_length (faces : list FaceData) :
  length (cornersOf faces) = length faces * 3.
Proof.
  unfold cornersOf. induction faces as [|f faces IH]; [done|].
  rewrite bind_cons, length_app, IH. simpl. lia.
Qed.

Lemma cornersOf_app (l1 l2 : list FaceData) :
  cornersOf (l1 ++ l2) = cornersOf l1 ++ cornersOf l2.
Proof. unfold cornersOf. apply bind_app. Qed.

Lemma corner_split (f : FaceData) (i : nat) (x : nat) :
  i < 3 →
  corner f i = x →
  (i = 0 ∧ face_v1 f = x) ∨ (i = 1 ∧ face_v2 f = x) ∨ (i = 2 ∧ face_v3 f = x).
Proof. destruct i as [|[|[|i]]]; simpl; intros; try lia; eauto. Qed.

Lemma corner_stamps (oe oh : option nat) (f : FaceData) (i : nat) :
  corner (stamp set_face_incidentEdge oe
            (stamp set_face_incidentHalfEdge oh f)) i = corner f i.
Proof. by destruct oe, oh, i as [|[|[|i]]]. Qed.

Section Streams.
Context {num : Type} `{JSNumber num}.
Context {SM : Type → Type}
  `{FMap SM, ∀ A, Lookup string A (SM A), ∀ A, Empty (SM A),
    ∀ A, PartialAlter string A (SM A), OMap SM, Merge SM,
    ∀ A, MapFold string A (SM A)} `{!FinMap string SM}.
Context {NM : Type → Type}
  `{FMap NM, ∀ A, Lookup nat A (NM A), ∀ A, Empty (NM A),
    ∀ A, PartialAlter nat A (NM A), OMap NM, Merge NM,
    ∀ A, MapFold nat A (NM A)} `{!FinMap nat NM}.

(** The corners of the output faces are the ids the merger produced, in
    stream order. *)
Lemma mesh_corners (geometry : BufferGeometry num)
    (mesh : ProcessedMesh num) :
  analyzeGeometry (SM:=SM) (NM:=NM) geometry = Some mesh →
  ∃ vertices uniqueVertsMap,
    mergeVertices (SM:=SM) geometry
      = (cornersOf (mesh_faces mesh), vertices, uniqueVertsMap)
    ∧ length (mesh_vertices mesh) = length vertices.
Proof.
  intros Hrun.
  destruct (mesh_lengths _ _ Hrun)
    as (pis & vs & um & Hmerge & _ & Hvl & Hfl & _).
  exists vs, um. split; [|done]. rewrite Hmerge. do 2 f_equal.
  apply list_eq. intros j. rewrite cornersOf_lookup.
  destruct (mesh_faces mesh !! (j / 3)) as [f|] eqn:Hf.
  - destruct (mesh_face_fields _ _ _ _ Hrun Hf)
      as (pis' & vs' & um' & Hmerge' & _ & Hc1 & Hc2 & Hc3 & _).
    rewrite Hmerge in Hmerge'. injection Hmerge' as <- <- <-.
    pose proof (Nat.div_mod_eq j 3) as Hj.
    pose proof (Nat.mod_upper_bound j 3) as Hlt.
    remember (j / 3) as k. remember (j mod 3) as i.
    replace j with (k * 3 + i) by lia.
    destruct i as [|[|[|i]]]; simpl; [|done|done|lia].
    by rewrite Nat.add_0_r.
  - apply lookup_ge_None in Hf. simpl. apply lookup_ge_None.
    pose proof (Nat.div_mod_eq j 3). lia.
Qed.

Lemma mesh_discovery (geometry : BufferGeometry num)
    (mesh : ProcessedMesh num) :
  analyzeGeometry (SM:=SM) (NM:=NM) geometry = Some mesh →
  discovery_order (cornersOf (mesh_faces mesh)) (length (mesh_vertices mesh)).
Proof.
  intros (vs & um & Hmerge & ->)%mesh_corners.
  by apply mergeVertices_order in Hmerge.
Qed.

(** Every vertex of the output is the origin of a half-edge. *)
Lemma vertex_has_outgoing (geometry : BufferGeometry num)
    (mesh : ProcessedMesh num) (a : nat) :
  analyzeGeometry (SM:=SM) (NM:=NM) geometry = Some mesh →
  a < length (mesh_vertices mesh) →
  ∃ h, h ∈ mesh_halfEdges mesh ∧ he_originVertex h = a.
Proof.
  intros Hrun Ha.
  destruct (mesh_discovery _ _ Hrun) as [Hall _].
  destruct (Hall a Ha) as [j Hj].
  rewrite cornersOf_lookup in Hj.
  destruct (mesh_faces mesh !! (j / 3)) as [f'|] eqn:Hf'; [|done].
  injection Hj as Hc.
  pose proof Hrun as (pis & vs & um & faces & wes & ekm & h2w & Hmerge
    & Hfaces & Hv & _ & Hhes & _ & Hf & _)%output_tables.
  rewrite Hf in Hf'. destruct (faces !! (j / 3)) as [f|] eqn:Hk; [|done].
  injection Hf' as <-.
  destruct (lookup_lt_is_Some_2 (halfEdgesOf (SM:=SM) faces) j) as [h Hh].
  { rewrite halfEdgesOf_length. apply lookup_lt_Some in Hk.
    pose proof (Nat.div_mod_eq j 3).
    pose proof (Nat.mod_upper_bound j 3). lia. }
  exists h. rewrite Hhes. split; [apply list_elem_of_lookup; eauto|].
  apply halfEdgesOf_lookup in Hh as (te & Hte & _ & -> & _).
  rewrite tempHalfEdges_lookup, Hk in Hte. injection Hte as <-.
  rewrite <-Hc, corner_stamps. pose proof (Nat.mod_upper_bound j 3).
  remember (j mod 3) as i. clear Heqi.
  by destruct i as [|[|[|i]]].
Qed.

End Streams.

(** * What the engine guarantees *)

(** The rounded position read at offset [p], as a point. *)
Definition pointAt {num : Type} `{JSNumber num} (positions : list num)
    (p : nat) : Vector3 num :=
  mkVector3 (coordAt positions p) (coordAt positions (p + 1))
            (coordAt positions (p + 2)).

(** A last writer found through its id, in a table whose ids are
    positions. *)
Lemma lastWhere_by_id {A : Type} (P : A → Prop) `{!∀ x, Decision (P x)}
    (id : A → nat) (l : list A) :
  (∀ j x, l !! j = Some x → id x = j) →
  match id <$> lastWhere P l with
  | Some j => ∃ x, l !! j = Some x ∧ P x
                   ∧ ∀ j' y, l !! j' = Some y → P y → j' ≤ j
  | None => ∀ x, x ∈ l → ¬ P x
  end.
Proof.
  intros Hid. destruct (lastWhere P l) as [x|] eqn:Hl; simpl.
  - apply lastWhere_Some in Hl as (HP & i & Hi & Hmax).
    rewrite (Hid _ _ Hi). eauto.
  - by apply (lastWhere_None P).
Qed.

Lemma nextId_mod (j : nat) : nextId j mod 3 = (j mod 3 + 1) mod 3.
Proof.
  unfold nextId. by rewrite Nat.add_comm, Nat.Div0.mod_add, Nat.Div0.mod_mod.
Qed.

Lemma prevId_mod (j : nat) : prevId j mod 3 = (j mod 3 + 2) mod 3.
Proof.
  unfold prevId. by rewrite Nat.add_comm, Nat.Div0.mod_add, Nat.Div0.mod_mod.
Qed.

Section Guarantees.
Context {num : Type} `{JSNumber num}.
Context {SM : Type → Type}
  `{FMap SM, ∀ A, Lookup string A (SM A), ∀ A, Empty (SM A),
    ∀ A, PartialAlter string A (SM A), OMap SM, Merge SM,
    ∀ A, MapFold string A (SM A)} `{!FinMap string SM}.
Context {NM : Type → Type}
  `{FMap NM, ∀ A, Lookup nat A (NM A), ∀ A, Empty (NM A),
    ∀ A, PartialAlter nat A (NM A), OMap NM, Merge NM,
    ∀ A, MapFold nat A (NM A)} `{!FinMap nat NM}.

Lemma mesh_halfEdge_ids (geometry : BufferGeometry num)
    (mesh : ProcessedMesh num) (j : nat) (h : HalfEdgeData) :
  analyzeGeometry (SM:=SM) (NM:=NM) geometry = Some mesh →
  mesh_halfEdges mesh !! j = Some h →
  he_id h = j ∧ he_face h = j / 3
  ∧ he_next h = nextId j ∧ he_prev h = prevId j.
Proof.
  intros (faces & Hwf & ->)%analyzeGeometry_halfEdges.
  by apply halfEdgesOf_shape.
Qed.

Lemma mesh_edge_ids (geometry : BufferGeometry num)
    (mesh : ProcessedMesh num) (i : nat) (we : WingedEdgeData) :
  analyzeGeometry (SM:=SM) (NM:=NM) geometry = Some mesh →
  mesh_edges mesh !! i = Some we → we_id we = i.
Proof. intros Hrun Hi. by destruct (edge_facts _ _ _ _ Hrun Hi). Qed.

(** The corners of a face are the ends of its three half-edges. *)
Lemma mesh_halfEdge_corners (geometry : BufferGeometry num)
    (mesh : ProcessedMesh num) (j : nat) (h : HalfEdgeData) :
  analyzeGeometry (SM:=SM) (NM:=NM) geometry = Some mesh →
  mesh_halfEdges mesh !! j = Some h →
  ∃ f, mesh_faces mesh !! (j / 3) = Some f
       ∧ he_originVertex h = corner f (j mod 3)
       ∧ he_targetVertex h = corner f ((j mod 3 + 1) mod 3).
Proof.
  intros (pis & vs & um & faces & wes & ekm & h2w & Hmerge
    & Hfaces & Hv & _ & Hhes & _ & Hf & _)%output_tables Hh.
  rewrite Hhes in Hh.
  apply halfEdgesOf_lookup in Hh as (te & Hte & _ & -> & -> & _).
  rewrite tempHalfEdges_lookup in Hte.
  destruct (faces !! (j / 3)) as [f|] eqn:Hk; [|done].
  injection Hte as <-. rewrite Hf, Hk. eexists. split; [done|].
  rewrite !corner_stamps. done.
Qed.

Lemma mesh_halfEdges_length (geometry : BufferGeometry num)
    (mesh : ProcessedMesh num) :
  analyzeGeometry (SM:=SM) (NM:=NM) geometry = Some mesh →
  length (mesh_halfEdges mesh) = length (mesh_faces mesh) * 3.
Proof.
  intros (pis & vs & um & _ & _ & _ & ? & _ & ?)%mesh_lengths. lia.
Qed.

(** X1.  The engine returns a mesh exactly when the number of stream
    entries is a multiple of three; otherwise the soup loop throws. *)
Theorem analyzeGeometry_returns_iff (geometry : BufferGeometry num) :
  is_Some (analyzeGeometry (SM:=SM) (NM:=NM) geometry)
  ↔ length (bufferOffsets geometry) mod 3 = 0.
Proof.
  split.
  - intros Hsome.
    destruct (decide (length (bufferOffsets geometry) mod 3 = 0)) as [|Hne];
      [done|].
    rewrite (analyzeGeometry_rejects (SM:=SM) (NM:=NM) geometry Hne) in Hsome.
    by destruct Hsome.
  - apply analyzeGeometry_accepts.
Qed.

Lemma merge_length_le (positions : list num) (ps : list nat)
    (st : list nat * list (VertexData num) * SM nat) :
  length st.1.2 ≤ length st.1.1 →
  length (foldl (mergeStep (SM:=SM) positions) st ps).1.2
  ≤ length (foldl (mergeStep (SM:=SM) positions) st ps).1.1.
Proof.
  revert st. induction ps as [|p ps IH]; intros st Hst; [done|].
  simpl. apply IH. destruct st as [[pis vs] m]. simpl in *.
  unfold getOrAddVertex. destruct (m !! _); simpl; rewrite !length_app;
    simpl; lia.
Qed.

(** X2.  Sizes of the tables: three stream entries per face, one soup
    triangle and three half-edges per face, and no more vertices than
    stream entries, with no vertex only when there is no face. *)
Theorem table_sizes (geometry : BufferGeometry num)
    (mesh : ProcessedMesh num) :
  analyzeGeometry (SM:=SM) (NM:=NM) geometry = Some mesh →
  length (mesh_faces mesh) * 3 = length (bufferOffsets geometry)
  ∧ length (mesh_soupTriangles mesh) = length (mesh_faces mesh)
  ∧ length (mesh_halfEdges mesh) = length (mesh_faces mesh) * 3
  ∧ length (mesh_vertices mesh) ≤ length (mesh_faces mesh) * 3
  ∧ (length (mesh_vertices mesh) = 0 ↔ length (mesh_faces mesh) = 0).
Proof.
  intros Hrun.
  destruct (mesh_lengths _ _ Hrun)
    as (pis & vs & um & Hmerge & Hpl & Hvl & Hfl & Hsl & Hhl).
  pose proof (merge_length_le (geo_positions geometry)
                (bufferOffsets geometry) ([], [], ∅)) as Hle.
  fold (mergeVertices (SM:=SM) geometry) in Hle. rewrite Hmerge in Hle.
  simpl in Hle. specialize (Hle (le_n _)).
  split_and!; try lia.
  split; [|lia]. intros Hz.
  destruct (mesh_discovery _ _ Hrun) as [_ Hord].
  destruct (mesh_faces mesh) as [|f fs] eqn:Hfs; [done|].
  destruct (Hord 0 (face_v1 f)); [done|]. lia.
Qed.

(** X3.  A vertex carries its position in the table as id, and no two
    vertices of the output have the same coordinates. *)
Theorem vertices_distinct (geometry : BufferGeometry num)
    (mesh : ProcessedMesh num) (a b : nat) (v w : VertexData num) :
  analyzeGeometry (SM:=SM) (NM:=NM) geometry = Some mesh →
  mesh_vertices mesh !! a = Some v →
  mesh_vertices mesh !! b = Some w →
  vertex_id v = a
  ∧ (vertex_x v = vertex_x w → vertex_y v = vertex_y w →
     vertex_z v = vertex_z w → a = b).
Proof.
  intros Hrun Hv Hw.
  destruct (mesh_vertex_fields _ _ _ _ Hrun Hv)
    as (pis & vs & um & v0 & Hmerge & Hv0 & Hid & Hx & Hy & Hz & _).
  destruct (mesh_vertex_fields _ _ _ _ Hrun Hw)
    as (pis' & vs' & um' & w0 & Hmerge' & Hw0 & _ & Hx' & Hy' & Hz' & _).
  rewrite Hmerge in Hmerge'. injection Hmerge' as <- <- <-.
  split; [done|]. intros Ex Ey Ez.
  pose proof (mergeVertices_inv (SM:=SM) geometry) as Hinv.
  rewrite Hmerge in Hinv. destruct Hinv as (_ & _ & _ & _ & Hvs).
  destruct (Hvs a v0 Hv0) as (_ & Hka & _).
  destruct (Hvs b w0 Hw0) as (_ & Hkb & _).
  rewrite <-Hx, <-Hy, <-Hz, Ex, Ey, Ez, Hx', Hy', Hz' in Hka. congruence.
Qed.

(** X4.  Vertex ids follow first use in the corner stream of the faces:
    every vertex is a corner of some face, every corner is a vertex of
    the table, and a corner id is preceded in the stream by every
    smaller id. *)
Theorem vertex_ids_by_first_use (geometry : BufferGeometry num)
    (mesh : ProcessedMesh num) :
  analyzeGeometry (SM:=SM) (NM:=NM) geometry = Some mesh →
  let stream := cornersOf (mesh_faces mesh) in
  (∀ a, a < length (mesh_vertices mesh) → a ∈ stream)
  ∧ (∀ i a, stream !! i = Some a →
       a < length (mesh_vertices mesh)
       ∧ ∀ b, b < a → ∃ j, j < i ∧ stream !! j = Some b).
Proof.
  intros [Hall Hord]%mesh_discovery. split; [|done].
  intros a Ha. apply list_elem_of_lookup. eauto.
Qed.

(** X5.  Half-edge [j] belongs to face [j / 3] and runs from corner
    [j mod 3] of that face to its next corner; its [next] starts where
    it ends and its [prev] ends where it starts. *)
Theorem halfedge_endpoints (geometry : BufferGeometry num)
    (mesh : ProcessedMesh num) (j : nat) (h : HalfEdgeData) :
  analyzeGeometry (SM:=SM) (NM:=NM) geometry = Some mesh →
  mesh_halfEdges mesh !! j = Some h →
  he_id h = j
  ∧ he_face h = j / 3
  ∧ (∃ f, mesh_faces mesh !! (j / 3) = Some f
          ∧ face_id f = j / 3
          ∧ he_originVertex h = corner f (j mod 3)
          ∧ he_targetVertex h = corner f ((j mod 3 + 1) mod 3))
  ∧ he_originVertex <$> mesh_halfEdges mesh !! he_next h
    = Some (he_targetVertex h)
  ∧ he_targetVertex <$> mesh_halfEdges mesh !! he_prev h
    = Some (he_originVertex h).
Proof.
  intros Hrun Hh.
  destruct (mesh_halfEdge_ids _ _ _ _ Hrun Hh) as (Hid & Hface & -> & ->).
  destruct (mesh_halfEdge_corners _ _ _ _ Hrun Hh) as (f & Hf & -> & ->).
  split; [done|]. split; [done|].
  pose proof (lookup_lt_Some _ _ _ Hh) as Hj.
  pose proof (nextId_div j) as Hnd. pose proof (prevId_div j) as Hpd.
  rewrite (mesh_halfEdges_length _ _ Hrun) in Hj.
  destruct (lookup_lt_is_Some_2 (mesh_halfEdges mesh) (nextId j)) as [n Hn].
  { rewrite (mesh_halfEdges_length _ _ Hrun).
    pose proof (Nat.div_mod_eq (nextId j) 3).
    pose proof (Nat.mod_upper_bound (nextId j) 3).
    pose proof (Nat.div_mod_eq j 3). pose proof (Nat.mod_upper_bound j 3).
    lia. }
  destruct (lookup_lt_is_Some_2 (mesh_halfEdges mesh) (prevId j)) as [p Hp].
  { rewrite (mesh_halfEdges_length _ _ Hrun).
    pose proof (Nat.div_mod_eq (prevId j) 3).
    pose proof (Nat.mod_upper_bound (prevId j) 3).
    pose proof (Nat.div_mod_eq j 3). pose proof (Nat.mod_upper_bound j 3).
    lia. }
  split.
  { exists f. split_and!; [done| |done..].
    by destruct (mesh_face_fields _ _ _ _ Hrun Hf) as (_ & _ & _ & _ & ? & _). }
  destruct (mesh_halfEdge_corners _ _ _ _ Hrun Hn) as (fn & Hfn & Hon & _).
  destruct (mesh_halfEdge_corners _ _ _ _ Hrun Hp) as (fp & Hfp & _ & Htp).
  rewrite Hnd, Hf in Hfn. injection Hfn as <-.
  rewrite Hpd, Hf in Hfp. injection Hfp as <-.
  rewrite nextId_mod in Hon. rewrite prevId_mod in Htp.
  pose proof (Nat.mod_upper_bound j 3 ltac:(lia)) as Hlt.
  remember (j mod 3) as i. clear Heqi.
  rewrite Hn, Hp. simpl. rewrite Hon, Htp.
  destruct i as [|[|[|i]]]; [by split..|lia].
Qed.

End Guarantees.

(** * The record of a half-edge *)

(** Record [w] of [edges] is the one for the undirected pair of [h]. *)
Definition recordOf (edges : list WingedEdgeData) (h : HalfEdgeData)
    (w : nat) : Prop :=
  ∃ we, edges !! w = Some we
        ∧ weKey we = getEdgeKey (he_originVertex h) (he_targetVertex h).

Lemma weKey_ends (we : WingedEdgeData) (a b : nat) :
  we_startVertex we ≤ we_endVertex we →
  weKey we = getEdgeKey a b →
  we_startVertex we = a `min` b ∧ we_endVertex we = a `max` b.
Proof.
  unfold weKey. intros Hle [[<- <-]|[<- <-]]%getEdgeKey_inj; lia.
Qed.

Lemma linkSide_found {SM NM : Type → Type}
    `{∀ A, Lookup string A (SM A), ∀ A, Lookup nat A (NM A)}
    (heLookup : SM nat) (tempHalfEdges : list TempHalfEdge)
    (heToWeMap : NM nat)
    (set_succ set_pred : Z → WingedEdgeData → WingedEdgeData)
    (a b t wn wp : nat) (he : TempHalfEdge) (we : WingedEdgeData) :
  heLookup !! dirKey a b = Some t →
  tempHalfEdges !! t = Some he →
  heToWeMap !! t_next he = Some wn →
  heToWeMap !! t_prev he = Some wp →
  linkSide heLookup tempHalfEdges heToWeMap set_succ set_pred a b we
  = Some (set_pred (Z.of_nat wp) (set_succ (Z.of_nat wn) we)).
Proof.
  unfold linkSide. intros -> -> Hn Hp. simpl. by rewrite Hn, Hp.
Qed.

Section EdgeRecords.
Context {num : Type} `{JSNumber num}.
Context {SM : Type → Type}
  `{FMap SM, ∀ A, Lookup string A (SM A), ∀ A, Empty (SM A),
    ∀ A, PartialAlter string A (SM A), OMap SM, Merge SM,
    ∀ A, MapFold string A (SM A)} `{!FinMap string SM}.
Context {NM : Type → Type}
  `{FMap NM, ∀ A, Lookup nat A (NM A), ∀ A, Empty (NM A),
    ∀ A, PartialAlter nat A (NM A), OMap NM, Merge NM,
    ∀ A, MapFold nat A (NM A)} `{!FinMap nat NM}.

(** The last half-edge running [a → b] in a linked table, seen in the
    table of the output. *)
Lemma lastRun_linked (faces : list FaceData) (a b : nat) :
  faces_wf faces →
  match lastWhere (runs a b) (linkedHalfEdges (SM:=SM) faces) with
  | Some he =>
      linkedHalfEdges (SM:=SM) faces !! t_id he = Some he
      ∧ lastWithPair (halfEdgesOf (SM:=SM) faces) a b (t_id he)
  | None =>
      ∀ g, g ∈ halfEdgesOf (SM:=SM) faces →
           ¬ (he_originVertex g = a ∧ he_targetVertex g = b)
  end.
Proof.
  intros Hwf.
  destruct (lastWhere (runs a b) _) as [he|] eqn:Hl.
  - apply lastWhere_Some in Hl as ([Ha Hb] & i & Hi & Hmax).
    rewrite (linked_ids _ _ _ Hwf Hi). split; [done|]. split.
    + exists (toHalfEdge he). unfold halfEdgesOf.
      by rewrite list_lookup_fmap, Hi.
    + intros j g Hg Hga Hgb. unfold halfEdgesOf in Hg.
      rewrite list_lookup_fmap in Hg.
      destruct (linkedHalfEdges (SM:=SM) faces !! j) as [he'|] eqn:Hj; [|done].
      injection Hg as <-. apply (Hmax j he' Hj). by split.
  - intros g Hg [Hga Hgb]. unfold halfEdgesOf in Hg.
    apply list_elem_of_fmap in Hg as (he & -> & Hin).
    by apply (proj1 (lastWhere_None (runs a b) _) Hl he Hin).
Qed.

(** What the two passes leave in the edge table, in terms of the
    half-edge table of the output. *)
Lemma mesh_edge_table (geometry : BufferGeometry num)
    (mesh : ProcessedMesh num) :
  analyzeGeometry (SM:=SM) (NM:=NM) geometry = Some mesh →
  let halfEdges := mesh_halfEdges mesh in
  let edges := mesh_edges mesh in
  (∀ i j we we', edges !! i = Some we → edges !! j = Some we' →
     weKey we = weKey we' → i = j)
  ∧ (∀ j h, halfEdges !! j = Some h → ∃ w, recordOf edges h w)
  ∧ (∀ i we, edges !! i = Some we →
       let s := we_startVertex we in
       let e := we_endVertex we in
       s ≤ e
       ∧ (∀ t k, lastWithPair halfEdges s e t → faceOf halfEdges t = Some k →
            we_faceLeft we = Z.of_nat k)
       ∧ ((∀ g, g ∈ halfEdges →
             ¬ (he_originVertex g = s ∧ he_targetVertex g = e)) →
          we_faceLeft we = (-1)%Z)
       ∧ (∀ t k, s ≠ e →
            lastWithPair halfEdges e s t → faceOf halfEdges t = Some k →
            we_faceRight we = Z.of_nat k)
       ∧ (s = e ∨ (∀ g, g ∈ halfEdges →
                     ¬ (he_originVertex g = e ∧ he_targetVertex g = s)) →
          we_faceRight we = (-1)%Z)
       ∧ (∀ t h n p wn wp,
            lastWithPair halfEdges s e t → halfEdges !! t = Some h →
            halfEdges !! he_next h = Some n →
            halfEdges !! he_prev h = Some p →
            recordOf edges n wn → recordOf edges p wp →
            we_succLeft we = Z.of_nat wn ∧ we_predLeft we = Z.of_nat wp)
       ∧ (∀ t h n p wn wp,
            lastWithPair halfEdges e s t → halfEdges !! t = Some h →
            halfEdges !! he_next h = Some n →
            halfEdges !! he_prev h = Some p →
            recordOf edges n wn → recordOf edges p wp →
            we_succRight we = Z.of_nat wn ∧ we_predRight we = Z.of_nat wp)).
Proof.
  intros (pis & vs & um & faces & wes & ekm & h2w & Hmerge & Hfaces & Hv & _
          & Hhes & _ & _ & Hinv & Hfull & Hlen & Hedges)%output_tables.
  cbn zeta. rewrite Hhes.
  destruct Hinv as (Hmap & Hok & Hseen).
  destruct Hfull as (Hsides & Hh2w & _).
  pose proof (proj1 Hv) as Hwf.
  set (lk := buildHeLookup (SM:=SM) (buildTempHalfEdges faces)) in *.
  set (linked := linkedHalfEdges (SM:=SM) faces) in *.
  assert (Hframe : ∀ i we', mesh_edges mesh !! i = Some we' →
            ∃ we, wes !! i = Some we ∧ linkBoth lk linked h2w we = Some we'
                  ∧ same_frame we we').
  { intros i we' Hi. destruct (Hedges i we' Hi) as (we & Hwe & Hlink).
    exists we. split_and!; [done..|]. by eapply linkBoth_frame. }
  assert (Hkey : ∀ i we', mesh_edges mesh !! i = Some we' →
            ekm !! weKey we' = Some i).
  { intros i we' Hi.
    destruct (Hframe i we' Hi) as (we & Hwe & _ & _ & _ & Hs & He & _).
    apply Hmap. exists we. split; [done|]. unfold weKey. by rewrite Hs, He. }
  assert (Hrec : ∀ j he, linked !! j = Some he →
            ∃ w, h2w !! j = Some w ∧ recordOf (mesh_edges mesh)
                                       (toHalfEdge he) w).
  { intros j he Hj.
    destruct (Hseen he) as [w Hw]; [apply list_elem_of_lookup; eauto|].
    exists w. rewrite (Hh2w j he Hj). split; [done|].
    apply Hmap in Hw as (we & Hwe & Hk).
    destruct (lookup_lt_is_Some_2 (mesh_edges mesh) w) as [we' Hwe'].
    { rewrite Hlen. by eapply lookup_lt_Some. }
    exists we'. split; [done|].
    destruct (Hframe w we' Hwe') as (we0 & Hwe0 & _ & _ & _ & Hs & He & _).
    simplify_eq. unfold weKey in *. by rewrite Hs, He. }
  assert (Hrec1 : ∀ w w' h, recordOf (mesh_edges mesh) h w →
            recordOf (mesh_edges mesh) h w' → w = w').
  { intros w w' h (we & Hwe & Hk) (we' & Hwe' & Hk').
    apply Hkey in Hwe, Hwe'. congruence. }
  split_and!.
  - intros i j we we' Hi Hj Hk. apply Hkey in Hi, Hj. congruence.
  - intros j h Hh. unfold halfEdgesOf in Hh. rewrite list_lookup_fmap in Hh.
    fold linked in Hh. destruct (linked !! j) as [he|] eqn:Hj; [|done].
    injection Hh as <-. destruct (Hrec j he Hj) as (w & _ & ?). eauto.
  - intros i we' Hi.
    destruct (Hframe i we' Hi)
      as (we & Hwe & Hlink & _ & _ & Hs & He & HfL & HfR).
    destruct (Hok i we Hwe) as (_ & Hle & _).
    destruct (Hsides i we Hwe) as [HL HR].
    rewrite HfL, HfR, Hs, He.
    unfold leftFaceAfter in HL. unfold rightFaceAfter in HR.
    pose proof (lastRun_linked faces (we_startVertex we) (we_endVertex we) Hwf)
      as HrunL.
    pose proof (lastRun_linked faces (we_endVertex we) (we_startVertex we) Hwf)
      as HrunR.
    fold linked in HrunL, HrunR.
    assert (Hface : ∀ t k he, linked !! t = Some he →
              faceOf (halfEdgesOf (SM:=SM) faces) t = Some k → t_face he = k).
    { intros t k he Ht. unfold faceOf, halfEdgesOf.
      rewrite list_lookup_fmap. fold linked. rewrite Ht. simpl. congruence. }
    assert (Hwing : ∀ a b t h n p wn wp,
      lastWithPair (halfEdgesOf (SM:=SM) faces) a b t →
      halfEdgesOf (SM:=SM) faces !! t = Some h →
      halfEdgesOf (SM:=SM) faces !! he_next h = Some n →
      halfEdgesOf (SM:=SM) faces !! he_prev h = Some p →
      recordOf (mesh_edges mesh) n wn → recordOf (mesh_edges mesh) p wp →
      ∀ set_succ set_pred w,
        linkSide lk linked h2w set_succ set_pred a b w
        = Some (set_pred (Z.of_nat wp) (set_succ (Z.of_nat wn) w))).
    { intros a b t h n p wn wp Hlast Ht Hn Hp Hwn Hwp set_succ set_pred w.
      apply (heLookup_lastWithPair (SM:=SM)) in Hlast; [|done].
      unfold halfEdgesOf in Ht, Hn, Hp. rewrite list_lookup_fmap in Ht, Hn, Hp.
      fold linked in Ht, Hn, Hp.
      destruct (linked !! t) as [he|] eqn:Hhe; [|done]. injection Ht as <-.
      simpl in Hn, Hp.
      destruct (linked !! t_next he) as [hn|] eqn:Hhn; [|done].
      destruct (linked !! t_prev he) as [hp|] eqn:Hhp; [|done].
      injection Hn as <-. injection Hp as <-.
      destruct (Hrec _ _ Hhn) as (wn' & Hwn' & Hrn).
      destruct (Hrec _ _ Hhp) as (wp' & Hwp' & Hrp).
      rewrite (Hrec1 _ _ _ Hwn Hrn), (Hrec1 _ _ _ Hwp Hrp).
      by eapply linkSide_found. }
    split; [done|]. split_and!.
    + intros t k Hlast Hk.
      destruct (lastWhere (runs (we_startVertex we) (we_endVertex we)) linked)
        as [he|]; simpl in HL.
      * destruct HrunL as [Hhe Hlast'].
        rewrite <-(lastWithPair_unique _ _ _ _ _ Hlast Hlast') in Hhe.
        by rewrite HL, (Hface _ _ _ Hhe Hk).
      * destruct Hlast as [(g & Hg & ? & ?) _].
        destruct (HrunL g); [apply list_elem_of_lookup; eauto|done].
    + intros Hno.
      destruct (lastWhere (runs (we_startVertex we) (we_endVertex we)) linked)
        as [he|]; simpl in HL; [|done].
      destruct HrunL as [_ [(g & Hg & ? & ?) _]].
      destruct (Hno g); [apply list_elem_of_lookup; eauto|done].
    + intros t k Hne Hlast Hk. rewrite decide_False in HR by done.
      destruct (lastWhere (runs (we_endVertex we) (we_startVertex we)) linked)
        as [he|]; simpl in HR.
      * destruct HrunR as [Hhe Hlast'].
        rewrite <-(lastWithPair_unique _ _ _ _ _ Hlast Hlast') in Hhe.
        by rewrite HR, (Hface _ _ _ Hhe Hk).
      * destruct Hlast as [(g & Hg & ? & ?) _].
        destruct (HrunR g); [apply list_elem_of_lookup; eauto|done].
    + intros Hno.
      destruct (decide (we_startVertex we = we_endVertex we)); [done|].
      destruct Hno as [?|Hno]; [done|].
      destruct (lastWhere (runs (we_endVertex we) (we_startVertex we)) linked)
        as [he|]; simpl in HR; [|done].
      destruct HrunR as [_ [(g & Hg & ? & ?) _]].
      destruct (Hno g); [apply list_elem_of_lookup; eauto|done].
    + intros t h n p wn wp Hlast Ht Hn Hp Hwn Hwp.
      unfold linkBoth in Hlink.
      rewrite (Hwing _ _ _ _ _ _ _ _ Hlast Ht Hn Hp Hwn Hwp) in Hlink.
      simpl in Hlink.
      by apply linkSide_right in Hlink as (_ & -> & -> & _).
    + intros t h n p wn wp Hlast Ht Hn Hp Hwn Hwp.
      unfold linkBoth in Hlink.
      destruct (linkSide lk linked h2w set_succLeft set_predLeft _ _ we)
        as [we1|] eqn:Hl; [|done].
      simpl in Hlink.
      apply linkSide_left in Hl as ((_ & _ & Hs1 & He1 & _) & _).
      rewrite Hs1, He1 in Hlink.
      rewrite (Hwing _ _ _ _ _ _ _ _ Hlast Ht Hn Hp Hwn Hwp) in Hlink.
      by injection Hlink as <-.
Qed.

End EdgeRecords.

Section References.
Context {num : Type} `{JSNumber num}.
Context {SM : Type → Type}
  `{FMap SM, ∀ A, Lookup string A (SM A), ∀ A, Empty (SM A),
    ∀ A, PartialAlter string A (SM A), OMap SM, Merge SM,
    ∀ A, MapFold string A (SM A)} `{!FinMap string SM}.
Context {NM : Type → Type}
  `{FMap NM, ∀ A, Lookup nat A (NM A), ∀ A, Empty (NM A),
    ∀ A, PartialAlter nat A (NM A), OMap NM, Merge NM,
    ∀ A, MapFold nat A (NM A)} `{!FinMap nat NM}.

(** X6.  The twin of a half-edge is the last half-edge that runs the
    opposite way; a half-edge has no twin exactly when none does. *)
Theorem twin_is_last_reverse (geometry : BufferGeometry num)
    (mesh : ProcessedMesh num) (j : nat) (h : HalfEdgeData) :
  analyzeGeometry (SM:=SM) (NM:=NM) geometry = Some mesh →
  mesh_halfEdges mesh !! j = Some h →
  match he_twin h with
  | Some t =>
      lastWithPair (mesh_halfEdges mesh)
                   (he_targetVertex h) (he_originVertex h) t
  | None =>
      ∀ g, g ∈ mesh_halfEdges mesh →
           ¬ (he_originVertex g = he_targetVertex h
              ∧ he_targetVertex g = he_originVertex h)
  end.
Proof.
  intros (faces & Hwf & ->)%analyzeGeometry_halfEdges Hh.
  rewrite (halfEdgesOf_twin faces j h Hwf Hh).
  destruct (buildHeLookup _ !! _) as [t|] eqn:Hlk.
  - by apply (heLookup_lastWithPair (SM:=SM)).
  - intros g Hg. by eapply (heLookup_no_pair (SM:=SM)).
Qed.

(** X7.  Every vertex refers to an outgoing half-edge: the last
    half-edge of the table that starts at it. *)
Theorem vertex_incidentHalfEdge_last (geometry : BufferGeometry num)
    (mesh : ProcessedMesh num) (a : nat) (v : VertexData num) :
  analyzeGeometry (SM:=SM) (NM:=NM) geometry = Some mesh →
  mesh_vertices mesh !! a = Some v →
  ∃ j h, vertex_incidentHalfEdge v = Some j
         ∧ mesh_halfEdges mesh !! j = Some h
         ∧ he_originVertex h = a
         ∧ ∀ j' h', mesh_halfEdges mesh !! j' = Some h' →
                    he_originVertex h' = a → j' ≤ j.
Proof.
  intros Hrun Hv.
  destruct (mesh_vertex_fields _ _ _ _ Hrun Hv)
    as (_ & _ & _ & _ & _ & _ & _ & _ & _ & _ & -> & _).
  pose proof (lastWhere_by_id (λ h, he_originVertex h = a) he_id
                (mesh_halfEdges mesh)
                (λ j x Hx, proj1 (mesh_halfEdge_ids _ _ j x Hrun Hx))) as Hlast.
  destruct (he_id <$> lastWhere _ _) as [j|].
  - destruct Hlast as (h & ? & ? & ?). by exists j, h.
  - destruct (vertex_has_outgoing _ _ a Hrun) as (h & Hin & Ho).
    { by eapply lookup_lt_Some. }
    by destruct (Hlast h Hin).
Qed.

(** X8.  Every face refers to its third half-edge, the one from its
    third corner back to its first. *)
Theorem face_incidentHalfEdge_third (geometry : BufferGeometry num)
    (mesh : ProcessedMesh num) (k : nat) (f : FaceData) :
  analyzeGeometry (SM:=SM) (NM:=NM) geometry = Some mesh →
  mesh_faces mesh !! k = Some f →
  face_incidentHalfEdge f = Some (k * 3 + 2)
  ∧ ∃ h, mesh_halfEdges mesh !! (k * 3 + 2) = Some h
         ∧ he_face h = k
         ∧ he_originVertex h = face_v3 f ∧ he_targetVertex h = face_v1 f.
Proof.
  intros Hrun Hf.
  destruct (mesh_face_fields _ _ _ _ Hrun Hf)
    as (_ & _ & _ & _ & _ & _ & _ & _ & -> & _).
  destruct (lookup_lt_is_Some_2 (mesh_halfEdges mesh) (k * 3 + 2)) as [h Hh].
  { rewrite (mesh_halfEdges_length _ _ Hrun).
    apply lookup_lt_Some in Hf. lia. }
  destruct (mesh_halfEdge_ids _ _ _ _ Hrun Hh) as (_ & Hface & _).
  destruct (divmod3 k 2) as [Hd Hm]; [lia|]. rewrite Hd in Hface.
  split.
  - pose proof (lastWhere_by_id (λ h, he_face h = k) he_id
                (mesh_halfEdges mesh)
                (λ j x Hx, proj1 (mesh_halfEdge_ids _ _ j x Hrun Hx)))
      as Hlast.
    destruct (he_id <$> lastWhere _ _) as [j|].
    + destruct Hlast as (x & Hx & Hk & Hmax).
      destruct (mesh_halfEdge_ids _ _ _ _ Hrun Hx) as (_ & Hxf & _).
      pose proof (Hmax _ _ Hh Hface).
      pose proof (Nat.div_mod_eq j 3).
      pose proof (Nat.mod_upper_bound j 3). f_equal. lia.
    + destruct (Hlast h); [apply list_elem_of_lookup; eauto|done].
  - exists h. split; [done|]. split; [done|].
    destruct (mesh_halfEdge_corners _ _ _ _ Hrun Hh) as (f' & Hf' & -> & ->).
    rewrite Hd, Hf in Hf'. injection Hf' as <-. by rewrite Hm.
Qed.

(** X9.  The edge table has exactly one record for each undirected
    pair of endpoints that a half-edge joins: two records never have
    the same endpoints, and every half-edge has its record, whose start
    is the smaller and whose end is the larger of its two vertices. *)
Theorem one_record_per_pair (geometry : BufferGeometry num)
    (mesh : ProcessedMesh num) :
  analyzeGeometry (SM:=SM) (NM:=NM) geometry = Some mesh →
  (∀ i j we we',
     mesh_edges mesh !! i = Some we → mesh_edges mesh !! j = Some we' →
     we_startVertex we = we_startVertex we' →
     we_endVertex we = we_endVertex we' → i = j)
  ∧ (∀ j h, mesh_halfEdges mesh !! j = Some h →
       ∃ w we, mesh_edges mesh !! w = Some we ∧ we_id we = w
         ∧ we_startVertex we = he_originVertex h `min` he_targetVertex h
         ∧ we_endVertex we = he_originVertex h `max` he_targetVertex h).
Proof.
  intros Hrun.
  destruct (mesh_edge_table _ _ Hrun) as (Hinj & Hcov & Hrec). split.
  - intros i j we we' Hi Hj Hs He. apply (Hinj i j we we' Hi Hj).
    unfold weKey. by rewrite Hs, He.
  - intros j h Hh. destruct (Hcov j h Hh) as (w & we & Hwe & Hk).
    exists w, we. split; [done|]. split; [by eapply mesh_edge_ids|].
    destruct (Hrec w we Hwe) as (Hle & _). by apply weKey_ends.
Qed.

(** X10.  The left face of a record is the face of the last half-edge
    running from its start to its end, and -1 when there is none; the
    right face is the face of the last half-edge running from its end
    to its start when the two ends differ, and -1 otherwise. *)
Theorem face_sides_last (geometry : BufferGeometry num)
    (mesh : ProcessedMesh num) (i : nat) (we : WingedEdgeData) :
  analyzeGeometry (SM:=SM) (NM:=NM) geometry = Some mesh →
  mesh_edges mesh !! i = Some we →
  let halfEdges := mesh_halfEdges mesh in
  let s := we_startVertex we in
  let e := we_endVertex we in
  (∀ t k, lastWithPair halfEdges s e t → faceOf halfEdges t = Some k →
     we_faceLeft we = Z.of_nat k)
  ∧ ((∀ g, g ∈ halfEdges →
        ¬ (he_originVertex g = s ∧ he_targetVertex g = e)) →
     we_faceLeft we = (-1)%Z)
  ∧ (∀ t k, s ≠ e →
       lastWithPair halfEdges e s t → faceOf halfEdges t = Some k →
       we_faceRight we = Z.of_nat k)
  ∧ (s = e ∨ (∀ g, g ∈ halfEdges →
                ¬ (he_originVertex g = e ∧ he_targetVertex g = s)) →
     we_faceRight we = (-1)%Z).
Proof.
  intros Hrun Hi.
  destruct (mesh_edge_table _ _ Hrun) as (_ & _ & Hrec).
  destruct (Hrec i we Hi) as (_ & ? & ? & ? & ? & _). by split_and!.
Qed.

(** X11.  When a half-edge runs from the start of a record to its end,
    the record's left successor and predecessor are the records of the
    [next] and the [prev] of the last such half-edge; likewise on the
    right for the last half-edge running from end to start. *)
Theorem wing_links (geometry : BufferGeometry num)
    (mesh : ProcessedMesh num) (i : nat) (we : WingedEdgeData) :
  analyzeGeometry (SM:=SM) (NM:=NM) geometry = Some mesh →
  mesh_edges mesh !! i = Some we →
  let halfEdges := mesh_halfEdges mesh in
  let edges := mesh_edges mesh in
  (∀ t h, lastWithPair halfEdges (we_startVertex we) (we_endVertex we) t →
     halfEdges !! t = Some h →
     ∃ n p wn wp,
       halfEdges !! he_next h = Some n ∧ halfEdges !! he_prev h = Some p
       ∧ recordOf edges n wn ∧ recordOf edges p wp
       ∧ we_succLeft we = Z.of_nat wn ∧ we_predLeft we = Z.of_nat wp)
  ∧ (∀ t h, lastWithPair halfEdges (we_endVertex we) (we_startVertex we) t →
       halfEdges !! t = Some h →
       ∃ n p wn wp,
         halfEdges !! he_next h = Some n ∧ halfEdges !! he_prev h = Some p
         ∧ recordOf edges n wn ∧ recordOf edges p wp
         ∧ we_succRight we = Z.of_nat wn ∧ we_predRight we = Z.of_nat wp).
Proof.
  intros Hrun Hi.
  destruct (mesh_edge_table _ _ Hrun) as (_ & Hcov & Hrec).
  destruct (Hrec i we Hi) as (_ & _ & _ & _ & _ & HL & HR).
  assert (Hnp : ∀ t h, mesh_halfEdges mesh !! t = Some h →
            ∃ n p wn wp,
              mesh_halfEdges mesh !! he_next h = Some n
              ∧ mesh_halfEdges mesh !! he_prev h = Some p
              ∧ recordOf (mesh_edges mesh) n wn
              ∧ recordOf (mesh_edges mesh) p wp).
  { intros t h Ht.
    destruct (mesh_halfEdge_ids _ _ _ _ Hrun Ht) as (_ & _ & -> & ->).
    pose proof (lookup_lt_Some _ _ _ Ht) as Hlt.
    rewrite (mesh_halfEdges_length _ _ Hrun) in Hlt.
    pose proof (nextId_div t). pose proof (prevId_div t).
    destruct (lookup_lt_is_Some_2 (mesh_halfEdges mesh) (nextId t)) as [n Hn].
    { rewrite (mesh_halfEdges_length _ _ Hrun).
      pose proof (Nat.div_mod_eq (nextId t) 3).
      pose proof (Nat.mod_upper_bound (nextId t) 3).
      pose proof (Nat.div_mod_eq t 3). pose proof (Nat.mod_upper_bound t 3).
      lia. }
    destruct (lookup_lt_is_Some_2 (mesh_halfEdges mesh) (prevId t)) as [p Hp].
    { rewrite (mesh_halfEdges_length _ _ Hrun).
      pose proof (Nat.div_mod_eq (prevId t) 3).
      pose proof (Nat.mod_upper_bound (prevId t) 3).
      pose proof (Nat.div_mod_eq t 3). pose proof (Nat.mod_upper_bound t 3).
      lia. }
    destruct (Hcov _ _ Hn) as [wn Hwn]. destruct (Hcov _ _ Hp) as [wp Hwp].
    by exists n, p, wn, wp. }
  cbn zeta. split; intros t h Hlast Ht.
  - destruct (Hnp t h Ht) as (n & p & wn & wp & Hn & Hp & Hwn & Hwp).
    exists n, p, wn, wp. split_and!; [done..| |];
      by destruct (HL t h n p wn wp Hlast Ht Hn Hp Hwn Hwp).
  - destruct (Hnp t h Ht) as (n & p & wn & wp & Hn & Hp & Hwn & Hwp).
    exists n, p, wn, wp. split_and!; [done..| |];
      by destruct (HR t h n p wn wp Hlast Ht Hn Hp Hwn Hwp).
Qed.

(** X12.  Every vertex refers to a record of the edge table that has it
    as an endpoint: the last such record. *)
Theorem vertex_incidentEdge_last (geometry : BufferGeometry num)
    (mesh : ProcessedMesh num) (a : nat) (v : VertexData num) :
  analyzeGeometry (SM:=SM) (NM:=NM) geometry = Some mesh →
  mesh_vertices mesh !! a = Some v →
  ∃ w we, vertex_incidentEdge v = Some w
          ∧ mesh_edges mesh !! w = Some we
          ∧ (we_startVertex we = a ∨ we_endVertex we = a)
          ∧ ∀ w' we', mesh_edges mesh !! w' = Some we' →
              we_startVertex we' = a ∨ we_endVertex we' = a → w' ≤ w.
Proof.
  intros Hrun Hv.
  destruct (mesh_vertex_fields _ _ _ _ Hrun Hv)
    as (_ & _ & _ & _ & _ & _ & _ & _ & _ & _ & _ & ->).
  pose proof (lastWhere_by_id (touches a) we_id (mesh_edges mesh)
                (λ j x Hx, mesh_edge_ids _ _ j x Hrun Hx)) as Hlast.
  destruct (we_id <$> lastWhere _ _) as [w|].
  - destruct Hlast as (we & ? & ? & ?). by exists w, we.
  - destruct (vertex_has_outgoing _ _ a Hrun) as (h & Hin & Ho).
    { by eapply lookup_lt_Some. }
    apply list_elem_of_lookup in Hin as [j Hj].
    destruct (mesh_edge_table _ _ Hrun) as (_ & Hcov & Hrec).
    destruct (Hcov j h Hj) as (w & we & Hwe & Hk).
    destruct (Hrec w we Hwe) as (Hle & _).
    destruct (weKey_ends _ _ _ Hle Hk) as [Hs He].
    destruct (Hlast we); [apply list_elem_of_lookup; eauto|].
    unfold touches. lia.
Qed.

(** X13.  A face refers to the last record of the edge table that lists
    it as left or right face, and to none when no record lists it. *)
Theorem face_incidentEdge_last (geometry : BufferGeometry num)
    (mesh : ProcessedMesh num) (k : nat) (f : FaceData) :
  analyzeGeometry (SM:=SM) (NM:=NM) geometry = Some mesh →
  mesh_faces mesh !! k = Some f →
  match face_incidentEdge f with
  | Some w =>
      ∃ we, mesh_edges mesh !! w = Some we
            ∧ (we_faceLeft we = Z.of_nat k ∨ we_faceRight we = Z.of_nat k)
            ∧ ∀ w' we', mesh_edges mesh !! w' = Some we' →
                we_faceLeft we' = Z.of_nat k ∨ we_faceRight we' = Z.of_nat k →
                w' ≤ w
  | None =>
      ∀ we, we ∈ mesh_edges mesh →
            we_faceLeft we ≠ Z.of_nat k ∧ we_faceRight we ≠ Z.of_nat k
  end.
Proof.
  intros Hrun Hf.
  destruct (mesh_face_fields _ _ _ _ Hrun Hf)
    as (_ & _ & _ & _ & _ & _ & _ & _ & _ & ->).
  pose proof (lastWhere_by_id (borders k) we_id (mesh_edges mesh)
                (λ j x Hx, mesh_edge_ids _ _ j x Hrun Hx)) as Hlast.
  destruct (we_id <$> lastWhere _ _) as [w|]; [done|].
  intros we Hin. specialize (Hlast we Hin). unfold borders in Hlast. tauto.
Qed.

Context `{!JSNumberLaws num}.

(** X14.  Every vertex of the output carries the rounded coordinates read
    at a buffer offset the index stream visits. *)
Theorem vertex_positions (geometry : BufferGeometry num)
    (mesh : ProcessedMesh num) (a : nat) (v : VertexData num) :
  analyzeGeometry (SM:=SM) (NM:=NM) geometry = Some mesh →
  mesh_vertices mesh !! a = Some v →
  ∃ i p, bufferOffsets geometry !! i = Some p
         ∧ cornersOf (mesh_faces mesh) !! i = Some a
         ∧ positionOf v = pointAt (geo_positions geometry) p.
Proof.
  intros Hrun Hv.
  destruct (mesh_vertex_fields _ _ _ _ Hrun Hv)
    as (pis & vs & um & v0 & Hmerge & Hv0 & _ & Hx & Hy & Hz & _).
  destruct (mesh_corners _ _ Hrun) as (vs' & um' & Hmerge' & Hlen).
  rewrite Hmerge in Hmerge'. injection Hmerge' as -> <- <-.
  destruct (mesh_discovery _ _ Hrun) as [Hall _].
  destruct (Hall a) as [i Hi]; [by eapply lookup_lt_Some|].
  destruct (merged_bounds _ _ _ _ Hmerge) as [Hpl _].
  destruct (lookup_lt_is_Some_2 (bufferOffsets geometry) i) as [p Hp].
  { rewrite <-Hpl. by eapply lookup_lt_Some. }
  exists i, p. split; [done|]. split; [done|].
  destruct (merged_vertex_coords _ _ _ _ _ _ _ Hmerge Hp Hi)
    as (v1 & Hv1 & _ & Hc).
  simplify_eq. unfold positionOf, pointAt, roundedAt in *.
  rewrite Hx, Hy, Hz. by injection Hc as -> -> ->.
Qed.

(** X15.  Corner [c] of face [k] is the vertex that carries the rounded
    coordinates of the buffer position entry [3k + c] of the stream
    refers to. *)
Theorem face_corner_positions (geometry : BufferGeometry num)
    (mesh : ProcessedMesh num) (k c : nat) (f : FaceData) :
  analyzeGeometry (SM:=SM) (NM:=NM) geometry = Some mesh →
  mesh_faces mesh !! k = Some f →
  c < 3 →
  face_id f = k
  ∧ ∃ p v, bufferOffsets geometry !! (k * 3 + c) = Some p
           ∧ mesh_vertices mesh !! corner f c = Some v
           ∧ positionOf v = pointAt (geo_positions geometry) p.
Proof.
  intros Hrun Hf Hc.
  destruct (mesh_face_fields _ _ _ _ Hrun Hf)
    as (pis & vs & um & Hmerge & Hid & H1' & H2' & H3' & _).
  split; [done|].
  assert (Hi : pis !! (k * 3 + c) = Some (corner f c)).
  { destruct c as [|[|[|c]]]; simpl; [|done|done|lia].
    by rewrite Nat.add_0_r. }
  destruct (merged_bounds _ _ _ _ Hmerge) as [Hpl Hb].
  destruct (lookup_lt_is_Some_2 (bufferOffsets geometry) (k * 3 + c))
    as [p Hp].
  { rewrite <-Hpl. by eapply lookup_lt_Some. }
  destruct (merged_vertex_coords _ _ _ _ _ _ _ Hmerge Hp Hi)
    as (v0 & Hv0 & _ & Hco).
  destruct (mesh_lengths _ _ Hrun) as (pis' & vs' & um' & Hmerge' & _ & Hvl & _).
  rewrite Hmerge in Hmerge'. injection Hmerge' as <- <- <-.
  destruct (lookup_lt_is_Some_2 (mesh_vertices mesh) (corner f c)) as [v Hv].
  { rewrite Hvl. by eapply lookup_lt_Some. }
  exists p, v. split; [done|]. split; [done|].
  destruct (mesh_vertex_fields _ _ _ _ Hrun Hv)
    as (pis' & vs' & um' & v0' & Hmerge' & Hv0' & _ & Hx & Hy & Hz & _).
  rewrite Hmerge in Hmerge'. injection Hmerge' as <- <- <-.
  simplify_eq. unfold positionOf, pointAt, roundedAt in *.
  rewrite Hx, Hy, Hz. by injection Hco as -> -> ->.
Qed.

(** X16.  Soup triangle [k] has id [k] and, as its three points, the
    rounded buffer positions that entries [3k], [3k + 1] and [3k + 2]
    of the stream refer to; merging changes none of them. *)
Theorem soup_triangle_positions (geometry : BufferGeometry num)
    (mesh : ProcessedMesh num) (k : nat) (t : SoupTriangleData num) :
  analyzeGeometry (SM:=SM) (NM:=NM) geometry = Some mesh →
  mesh_soupTriangles mesh !! k = Some t →
  soup_id t = k
  ∧ ∃ p1 p2 p3,
      bufferOffsets geometry !! (k * 3) = Some p1
      ∧ bufferOffsets geometry !! (k * 3 + 1) = Some p2
      ∧ bufferOffsets geometry !! (k * 3 + 2) = Some p3
      ∧ soup_v1 t = pointAt (geo_positions geometry) p1
      ∧ soup_v2 t = pointAt (geo_positions geometry) p2
      ∧ soup_v3 t = pointAt (geo_positions geometry) p3.
Proof.
  intros (pis & vs & um & faces & wes & ekm & h2w & Hmerge & _ & _ & Hsoup
          & _)%output_tables Ht.
  apply mapM_Some_1 in Hsoup.
  destruct (Forall2_lookup_r _ _ _ _ _ Hsoup Ht) as (i & Hi & Hmk).
  apply strides_lookup in Hi as ->.
  unfold mkSoupTriangle in Hmk.
  destruct (pis !! (k * 3)) as [a1|] eqn:Ha1; [|done]. simpl in Hmk.
  destruct (vs !! a1) as [v1|] eqn:Hv1; [|done]. simpl in Hmk.
  destruct (pis !! (k * 3 + 1)) as [a2|] eqn:Ha2; [|done]. simpl in Hmk.
  destruct (vs !! a2) as [v2|] eqn:Hv2; [|done]. simpl in Hmk.
  destruct (pis !! (k * 3 + 2)) as [a3|] eqn:Ha3; [|done]. simpl in Hmk.
  destruct (vs !! a3) as [v3|] eqn:Hv3; [|done]. simpl in Hmk.
  injection Hmk as <-.
  split; [exact (Nat.div_mul k 3 ltac:(lia))|].
  cbn [soup_v1 soup_v2 soup_v3].
  destruct (merged_bounds _ _ _ _ Hmerge) as [Hpl _].
  assert (Hoff : ∀ j a, pis !! j = Some a →
            ∃ p v, bufferOffsets geometry !! j = Some p ∧ vs !! a = Some v
                   ∧ positionOf v = pointAt (geo_positions geometry) p).
  { intros j a Hj.
    destruct (lookup_lt_is_Some_2 (bufferOffsets geometry) j) as [p Hp].
    { rewrite <-Hpl. by eapply lookup_lt_Some. }
    destruct (merged_vertex_coords _ _ _ _ _ _ _ Hmerge Hp Hj)
      as (v & Hv & _ & Hco).
    exists p, v. split; [done|]. split; [done|].
    unfold positionOf, pointAt, roundedAt in *. by injection Hco as -> -> ->. }
  destruct (Hoff _ _ Ha1) as (p1 & ? & Hp1 & ? & ?).
  destruct (Hoff _ _ Ha2) as (p2 & ? & Hp2 & ? & ?).
  destruct (Hoff _ _ Ha3) as (p3 & ? & Hp3 & ? & ?).
  simplify_eq. by exists p1, p2, p3.
Qed.

End References.

(** * The construction view ([App.tsx]) *)

(** [x <= currentStep] for a property that may be missing: [undefined]
    compares false with every number. *)
Definition notAfter (currentStep : Z) (x : option nat) : bool :=
  match x with
  | Some n => bool_decide (Z.of_nat n ≤ currentStep)%Z
  | None => false
  end.

(** [arr.slice(0, e)]; a negative [e] counts from the end. *)
Definition sliceTo {A : Type} (e : Z) (arr : list A) : list A :=
  if decide (0 ≤ e)%Z then take (Z.to_nat e) arr
  else take (Z.to_nat (Z.of_nat (length arr) + e)) arr.

(** The largest vertex id the faces mention, [-1] without faces. *)
Definition maxVertIndex (slicedFaces : list FaceData) : Z :=
  foldl (λ m f, Z.max (Z.max (Z.max m (Z.of_nat (face_v1 f)))
                             (Z.of_nat (face_v2 f)))
                      (Z.of_nat (face_v3 f)))
        (-1)%Z slicedFaces.

Section Construction.
Context {num : Type}.
Implicit Types (fullMeshData : ProcessedMesh num) (currentStep : Z).

(** One entry of [slicedVertices].  Reading [createdStep] or [face] of a
    table entry that does not exist throws. *)
Definition sliceVertex fullMeshData currentStep (v : VertexData num)
    : option (VertexData num) :=
  incidentEdge ←
    match vertex_incidentEdge v with
    | Some w =>
        e ← mesh_edges fullMeshData !! w;
        Some (if notAfter currentStep (we_createdStep e)
              then Some w else None)
    | None => Some None
    end;
  incidentHalfEdge ←
    match vertex_incidentHalfEdge v with
    | Some j =>
        he ← mesh_halfEdges fullMeshData !! j;
        Some (if notAfter currentStep (Some (he_face he))
              then Some j else None)
    | None => Some None
    end;
  Some (mkVertex (vertex_id v) (vertex_x v) (vertex_y v) (vertex_z v)
                 incidentEdge incidentHalfEdge).

(** One entry of [slicedHalfEdges]. *)
Definition sliceHalfEdge fullMeshData currentStep (he : HalfEdgeData)
    : option HalfEdgeData :=
  twinIsVisible ←
    match he_twin he with
    | Some t =>
        tw ← mesh_halfEdges fullMeshData !! t;
        Some (notAfter currentStep (Some (he_face tw)))
    | None => Some false
    end;
  Some (mkHalfEdge (he_id he) (he_originVertex he) (he_targetVertex he)
                   (he_face he) (if twinIsVisible : bool then he_twin he else None)
                   (he_next he) (he_prev he)).

Definition checkEdge fullMeshData currentStep (id : Z) : option Z :=
  if decide (id = (-1)%Z) then Some (-1)%Z
  else
    e ← (if decide (0 ≤ id)%Z
         then mesh_edges fullMeshData !! Z.to_nat id else None);
    Some (if notAfter currentStep (we_createdStep e) then id else (-1)%Z).

(** One entry of [slicedEdges]. *)
Definition sliceEdge fullMeshData currentStep (e : WingedEdgeData)
    : option WingedEdgeData :=
  let rightFaceVisible :=
    bool_decide (we_faceRight e ≠ (-1)%Z)
    && bool_decide (we_faceRight e ≤ currentStep)%Z in
  predRight ← (if rightFaceVisible
               then checkEdge fullMeshData currentStep (we_predRight e)
               else Some (-1)%Z);
  succRight ← (if rightFaceVisible
               then checkEdge fullMeshData currentStep (we_succRight e)
               else Some (-1)%Z);
  predLeft ← checkEdge fullMeshData currentStep (we_predLeft e);
  succLeft ← checkEdge fullMeshData currentStep (we_succLeft e);
  Some (mkWingedEdge (we_id e) (we_createdStep e)
          (we_startVertex e) (we_endVertex e) (we_faceLeft e)
          (if rightFaceVisible then we_faceRight e else (-1)%Z)
          predLeft succLeft predRight succRight).

(** The snapshot shown for a mesh that has been computed; [None] is a
    thrown exception.  The engine always fills the three optional
    tables, so their [undefined] branches are not taken. *)
Definition activeMeshData fullMeshData (isConstructionMode : bool)
    currentStep : option (ProcessedMesh num) :=
  if negb isConstructionMode then Some fullMeshData
  else
    let slicedFaces :=
      filter (λ f, (Z.of_nat (face_id f) ≤ currentStep)%Z)
             (mesh_faces fullMeshData) in
    let relevantVertices :=
      sliceTo (maxVertIndex slicedFaces + 1) (mesh_vertices fullMeshData) in
    slicedVertices ← mapM (sliceVertex fullMeshData currentStep)
                          relevantVertices;
    slicedHalfEdges ←
      mapM (sliceHalfEdge fullMeshData currentStep)
           (filter (λ he, (Z.of_nat (he_face he) ≤ currentStep)%Z)
                   (mesh_halfEdges fullMeshData));
    slicedEdges ←
      mapM (sliceEdge fullMeshData currentStep)
           (filter (λ e, notAfter currentStep (we_createdStep e))
                   (mesh_edges fullMeshData));
    Some (mkMesh num slicedVertices slicedFaces
            (sliceTo (currentStep + 1) (mesh_soupTriangles fullMeshData))
            slicedHalfEdges slicedEdges).

(** The playback timer: one tick of the interval, on the step and the
    playing flag. *)
Definition tick fullMeshData (st : Z * bool) : Z * bool :=
  let '(prev, isPlaying) := st in
  if decide (Z.of_nat (length (mesh_faces fullMeshData)) - 1 ≤ prev)%Z
  then (prev, false)
  else ((prev + 1)%Z, isPlaying).

(** The step button. *)
Definition stepForward fullMeshData (prev : Z) : Z :=
  if decide (prev < Z.of_nat (length (mesh_faces fullMeshData)) - 1)%Z
  then (prev + 1)%Z else prev.

(** [toggleConstructionMode], on the mode and the step. *)
Definition toggleConstructionMode fullMeshData (isConstructionMode : bool)
    : bool * Z :=
  let newMode := negb isConstructionMode in
  (newMode,
   if newMode then (-1)%Z
   else Z.of_nat (length (mesh_faces fullMeshData))).

End Construction.

(** * The base mesh of the viewer ([Viewer3D.tsx]) *)

Section Viewer.
Context {num : Type} (fround : num → num).

(** The position buffer: a [Float32Array], so every coordinate is
    stored through the conversion [fround] to single precision. *)
Definition positions (meshData : ProcessedMesh num) : list num :=
  mesh_vertices meshData
    ≫= λ v, [fround (vertex_x v); fround (vertex_y v); fround (vertex_z v)].

Definition indices (meshData : ProcessedMesh num) : list nat :=
  mesh_faces meshData ≫= λ f, [face_v1 f; face_v2 f; face_v3 f].

End Viewer.

(** * Slices of an engine mesh *)

Lemma filter_prefix {A : Type} (P : A → Prop) `{!∀ x, Decision (P x)}
    (l : list A) (n : nat) :
  (∀ j x, l !! j = Some x → P x ↔ j < n) → filter P l = take n l.
Proof.
  revert n. induction l as [|x l IH]; intros n Hp; [by destruct n|].
  rewrite filter_cons. destruct n as [|n].
  - rewrite decide_False by (rewrite (Hp 0 x eq_refl); lia).
    rewrite (IH 0); [by destruct l|].
    intros j y Hj. rewrite (Hp (S j) y Hj). lia.
  - rewrite decide_True by (rewrite (Hp 0 x eq_refl); lia).
    simpl. f_equal. apply IH.
    intros j y Hj. rewrite (Hp (S j) y Hj). lia.
Qed.

Lemma mapM_lookup {A B : Type} (f : A → option B) (l : list A)
    (l' : list B) :
  mapM f l = Some l' →
  length l' = length l
  ∧ ∀ i y, l' !! i = Some y → ∃ x, l !! i = Some x ∧ f x = Some y.
Proof.
  intros Hm. split; [symmetry; by eapply length_mapM|].
  apply mapM_Some_1 in Hm. intros i y Hy.
  destruct (Forall2_lookup_r _ _ _ _ _ Hm Hy) as (x & ? & ?). eauto.
Qed.

Lemma cornersOf_take (faces : list FaceData) (m : nat) :
  cornersOf (take m faces) = take (m * 3) (cornersOf faces).
Proof.
  revert m. induction faces as [|f faces IH]; intros m.
  - by destruct m.
  - destruct m as [|m]; [done|].
    change (cornersOf (take (S m) (f :: faces)))
      with (face_v1 f :: face_v2 f :: face_v3 f :: cornersOf (take m faces)).
    by rewrite IH.
Qed.

Lemma maxVertIndex_snoc (fs : list FaceData) (f : FaceData) :
  maxVertIndex (fs ++ [f])
  = Z.max (Z.max (Z.max (maxVertIndex fs) (Z.of_nat (face_v1 f)))
                 (Z.of_nat (face_v2 f)))
          (Z.of_nat (face_v3 f)).
Proof. unfold maxVertIndex. by rewrite foldl_snoc. Qed.

(** [maxVertIndex] bounds every corner and, with at least one face, is
    a corner. *)
Lemma maxVertIndex_spec (fs : list FaceData) :
  (∀ a, a ∈ cornersOf fs → (Z.of_nat a ≤ maxVertIndex fs)%Z)
  ∧ (maxVertIndex fs = (-1)%Z ∧ fs = []
     ∨ ∃ a, a ∈ cornersOf fs ∧ maxVertIndex fs = Z.of_nat a).
Proof.
  induction fs as [|f fs [IHle IHin]] using rev_ind.
  - split; [by intros a ?%elem_of_nil|by left].
  - rewrite maxVertIndex_snoc, cornersOf_app.
    assert (Hf : cornersOf [f] = [face_v1 f; face_v2 f; face_v3 f])
      by done.
    rewrite Hf. split.
    + intros a [Ha|Ha]%elem_of_app.
      * specialize (IHle a Ha). lia.
      * apply elem_of_cons in Ha as [->|Ha]; [lia|].
        apply elem_of_cons in Ha as [->|Ha]; [lia|].
        apply list_elem_of_singleton in Ha as ->. lia.
    + right.
      set (M := Z.max (Z.max (Z.max (maxVertIndex fs) (Z.of_nat (face_v1 f)))
                             (Z.of_nat (face_v2 f))) (Z.of_nat (face_v3 f))).
      assert (M = maxVertIndex fs ∧ (0 ≤ maxVertIndex fs)%Z
              ∨ M = Z.of_nat (face_v1 f) ∨ M = Z.of_nat (face_v2 f)
              ∨ M = Z.of_nat (face_v3 f)) as [[HM Hpos]|[HM|[HM|HM]]]
        by (unfold M; destruct IHin as [[-> _]|(a & _ & ->)]; lia).
      * destruct IHin as [[Hneg _]|(a & Ha & Hm)]; [lia|].
        exists a. split; [apply elem_of_app; by left|congruence].
      * exists (face_v1 f). split; [|done].
        apply elem_of_app. right. by left.
      * exists (face_v2 f). split; [|done].
        apply elem_of_app. right. right. by left.
      * exists (face_v3 f). split; [|done].
        apply elem_of_app. right. do 2 right. by left.
Qed.

(** The number of faces shown at a step. *)
Definition shown (currentStep : Z) : nat := Z.to_nat (currentStep + 1).

Section Slices.
Context {num : Type} `{JSNumber num}.
Context {SM : Type → Type}
  `{FMap SM, ∀ A, Lookup string A (SM A), ∀ A, Empty (SM A),
    ∀ A, PartialAlter string A (SM A), OMap SM, Merge SM,
    ∀ A, MapFold string A (SM A)} `{!FinMap string SM}.
Context {NM : Type → Type}
  `{FMap NM, ∀ A, Lookup nat A (NM A), ∀ A, Empty (NM A),
    ∀ A, PartialAlter nat A (NM A), OMap NM, Merge NM,
    ∀ A, MapFold nat A (NM A)} `{!FinMap nat NM}.
Implicit Types (geometry : BufferGeometry num).
Implicit Types (fullMeshData view : ProcessedMesh num) (currentStep : Z).

Lemma mesh_face_ids geometry fullMeshData (k : nat) (f : FaceData) :
  analyzeGeometry (SM:=SM) (NM:=NM) geometry = Some fullMeshData →
  mesh_faces fullMeshData !! k = Some f → face_id f = k.
Proof.
  intros Hrun Hf.
  by destruct (mesh_face_fields _ _ _ _ Hrun Hf) as (_ & _ & _ & _ & ? & _).
Qed.

(** The references of a vertex point into the tables. *)
Lemma mesh_vertex_refs geometry fullMeshData (a : nat) (v : VertexData num) :
  analyzeGeometry (SM:=SM) (NM:=NM) geometry = Some fullMeshData →
  mesh_vertices fullMeshData !! a = Some v →
  vertex_id v = a
  ∧ (∀ w, vertex_incidentEdge v = Some w →
       ∃ we, mesh_edges fullMeshData !! w = Some we
             ∧ we_createdStep we = None)
  ∧ (∀ j, vertex_incidentHalfEdge v = Some j →
       ∃ h, mesh_halfEdges fullMeshData !! j = Some h
            ∧ he_originVertex h = a).
Proof.
  intros Hrun Hv.
  destruct (mesh_vertex_fields _ _ _ _ Hrun Hv)
    as (_ & _ & _ & _ & _ & _ & Hid & _ & _ & _ & HH & HE).
  split; [done|]. split.
  - intros w Hw. rewrite HE in Hw.
    pose proof (lastWhere_by_id (touches a) we_id (mesh_edges fullMeshData)
                  (λ j x Hx, mesh_edge_ids _ _ j x Hrun Hx)) as Hlast.
    rewrite Hw in Hlast. destruct Hlast as (we & Hwe & _).
    exists we. split; [done|].
    by destruct (edge_facts _ _ _ _ Hrun Hwe) as (_ & ? & _).
  - intros j Hj. rewrite HH in Hj.
    pose proof (lastWhere_by_id (λ h, he_originVertex h = a) he_id
                  (mesh_halfEdges fullMeshData)
                  (λ j x Hx, proj1 (mesh_halfEdge_ids _ _ j x Hrun Hx)))
      as Hlast.
    rewrite Hj in Hlast. destruct Hlast as (h & ? & ? & _). eauto.
Qed.

(** A twin is a half-edge of the table. *)
Lemma mesh_twin_bound geometry fullMeshData (j t : nat) (h : HalfEdgeData) :
  analyzeGeometry (SM:=SM) (NM:=NM) geometry = Some fullMeshData →
  mesh_halfEdges fullMeshData !! j = Some h →
  he_twin h = Some t →
  is_Some (mesh_halfEdges fullMeshData !! t).
Proof.
  intros (faces & Hwf & ->)%analyzeGeometry_halfEdges Hh Ht.
  rewrite (halfEdgesOf_twin faces j h Hwf Hh) in Ht.
  apply (heLookup_lastWithPair (SM:=SM)) in Ht as [(g & Hg & _) _];
    [eauto|done].
Qed.

Lemma sliced_faces geometry fullMeshData currentStep :
  analyzeGeometry (SM:=SM) (NM:=NM) geometry = Some fullMeshData →
  filter (λ f, (Z.of_nat (face_id f) ≤ currentStep)%Z)
         (mesh_faces fullMeshData)
  = take (shown currentStep) (mesh_faces fullMeshData).
Proof.
  intros Hrun. apply filter_prefix. intros k f Hf.
  rewrite (mesh_face_ids _ _ _ _ Hrun Hf). unfold shown. lia.
Qed.

Lemma sliced_halfEdges geometry fullMeshData currentStep :
  analyzeGeometry (SM:=SM) (NM:=NM) geometry = Some fullMeshData →
  filter (λ he, (Z.of_nat (he_face he) ≤ currentStep)%Z)
         (mesh_halfEdges fullMeshData)
  = take (shown currentStep * 3) (mesh_halfEdges fullMeshData).
Proof.
  intros Hrun. apply filter_prefix. intros j h Hh.
  destruct (mesh_halfEdge_ids _ _ _ _ Hrun Hh) as (_ & -> & _).
  pose proof (Nat.div_mod_eq j 3). pose proof (Nat.mod_upper_bound j 3).
  unfold shown. lia.
Qed.

Lemma sliced_edges geometry fullMeshData currentStep :
  analyzeGeometry (SM:=SM) (NM:=NM) geometry = Some fullMeshData →
  filter (λ e, notAfter currentStep (we_createdStep e))
         (mesh_edges fullMeshData) = [].
Proof.
  intros Hrun. rewrite (filter_prefix _ _ 0); [by rewrite take_0|].
  intros i we Hwe.
  destruct (edge_facts _ _ _ _ Hrun Hwe) as (_ & -> & _). simpl.
  split; [done|lia].
Qed.

(** The vertices in use by the first [m] faces are a prefix of the
    vertex table. *)
Lemma used_vertices geometry fullMeshData (m : nat) :
  analyzeGeometry (SM:=SM) (NM:=NM) geometry = Some fullMeshData →
  let slicedFaces := take m (mesh_faces fullMeshData) in
  ∃ n, Z.of_nat n = (maxVertIndex slicedFaces + 1)%Z
       ∧ n ≤ length (mesh_vertices fullMeshData)
       ∧ (∀ a, a ∈ cornersOf slicedFaces → a < n)
       ∧ (∀ a, a < n → a ∈ cornersOf slicedFaces).
Proof.
  intros Hrun slicedFaces.
  destruct (mesh_discovery _ _ Hrun) as [_ Hord].
  destruct (maxVertIndex_spec slicedFaces) as [Hle Hin].
  exists (Z.to_nat (maxVertIndex slicedFaces + 1)).
  assert (Hsub : ∀ i a, cornersOf slicedFaces !! i = Some a →
            i < m * 3 ∧ cornersOf (mesh_faces fullMeshData) !! i = Some a).
  { intros i a. unfold slicedFaces. rewrite cornersOf_take.
    intros Hi. pose proof (lookup_lt_Some _ _ _ Hi) as Hlt.
    rewrite length_take in Hlt. rewrite lookup_take_lt in Hi by lia.
    split; [lia|done]. }
  split_and!.
  - destruct Hin as [[-> _]|(a & _ & ->)]; lia.
  - destruct Hin as [[-> _]|(a & [i Hi]%list_elem_of_lookup & ->)]; [simpl; lia|].
    destruct (Hsub i a Hi) as [_ Hfull].
    destruct (Hord i a Hfull) as [? _]. lia.
  - intros a Ha. specialize (Hle a Ha). lia.
  - intros a Ha.
    destruct Hin as [[Hm _]|(b & [i Hi]%list_elem_of_lookup & Hm)];
      [rewrite Hm in Ha; simpl in Ha; lia|].
    rewrite Hm in Ha.
    destruct (decide (a = b)) as [->|Hne];
      [apply list_elem_of_lookup; eauto|].
    destruct (Hsub i b Hi) as [Hlt Hfull].
    destruct (Hord i b Hfull) as [_ Hsm].
    destruct (Hsm a) as (j & Hj & Hja); [lia|].
    apply list_elem_of_lookup. exists j.
    unfold slicedFaces. rewrite cornersOf_take, lookup_take_lt by lia. done.
Qed.

(** The snapshot of an engine mesh, table by table. *)
Lemma slice_shape geometry fullMeshData currentStep :
  analyzeGeometry (SM:=SM) (NM:=NM) geometry = Some fullMeshData →
  ∃ view n,
    activeMeshData fullMeshData true currentStep = Some view
    ∧ mesh_faces view = take (shown currentStep) (mesh_faces fullMeshData)
    ∧ mesh_soupTriangles view
      = sliceTo (currentStep + 1) (mesh_soupTriangles fullMeshData)
    ∧ mesh_edges view = []
    ∧ length (mesh_halfEdges view)
      = length (mesh_faces view) * 3
    ∧ (∀ j h', mesh_halfEdges view !! j = Some h' →
         ∃ h, mesh_halfEdges fullMeshData !! j = Some h
              ∧ sliceHalfEdge fullMeshData currentStep h = Some h')
    ∧ length (mesh_vertices view) = n
    ∧ n ≤ length (mesh_vertices fullMeshData)
    ∧ (∀ a, a ∈ cornersOf (mesh_faces view) → a < n)
    ∧ (∀ a, a < n → a ∈ cornersOf (mesh_faces view))
    ∧ (∀ a v', mesh_vertices view !! a = Some v' →
         ∃ v, mesh_vertices fullMeshData !! a = Some v
              ∧ sliceVertex fullMeshData currentStep v = Some v').
Proof.
  intros Hrun. unfold activeMeshData. simpl negb. cbv iota.
  rewrite (sliced_faces _ _ _ Hrun), (sliced_halfEdges _ _ _ Hrun),
    (sliced_edges _ _ _ Hrun).
  destruct (used_vertices _ _ (shown currentStep) Hrun)
    as (n & Hn & Hnv & Hin & Hall).
  assert (sliceTo (maxVertIndex (take (shown currentStep)
                                      (mesh_faces fullMeshData)) + 1)
                  (mesh_vertices fullMeshData)
          = take n (mesh_vertices fullMeshData)) as ->.
  { unfold sliceTo. rewrite <-Hn. rewrite decide_True by lia.
    by rewrite Nat2Z.id. }
  destruct (mapM_is_Some_2 (sliceVertex fullMeshData currentStep)
              (take n (mesh_vertices fullMeshData))) as [vs' Hvs'].
  { apply Forall_forall. intros v [a Ha]%list_elem_of_lookup.
    apply lookup_take_Some in Ha as [Ha _].
    destruct (mesh_vertex_refs _ _ _ _ Hrun Ha) as (_ & HE & HH).
    change (is_Some (sliceVertex fullMeshData currentStep v)).
    unfold sliceVertex.
    destruct (vertex_incidentEdge v) as [w|].
    - destruct (HE w eq_refl) as (we & -> & _). simpl.
      destruct (vertex_incidentHalfEdge v) as [j|]; [|done].
      by destruct (HH j eq_refl) as (h & -> & _).
    - simpl. destruct (vertex_incidentHalfEdge v) as [j|]; [|done].
      by destruct (HH j eq_refl) as (h & -> & _). }
  destruct (mapM_is_Some_2 (sliceHalfEdge fullMeshData currentStep)
              (take (shown currentStep * 3) (mesh_halfEdges fullMeshData)))
    as [hs' Hhs'].
  { apply Forall_forall. intros h [j Hj]%list_elem_of_lookup.
    apply lookup_take_Some in Hj as [Hj _].
    change (is_Some (sliceHalfEdge fullMeshData currentStep h)).
    unfold sliceHalfEdge. destruct (he_twin h) as [t|] eqn:Ht; [|done].
    by destruct (mesh_twin_bound _ _ _ _ _ Hrun Hj Ht) as [tw ->]. }
  rewrite Hvs', Hhs'. simpl.
  eexists _, n. split; [done|]. simpl.
  destruct (mapM_lookup _ _ _ Hvs') as [Hvl Hvk].
  destruct (mapM_lookup _ _ _ Hhs') as [Hhl Hhk].
  split_and!; try done.
  - rewrite Hhl, !length_take, (mesh_halfEdges_length _ _ Hrun). lia.
  - intros j h' Hj. destruct (Hhk j h' Hj) as (h & [? _]%lookup_take_Some & ?).
    eauto.
  - rewrite Hvl, length_take. lia.
  - intros a v' Ha. destruct (Hvk a v' Ha) as (v & [? _]%lookup_take_Some & ?).
    eauto.
Qed.

End Slices.

(** The reads of [SingleFaceHighlight]: [Some None] when no face has the
    id (the component renders nothing), the three corner vertices
    otherwise; reading a coordinate of a vertex that is not in the table
    throws. *)
Definition SingleFaceHighlight {num : Type} (meshData : ProcessedMesh num)
    (faceId : Z)
    : option (option (VertexData num * VertexData num * VertexData num)) :=
  match head (filter (λ f, Z.of_nat (face_id f) = faceId)
                     (mesh_faces meshData)) with
  | None => Some None
  | Some f =>
      v1 ← mesh_vertices meshData !! face_v1 f;
      v2 ← mesh_vertices meshData !! face_v2 f;
      v3 ← mesh_vertices meshData !! face_v3 f;
      Some (Some (v1, v2, v3))
  end.

(** [activeFaceHighlight]: the id of the face to highlight, if any. *)
Definition activeFaceHighlight (isConstructionMode : bool) (currentStep : Z)
    : option Z :=
  if isConstructionMode && bool_decide (0 ≤ currentStep)%Z
  then Some currentStep else None.

Lemma sliceHalfEdge_fields {num : Type} (fullMeshData : ProcessedMesh num)
    (currentStep : Z) (h h' : HalfEdgeData) :
  sliceHalfEdge fullMeshData currentStep h = Some h' →
  he_id h' = he_id h ∧ he_originVertex h' = he_originVertex h
  ∧ he_targetVertex h' = he_targetVertex h ∧ he_face h' = he_face h
  ∧ he_next h' = he_next h ∧ he_prev h' = he_prev h
  ∧ (∀ t, he_twin h' = Some t ↔
       he_twin h = Some t
       ∧ ∃ tw, mesh_halfEdges fullMeshData !! t = Some tw
               ∧ (Z.of_nat (he_face tw) ≤ currentStep)%Z).
Proof.
  unfold sliceHalfEdge, notAfter. destruct (he_twin h) as [t|].
  - destruct (mesh_halfEdges fullMeshData !! t) as [tw|] eqn:Ht; [|done].
    simpl. intros [= <-]. simpl. split_and!; try done.
    intros t'. case_bool_decide as Hvis; split.
    + intros [= <-]. eauto.
    + by intros [? _].
    + done.
    + intros [[= <-] (tw' & Htw' & ?)]. by simplify_eq.
  - simpl. intros [= <-]. simpl. split_and!; try done.
    intros t. split; [done|by intros [? _]].
Qed.

Lemma sliceVertex_fields {num : Type} (fullMeshData : ProcessedMesh num)
    (currentStep : Z) (v v' : VertexData num) :
  sliceVertex fullMeshData currentStep v = Some v' →
  vertex_id v' = vertex_id v ∧ vertex_x v' = vertex_x v
  ∧ vertex_y v' = vertex_y v ∧ vertex_z v' = vertex_z v
  ∧ (∀ w, vertex_incidentEdge v' = Some w ↔
       vertex_incidentEdge v = Some w
       ∧ ∃ e, mesh_edges fullMeshData !! w = Some e
              ∧ notAfter currentStep (we_createdStep e))
  ∧ (∀ j, vertex_incidentHalfEdge v' = Some j ↔
       vertex_incidentHalfEdge v = Some j
       ∧ ∃ he, mesh_halfEdges fullMeshData !! j = Some he
               ∧ (Z.of_nat (he_face he) ≤ currentStep)%Z).
Proof.
  unfold sliceVertex.
  change (notAfter currentStep (Some ?n))
    with (bool_decide (Z.of_nat n ≤ currentStep)%Z).
  destruct (vertex_incidentEdge v) as [w|]; simpl.
  - destruct (mesh_edges fullMeshData !! w) as [e|] eqn:He; [|done]. simpl.
    destruct (vertex_incidentHalfEdge v) as [j|]; simpl.
    + destruct (mesh_halfEdges fullMeshData !! j) as [he|] eqn:Hhe; [|done].
      simpl. intros [= <-]. simpl. split_and!; try done.
      * intros w'. destruct (notAfter _ (we_createdStep e)) eqn:Hvis; split.
        -- intros [= <-]. split; [done|]. exists e. by rewrite Hvis.
        -- by intros [? _].
        -- done.
        -- intros [[= <-] (e' & He' & Hvis')]. simplify_eq.
           by rewrite Hvis in Hvis'.
      * intros j'. case_bool_decide as Hvis; split.
        -- intros [= <-]. eauto.
        -- by intros [? _].
        -- done.
        -- intros [[= <-] (he' & Hhe' & ?)]. by simplify_eq.
    + intros [= <-]. simpl. split_and!; try done.
      * intros w'. destruct (notAfter _ (we_createdStep e)) eqn:Hvis; split.
        -- intros [= <-]. split; [done|]. exists e. by rewrite Hvis.
        -- by intros [? _].
        -- done.
        -- intros [[= <-] (e' & He' & Hvis')]. simplify_eq.
           by rewrite Hvis in Hvis'.
      * intros j'. split; [done|by intros [? _]].
  - destruct (vertex_incidentHalfEdge v) as [j|]; simpl.
    + destruct (mesh_halfEdges fullMeshData !! j) as [he|] eqn:Hhe; [|done].
      simpl. intros [= <-]. simpl. split_and!; try done.
      * intros w'. split; [done|by intros [? _]].
      * intros j'. case_bool_decide as Hvis; split.
        -- intros [= <-]. eauto.
        -- by intros [? _].
        -- done.
        -- intros [[= <-] (he' & Hhe' & ?)]. by simplify_eq.
    + intros [= <-]. simpl. split_and!; try done.
      * intros w'. split; [done|by intros [? _]].
      * intros j'. split; [done|by intros [? _]].
Qed.

Section Views.
Context {num : Type} `{JSNumber num}.
Context {SM : Type → Type}
  `{FMap SM, ∀ A, Lookup string A (SM A), ∀ A, Empty (SM A),
    ∀ A, PartialAlter string A (SM A), OMap SM, Merge SM,
    ∀ A, MapFold string A (SM A)} `{!FinMap string SM}.
Context {NM : Type → Type}
  `{FMap NM, ∀ A, Lookup nat A (NM A), ∀ A, Empty (NM A),
    ∀ A, PartialAlter nat A (NM A), OMap NM, Merge NM,
    ∀ A, MapFold nat A (NM A)} `{!FinMap nat NM}.
Implicit Types (geometry : BufferGeometry num).
Implicit Types (fullMeshData view : ProcessedMesh num) (currentStep : Z).

(** X17.  On a mesh of the engine the snapshot is computed without an
    exception, in either mode and at every step. *)
Theorem activeMeshData_never_throws geometry fullMeshData
    (isConstructionMode : bool) currentStep :
  analyzeGeometry (SM:=SM) (NM:=NM) geometry = Some fullMeshData →
  is_Some (activeMeshData fullMeshData isConstructionMode currentStep).
Proof.
  intros Hrun. destruct isConstructionMode; [|done].
  destruct (slice_shape _ _ currentStep Hrun) as (view & n & -> & _). done.
Qed.

(** X18.  From step -1 on, the construction view shows the first
    [currentStep + 1] faces and the first [currentStep + 1] soup
    triangles of the mesh, or all of them when there are fewer. *)
Theorem view_shows_first_faces geometry fullMeshData view currentStep :
  analyzeGeometry (SM:=SM) (NM:=NM) geometry = Some fullMeshData →
  (-1 ≤ currentStep)%Z →
  activeMeshData fullMeshData true currentStep = Some view →
  mesh_faces view
  = take (Z.to_nat (currentStep + 1)) (mesh_faces fullMeshData)
  ∧ mesh_soupTriangles view
    = take (Z.to_nat (currentStep + 1)) (mesh_soupTriangles fullMeshData)
  ∧ length (mesh_soupTriangles view) = length (mesh_faces view).
Proof.
  intros Hrun Hstep Hview.
  destruct (slice_shape _ _ currentStep Hrun)
    as (view' & n & Hview' & Hf & Hs & _).
  rewrite Hview in Hview'. injection Hview' as <-.
  assert (Hs' : mesh_soupTriangles view
                = take (Z.to_nat (currentStep + 1))
                       (mesh_soupTriangles fullMeshData)).
  { rewrite Hs. unfold sliceTo. by rewrite decide_True by lia. }
  split; [done|]. split; [done|].
  rewrite Hs', Hf, !length_take. unfold shown.
  destruct (mesh_lengths _ _ Hrun) as (_ & _ & _ & _ & _ & _ & _ & -> & _).
  done.
Qed.

(** X19.  The construction view is a closed indexed mesh: its vertex
    table is a prefix of the full one, with ids and coordinates
    unchanged; every corner of a face shown is in it, and every vertex
    in it is a corner of a face shown. *)
Theorem view_vertices_in_use geometry fullMeshData view currentStep :
  analyzeGeometry (SM:=SM) (NM:=NM) geometry = Some fullMeshData →
  activeMeshData fullMeshData true currentStep = Some view →
  (∀ a v', mesh_vertices view !! a = Some v' →
     ∃ v, mesh_vertices fullMeshData !! a = Some v
          ∧ vertex_id v' = a ∧ positionOf v' = positionOf v)
  ∧ (∀ f, f ∈ mesh_faces view →
       face_v1 f < length (mesh_vertices view)
       ∧ face_v2 f < length (mesh_vertices view)
       ∧ face_v3 f < length (mesh_vertices view))
  ∧ (∀ a, a < length (mesh_vertices view) →
       ∃ f, f ∈ mesh_faces view
            ∧ (face_v1 f = a ∨ face_v2 f = a ∨ face_v3 f = a)).
Proof.
  intros Hrun Hview.
  destruct (slice_shape _ _ currentStep Hrun)
    as (view' & n & Hview' & Hf & _ & _ & _ & _ & Hn & _ & Hin & Hall & Hvs).
  rewrite Hview in Hview'. injection Hview' as <-.
  rewrite Hn. split_and!.
  - intros a v' Ha. destruct (Hvs a v' Ha) as (v & Hv & Hsl).
    exists v. split; [done|].
    apply sliceVertex_fields in Hsl as (Hid & Hx & Hy & Hz & _).
    destruct (mesh_vertex_refs _ _ _ _ Hrun Hv) as (Hida & _).
    split; [congruence|]. unfold positionOf. by rewrite Hx, Hy, Hz.
  - intros f [k Hk]%list_elem_of_lookup.
    assert (∀ c, c < 3 → corner f c < n) as Hc.
    { intros c Hc. apply Hin, list_elem_of_lookup. exists (k * 3 + c).
      rewrite cornersOf_lookup. destruct (divmod3 k c Hc) as [-> ->].
      by rewrite Hk. }
    split_and!; [apply (Hc 0)|apply (Hc 1)|apply (Hc 2)]; lia.
  - intros a Ha. apply Hall in Ha as [j Hj]%list_elem_of_lookup.
    rewrite cornersOf_lookup in Hj.
    destruct (mesh_faces view !! (j / 3)) as [f|] eqn:Hf'; [|done].
    injection Hj as Hj. exists f.
    split; [apply list_elem_of_lookup; eauto|].
    pose proof (Nat.mod_upper_bound j 3 ltac:(lia)) as Hlt.
    destruct (corner_split f (j mod 3) a Hlt Hj) as [[_ ?]|[[_ ?]|[_ ?]]];
      auto.
Qed.

(** X20.  The half-edges of the construction view are the half-edges of
    the faces shown, at their positions; every reference of a half-edge
    shown stays inside the view, and a twin is shown exactly when it
    belongs to a face shown. *)
Theorem view_halfEdges_closed geometry fullMeshData view currentStep
    (j : nat) (h' : HalfEdgeData) :
  analyzeGeometry (SM:=SM) (NM:=NM) geometry = Some fullMeshData →
  activeMeshData fullMeshData true currentStep = Some view →
  mesh_halfEdges view !! j = Some h' →
  length (mesh_halfEdges view) = length (mesh_faces view) * 3
  ∧ he_id h' = j
  ∧ he_face h' < length (mesh_faces view)
  ∧ he_next h' < length (mesh_halfEdges view)
  ∧ he_prev h' < length (mesh_halfEdges view)
  ∧ he_originVertex h' < length (mesh_vertices view)
  ∧ he_targetVertex h' < length (mesh_vertices view)
  ∧ ∃ h, mesh_halfEdges fullMeshData !! j = Some h
         ∧ he_originVertex h' = he_originVertex h
         ∧ he_targetVertex h' = he_targetVertex h
         ∧ ∀ t, he_twin h' = Some t ↔
                he_twin h = Some t ∧ t < length (mesh_halfEdges view).
Proof.
  intros Hrun Hview Hj.
  destruct (slice_shape _ _ currentStep Hrun)
    as (view' & n & Hview' & Hf & _ & _ & Hhl & Hhs & Hn & _ & Hin & _).
  rewrite Hview in Hview'. injection Hview' as <-.
  destruct (Hhs j h' Hj) as (h & Hh & Hsl).
  apply sliceHalfEdge_fields in Hsl as (Hid & Ho & Ht & Hfc & Hnx & Hpv & Htw).
  destruct (mesh_halfEdge_ids _ _ _ _ Hrun Hh) as (Hidj & Hfj & Hnj & Hpj).
  pose proof (lookup_lt_Some _ _ _ Hj) as Hlt. rewrite Hhl in Hlt.
  pose proof (Nat.div_mod_eq j 3) as Hdm.
  pose proof (Nat.mod_upper_bound j 3 ltac:(lia)) as Hm.
  assert (Hk : j / 3 < length (mesh_faces view)) by lia.
  destruct (lookup_lt_is_Some_2 _ _ Hk) as [f Hfk].
  destruct (mesh_halfEdge_corners _ _ _ _ Hrun Hh) as (f0 & Hf0 & Hco & Hct).
  assert (f0 = f) as ->.
  { rewrite Hf in Hfk. apply lookup_take_Some in Hfk as [Hfk _]. congruence. }
  assert (∀ c, c < 3 → corner f c < n) as Hc.
  { intros c Hc. apply Hin, list_elem_of_lookup. exists (j / 3 * 3 + c).
    rewrite cornersOf_lookup. destruct (divmod3 (j / 3) c Hc) as [-> ->].
    by rewrite Hfk. }
  rewrite Hid, Hfc, Hnx, Hpv, Ho, Ht, Hidj, Hfj, Hnj, Hpj, Hn, Hhl.
  split_and!; try done.
  - pose proof (nextId_div j). pose proof (Nat.div_mod_eq (nextId j) 3).
    pose proof (Nat.mod_upper_bound (nextId j) 3 ltac:(lia)). lia.
  - pose proof (prevId_div j). pose proof (Nat.div_mod_eq (prevId j) 3).
    pose proof (Nat.mod_upper_bound (prevId j) 3 ltac:(lia)). lia.
  - rewrite Hco. by apply Hc.
  - rewrite Hct. apply Hc. apply Nat.mod_upper_bound. lia.
  - exists h. split_and!; try done.
    intros t. rewrite Htw. split; intros [Htwin Hvis]; (split; [done|]).
    + destruct Hvis as (tw & Htw' & Hface).
      destruct (mesh_halfEdge_ids _ _ _ _ Hrun Htw') as (_ & Hft & _).
      apply lookup_lt_Some in Htw'.
      rewrite (mesh_halfEdges_length _ _ Hrun) in Htw'.
      rewrite Hf, length_take in *. unfold shown in *.
      pose proof (Nat.div_mod_eq t 3).
      pose proof (Nat.mod_upper_bound t 3 ltac:(lia)). lia.
    + destruct (mesh_twin_bound _ _ _ _ _ Hrun Hh Htwin) as [tw Htw'].
      exists tw. split; [done|].
      destruct (mesh_halfEdge_ids _ _ _ _ Hrun Htw') as (_ & -> & _).
      rewrite Hf, length_take in *. unfold shown in *.
      pose proof (Nat.div_mod_eq t 3).
      pose proof (Nat.mod_upper_bound t 3 ltac:(lia)). lia.
Qed.

(** X21.  The construction view never shows a winged edge: the engine
    leaves [createdStep] unset, so at every step the edge table of the
    view is empty and no vertex of the view refers to an edge, while
    a vertex keeps its half-edge reference exactly when that half-edge
    is shown. *)
Theorem view_hides_edges geometry fullMeshData view currentStep :
  analyzeGeometry (SM:=SM) (NM:=NM) geometry = Some fullMeshData →
  activeMeshData fullMeshData true currentStep = Some view →
  mesh_edges view = []
  ∧ ∀ a v', mesh_vertices view !! a = Some v' →
      vertex_incidentEdge v' = None
      ∧ ∃ v, mesh_vertices fullMeshData !! a = Some v
             ∧ ∀ j, vertex_incidentHalfEdge v' = Some j ↔
                    vertex_incidentHalfEdge v = Some j
                    ∧ j < length (mesh_halfEdges view).
Proof.
  intros Hrun Hview.
  destruct (slice_shape _ _ currentStep Hrun)
    as (view' & n & Hview' & Hf & _ & He & Hhl & _ & _ & _ & _ & _ & Hvs).
  rewrite Hview in Hview'. injection Hview' as <-.
  split; [done|]. intros a v' Ha.
  destruct (Hvs a v' Ha) as (v & Hv & Hsl).
  apply sliceVertex_fields in Hsl as (_ & _ & _ & _ & HE & HH).
  destruct (mesh_vertex_refs _ _ _ _ Hrun Hv) as (_ & HEr & HHr).
  split.
  - destruct (vertex_incidentEdge v') as [w|] eqn:Hw; [|done].
    destruct (proj1 (HE w) eq_refl) as (Hw' & e & He' & Hvis).
    destruct (HEr w Hw') as (e' & He'' & Hnone). simplify_eq.
    by rewrite Hnone in Hvis.
  - exists v. split; [done|]. intros j. rewrite HH.
    split; intros [Hj Hvis]; (split; [done|]).
    + destruct Hvis as (he & Hhe & Hface).
      destruct (mesh_halfEdge_ids _ _ _ _ Hrun Hhe) as (_ & Hfj & _).
      apply lookup_lt_Some in Hhe.
      rewrite (mesh_halfEdges_length _ _ Hrun) in Hhe.
      rewrite Hhl, Hf, length_take in *. unfold shown in *.
      pose proof (Nat.div_mod_eq j 3).
      pose proof (Nat.mod_upper_bound j 3 ltac:(lia)). lia.
    + destruct (HHr j Hj) as (he & Hhe & _). exists he. split; [done|].
      destruct (mesh_halfEdge_ids _ _ _ _ Hrun Hhe) as (_ & -> & _).
      rewrite Hhl, Hf, length_take in *. unfold shown in *.
      pose proof (Nat.div_mod_eq j 3).
      pose proof (Nat.mod_upper_bound j 3 ltac:(lia)). lia.
Qed.

End Views.

Lemma head_filter_lookup {A : Type} (P : A → Prop) `{!∀ x, Decision (P x)}
    (l : list A) (k : nat) :
  (∀ j y, l !! j = Some y → P y ↔ j = k) →
  head (filter P l) = l !! k.
Proof.
  revert k. induction l as [|x l IH]; intros k Hp; [done|].
  rewrite filter_cons. destruct k as [|k].
  - by rewrite decide_True by (by rewrite (Hp 0 x eq_refl)).
  - rewrite decide_False by (rewrite (Hp 0 x eq_refl); lia).
    simpl. apply IH. intros j y Hj. rewrite (Hp (S j) y Hj). lia.
Qed.

Lemma filter_none {A : Type} (P : A → Prop) `{!∀ x, Decision (P x)}
    (l : list A) :
  (∀ x, x ∈ l → ¬ P x) → filter P l = [].
Proof.
  intros Hno. rewrite (filter_prefix P l 0); [by rewrite take_0|].
  intros j x Hj. split; [|lia].
  intros HP. destruct (Hno x); [apply list_elem_of_lookup; eauto|done].
Qed.

(** X22.  At step -1 the construction view of any mesh is empty: no
    vertex, face, soup triangle, half-edge or edge.  Switching
    construction mode on leads to that empty view, and switching it
    off leads back to the full mesh. *)
Theorem view_starts_empty {num : Type} (fullMeshData : ProcessedMesh num) :
  activeMeshData fullMeshData true (-1) = Some (mkMesh num [] [] [] [] [])
  ∧ ∀ isConstructionMode : bool,
      activeMeshData fullMeshData
        (toggleConstructionMode fullMeshData isConstructionMode).1
        (toggleConstructionMode fullMeshData isConstructionMode).2
      = Some (if isConstructionMode then fullMeshData
              else mkMesh num [] [] [] [] []).
Proof.
  assert (Hstart : activeMeshData fullMeshData true (-1)
                   = Some (mkMesh num [] [] [] [] [])).
  { unfold activeMeshData. simpl negb. cbv iota.
    rewrite (filter_none (λ f, (Z.of_nat (face_id f) ≤ -1)%Z))
      by (intros; lia).
    rewrite (filter_none (λ he, (Z.of_nat (he_face he) ≤ -1)%Z))
      by (intros; lia).
    rewrite (filter_none (λ e, notAfter (-1) (we_createdStep e))); [done|].
    intros e _ He. unfold notAfter in He.
    destruct (we_createdStep e); [|done].
    by rewrite bool_decide_eq_false_2 in He by lia. }
  split; [done|]. by intros [].
Qed.

(** X23.  Playback from the start: after [n] ticks the step is
    [min n F - 1] for a mesh of [F] faces, and the playing flag is
    cleared on the first tick that finds the last face shown.  The
    step button moves the step as a tick does. *)
Theorem playback_steps {num : Type} (fullMeshData : ProcessedMesh num)
    (n : nat) :
  let F := length (mesh_faces fullMeshData) in
  Nat.iter n (tick fullMeshData) ((-1)%Z, true)
  = ((Z.of_nat (n `min` F) - 1)%Z, bool_decide (n ≤ F))
  ∧ ∀ prev isPlaying,
      stepForward fullMeshData prev
      = (tick fullMeshData (prev, isPlaying)).1.
Proof.
  intros F. split.
  - induction n as [|n IH]; [done|].
    rewrite Nat.iter_succ, IH. unfold tick. fold F.
    destruct (decide (Z.of_nat F - 1 ≤ Z.of_nat (n `min` F) - 1)%Z).
    + rewrite (bool_decide_eq_false_2 (S n ≤ F)) by lia.
      f_equal. lia.
    + rewrite (bool_decide_eq_true_2 (n ≤ F)) by lia.
      rewrite (bool_decide_eq_true_2 (S n ≤ F)) by lia.
      f_equal. lia.
  - intros prev isPlaying. unfold stepForward, tick. fold F.
    destruct (decide (prev < Z.of_nat F - 1)%Z),
      (decide (Z.of_nat F - 1 ≤ prev)%Z); simpl; lia || done.
Qed.

Section LastView.
Context {num : Type} `{JSNumber num}.
Context {SM : Type → Type}
  `{FMap SM, ∀ A, Lookup string A (SM A), ∀ A, Empty (SM A),
    ∀ A, PartialAlter string A (SM A), OMap SM, Merge SM,
    ∀ A, MapFold string A (SM A)} `{!FinMap string SM}.
Context {NM : Type → Type}
  `{FMap NM, ∀ A, Lookup nat A (NM A), ∀ A, Empty (NM A),
    ∀ A, PartialAlter nat A (NM A), OMap NM, Merge NM,
    ∀ A, MapFold nat A (NM A)} `{!FinMap nat NM}.
Implicit Types (geometry : BufferGeometry num).
Implicit Types (fullMeshData view : ProcessedMesh num) (currentStep : Z).

(** In every view of an engine mesh the corners of the faces are
    vertices of the view. *)
Lemma view_corners_bound geometry fullMeshData view
    (isConstructionMode : bool) currentStep (a : nat) :
  analyzeGeometry (SM:=SM) (NM:=NM) geometry = Some fullMeshData →
  activeMeshData fullMeshData isConstructionMode currentStep = Some view →
  a ∈ cornersOf (mesh_faces view) → a < length (mesh_vertices view).
Proof.
  intros Hrun Hview Ha. destruct isConstructionMode.
  - destruct (slice_shape _ _ currentStep Hrun)
      as (view' & n & Hview' & _ & _ & _ & _ & _ & Hn & _ & Hin & _).
    rewrite Hview in Hview'. injection Hview' as <-.
    rewrite Hn. by apply Hin.
  - injection Hview as <-.
    destruct (mesh_discovery _ _ Hrun) as [_ Hord].
    apply list_elem_of_lookup in Ha as [i Hi].
    by destruct (Hord i a Hi).
Qed.

Lemma view_face_ids geometry fullMeshData view
    (isConstructionMode : bool) currentStep (k : nat) (f : FaceData) :
  analyzeGeometry (SM:=SM) (NM:=NM) geometry = Some fullMeshData →
  activeMeshData fullMeshData isConstructionMode currentStep = Some view →
  mesh_faces view !! k = Some f → face_id f = k.
Proof.
  intros Hrun Hview Hf. destruct isConstructionMode.
  - destruct (slice_shape _ _ currentStep Hrun)
      as (view' & n & Hview' & Hfs & _).
    rewrite Hview in Hview'. injection Hview' as <-.
    rewrite Hfs in Hf. apply lookup_take_Some in Hf as [Hf _].
    by eapply mesh_face_ids.
  - injection Hview as <-. by eapply mesh_face_ids.
Qed.

(** X24.  Once the step has reached the last face, the construction
    view has all faces, soup triangles and half-edges of the mesh,
    twins included, and all its vertices with their half-edge
    references; only the edge table and the edge references of the
    vertices are missing. *)
Theorem view_at_last_step geometry fullMeshData view currentStep :
  analyzeGeometry (SM:=SM) (NM:=NM) geometry = Some fullMeshData →
  (Z.of_nat (length (mesh_faces fullMeshData)) - 1 ≤ currentStep)%Z →
  activeMeshData fullMeshData true currentStep = Some view →
  mesh_faces view = mesh_faces fullMeshData
  ∧ mesh_soupTriangles view = mesh_soupTriangles fullMeshData
  ∧ mesh_halfEdges view = mesh_halfEdges fullMeshData
  ∧ mesh_vertices view
    = (λ v, mkVertex (vertex_id v) (vertex_x v) (vertex_y v) (vertex_z v)
                     None (vertex_incidentHalfEdge v))
      <$> mesh_vertices fullMeshData
  ∧ mesh_edges view = [].
Proof.
  intros Hrun Hstep Hview.
  destruct (slice_shape _ _ currentStep Hrun)
    as (view' & n & Hview' & Hf & Hs & He & Hhl & Hhs & Hn & Hnv & Hin
        & Hall & Hvs).
  rewrite Hview in Hview'. injection Hview' as <-.
  destruct (mesh_lengths _ _ Hrun)
    as (_ & _ & _ & _ & _ & _ & _ & Hsl & _).
  assert (Hfaces : mesh_faces view = mesh_faces fullMeshData).
  { rewrite Hf. apply take_ge. unfold shown. lia. }
  assert (Hvis : ∀ j h, mesh_halfEdges fullMeshData !! j = Some h →
            (Z.of_nat (he_face h) ≤ currentStep)%Z).
  { intros j h Hh.
    destruct (mesh_halfEdge_ids _ _ _ _ Hrun Hh) as (_ & -> & _).
    apply lookup_lt_Some in Hh.
    rewrite (mesh_halfEdges_length _ _ Hrun) in Hh.
    pose proof (Nat.div_mod_eq j 3).
    pose proof (Nat.mod_upper_bound j 3 ltac:(lia)). lia. }
  split_and!; [done| | | |done].
  - rewrite Hs. unfold sliceTo. rewrite decide_True by lia.
    apply take_ge. lia.
  - apply list_eq_same_length with (length (mesh_halfEdges view)); [|done|].
    { by rewrite Hhl, Hfaces, (mesh_halfEdges_length _ _ Hrun). }
    intros j h' h _ Hj Hh.
    destruct (Hhs j h' Hj) as (h0 & Hh0 & Hsl'). simplify_eq.
    apply sliceHalfEdge_fields in Hsl'
      as (Hid & Ho & Ht & Hfc & Hnx & Hpv & Htw).
    assert (he_twin h' = he_twin h) as Htwin.
    { destruct (he_twin h) as [t|] eqn:Hth.
      - apply Htw. split; [done|].
        destruct (mesh_twin_bound _ _ _ _ _ Hrun Hh Hth) as [tw Htw'].
        exists tw. split; [done|]. by eapply Hvis.
      - destruct (he_twin h') as [t|] eqn:Hth'; [|done].
        by destruct (proj1 (Htw t) eq_refl). }
    destruct h, h'. simpl in *. congruence.
  - assert (n = length (mesh_vertices fullMeshData)) as Hnn.
    { apply Nat.le_antisymm; [done|].
      destruct (mesh_vertices fullMeshData) as [|v0 vs0] eqn:Hvs0;
        [simpl; lia|].
      rewrite <-Hvs0.
      assert (length (mesh_vertices fullMeshData) - 1 < n); [|lia].
      apply Hin. rewrite Hfaces.
      destruct (mesh_discovery _ _ Hrun) as [Hevery _].
      destruct (Hevery (length (mesh_vertices fullMeshData) - 1)) as [i Hi].
      { rewrite Hvs0. simpl. lia. }
      apply list_elem_of_lookup. eauto. }
    apply list_eq_same_length with n; [by rewrite length_fmap|done|].
    intros a v' w _ Ha Hw.
    destruct (Hvs a v' Ha) as (v & Hv & Hsl').
    rewrite list_lookup_fmap, Hv in Hw. injection Hw as <-.
    apply sliceVertex_fields in Hsl' as (Hid & Hx & Hy & Hz & HE & HH).
    destruct (mesh_vertex_refs _ _ _ _ Hrun Hv) as (_ & HEr & HHr).
    assert (vertex_incidentEdge v' = None) as HEn.
    { destruct (vertex_incidentEdge v') as [w|] eqn:Hw; [|done].
      destruct (proj1 (HE w) eq_refl) as (Hw' & e & He' & Hvis').
      destruct (HEr w Hw') as (e' & He'' & Hnone). simplify_eq.
      by rewrite Hnone in Hvis'. }
    assert (vertex_incidentHalfEdge v' = vertex_incidentHalfEdge v) as HHn.
    { destruct (vertex_incidentHalfEdge v) as [j|] eqn:Hj.
      - apply HH. split; [done|]. destruct (HHr j eq_refl) as (he & Hhe & _).
        exists he. split; [done|]. by eapply Hvis.
      - destruct (vertex_incidentHalfEdge v') as [j|] eqn:Hj'; [|done].
        by destruct (proj1 (HH j) eq_refl). }
    destruct v'. simpl in *. congruence.
Qed.

(** X25.  The index buffer the viewer builds never points outside its
    position buffer, for the full mesh and for every construction
    view: both buffers hold three entries per face and per vertex, and
    every index, times three, leaves room for three coordinates. *)
Theorem viewer_indices_in_range (fround : num → num) geometry fullMeshData
    view (isConstructionMode : bool) currentStep :
  analyzeGeometry (SM:=SM) (NM:=NM) geometry = Some fullMeshData →
  activeMeshData fullMeshData isConstructionMode currentStep = Some view →
  length (positions fround view) = length (mesh_vertices view) * 3
  ∧ length (indices view) = length (mesh_faces view) * 3
  ∧ ∀ i, i ∈ indices view → i * 3 + 2 < length (positions fround view).
Proof.
  intros Hrun Hview.
  assert (Hpl : length (positions fround view)
                = length (mesh_vertices view) * 3).
  { unfold positions. induction (mesh_vertices view) as [|v vs IH]; [done|].
    rewrite bind_cons, length_app, IH. simpl. lia. }
  split; [done|]. split; [apply cornersOf_length|].
  intros i Hi. rewrite Hpl.
  pose proof (view_corners_bound _ _ _ _ _ i Hrun Hview Hi). lia.
Qed.

(** X26.  Highlighting a face of a view never throws: when no face of
    the view has the id nothing is drawn, and for the id of a face of
    the view the three corner vertices of that face are read from the
    vertex table of the view.  In construction mode the face to
    highlight is the step itself, from step 0 on. *)
Theorem face_highlight_reads geometry fullMeshData view
    (isConstructionMode : bool) currentStep (faceId : Z) :
  analyzeGeometry (SM:=SM) (NM:=NM) geometry = Some fullMeshData →
  activeMeshData fullMeshData isConstructionMode currentStep = Some view →
  match mesh_faces view !! Z.to_nat faceId with
  | Some f =>
      (0 ≤ faceId)%Z →
      ∃ v1 v2 v3,
        mesh_vertices view !! face_v1 f = Some v1
        ∧ mesh_vertices view !! face_v2 f = Some v2
        ∧ mesh_vertices view !! face_v3 f = Some v3
        ∧ SingleFaceHighlight view faceId = Some (Some (v1, v2, v3))
  | None => (0 ≤ faceId)%Z → SingleFaceHighlight view faceId = Some None
  end
  ∧ ((faceId < 0)%Z → SingleFaceHighlight view faceId = Some None)
  ∧ (activeFaceHighlight isConstructionMode currentStep = Some faceId ↔
       isConstructionMode = true ∧ faceId = currentStep
       ∧ (0 ≤ currentStep)%Z).
Proof.
  intros Hrun Hview.
  assert (Hids : ∀ k f, mesh_faces view !! k = Some f → face_id f = k)
    by (intros k f; by eapply view_face_ids).
  split_and!.
  - assert (Hhead : (0 ≤ faceId)%Z →
      head (filter (λ f, Z.of_nat (face_id f) = faceId) (mesh_faces view))
      = mesh_faces view !! Z.to_nat faceId).
    { intros Hpos. apply head_filter_lookup. intros j y Hj.
      rewrite (Hids j y Hj). lia. }
    destruct (mesh_faces view !! Z.to_nat faceId) as [f|] eqn:Hf;
      intros Hpos; unfold SingleFaceHighlight; rewrite (Hhead Hpos); [|done].
    assert (∀ c, c < 3 → is_Some (mesh_vertices view !! corner f c)) as Hc.
    { intros c Hc. apply lookup_lt_is_Some_2.
      eapply view_corners_bound; [done..|].
      apply list_elem_of_lookup. exists (Z.to_nat faceId * 3 + c).
      rewrite cornersOf_lookup.
      destruct (divmod3 (Z.to_nat faceId) c Hc) as [-> ->]. by rewrite Hf. }
    destruct (Hc 0) as [v1 Hv1]; [lia|]. destruct (Hc 1) as [v2 Hv2]; [lia|].
    destruct (Hc 2) as [v3 Hv3]; [lia|]. simpl in Hv1, Hv2, Hv3.
    exists v1, v2, v3. by rewrite Hv1, Hv2, Hv3.
  - intros Hneg. unfold SingleFaceHighlight.
    rewrite (filter_none (λ f, Z.of_nat (face_id f) = faceId)); [done|].
    intros; lia.
  - unfold activeFaceHighlight. destruct isConstructionMode; simpl.
    + case_bool_decide; split; try done.
      * by intros [= <-].
      * by intros (_ & -> & _).
      * intros (_ & _ & ?). done.
    + split; [done|]. by intros [? _].
Qed.

End LastView.

(** * The guarantees on the sample meshes *)

(** [quad] after its first face and after both. *)
Definition quad_view0 : ProcessedMesh intnum :=
  Eval vm_compute in default emptyMesh (activeMeshData quad_mesh true 0).
Definition quad_view1 : ProcessedMesh intnum :=
  Eval vm_compute in default emptyMesh (activeMeshData quad_mesh true 1).

Lemma view_quad0 : activeMeshData quad_mesh true 0 = Some quad_view0.
Proof. run. Qed.
Lemma view_quad1 : activeMeshData quad_mesh true 1 = Some quad_view1.
Proof. run. Qed.

Lemma analyzeGeometry_returns_iff_witness :
  is_Some (analyze quad) ↔ length (bufferOffsets quad) mod 3 = 0.
Proof.
  apply (analyzeGeometry_returns_iff (SM:=gmap string) (NM:=gmap nat) quad).
Defined.

Lemma table_sizes_witness :
  length (mesh_faces quad_mesh) * 3 = length (bufferOffsets quad)
  ∧ length (mesh_soupTriangles quad_mesh) = length (mesh_faces quad_mesh)
  ∧ length (mesh_halfEdges quad_mesh) = length (mesh_faces quad_mesh) * 3
  ∧ length (mesh_vertices quad_mesh) ≤ length (mesh_faces quad_mesh) * 3
  ∧ (length (mesh_vertices quad_mesh) = 0
     ↔ length (mesh_faces quad_mesh) = 0).
Proof.
  apply (table_sizes (SM:=gmap string) (NM:=gmap nat) quad); exact analyze_quad.
Defined.

Lemma vertices_distinct_witness :
  ∃ v w,
    mesh_vertices quad_mesh !! 1 = Some v
    ∧ mesh_vertices quad_mesh !! 3 = Some w
    ∧ vertex_id v = 1
    ∧ (vertex_x v = vertex_x w → vertex_y v = vertex_y w →
       vertex_z v = vertex_z w → 1 = 3).
Proof.
  eexists _, _. split; [reflexivity|]. split; [reflexivity|].
  apply (vertices_distinct (SM:=gmap string) (NM:=gmap nat) quad quad_mesh);
    [exact analyze_quad|reflexivity..].
Defined.

Lemma vertex_ids_by_first_use_witness :
  (∀ a, a < length (mesh_vertices quad_mesh) →
     a ∈ cornersOf (mesh_faces quad_mesh))
  ∧ (∀ i a, cornersOf (mesh_faces quad_mesh) !! i = Some a →
       a < length (mesh_vertices quad_mesh)
       ∧ ∀ b, b < a →
           ∃ j, j < i ∧ cornersOf (mesh_faces quad_mesh) !! j = Some b).
Proof.
  apply (vertex_ids_by_first_use (SM:=gmap string) (NM:=gmap nat) quad);
    exact analyze_quad.
Defined.

Lemma halfedge_endpoints_witness :
  ∃ h,
    mesh_halfEdges quad_mesh !! 4 = Some h
    ∧ he_id h = 4
    ∧ he_face h = 4 / 3
    ∧ (∃ f, mesh_faces quad_mesh !! (4 / 3) = Some f
            ∧ face_id f = 4 / 3
            ∧ he_originVertex h = corner f (4 mod 3)
            ∧ he_targetVertex h = corner f ((4 mod 3 + 1) mod 3))
    ∧ he_originVertex <$> mesh_halfEdges quad_mesh !! he_next h
      = Some (he_targetVertex h)
    ∧ he_targetVertex <$> mesh_halfEdges quad_mesh !! he_prev h
      = Some (he_originVertex h).
Proof.
  eexists. split; [reflexivity|].
  apply (halfedge_endpoints (SM:=gmap string) (NM:=gmap nat) quad);
    [exact analyze_quad|reflexivity].
Defined.

(** Half-edge 1 of [quad] runs [1 → 2]; its twin 5 runs [2 → 1]. *)
Lemma twin_is_last_reverse_witness :
  ∃ h,
    mesh_halfEdges quad_mesh !! 1 = Some h
    ∧ match he_twin h with
      | Some t =>
          lastWithPair (mesh_halfEdges quad_mesh)
                       (he_targetVertex h) (he_originVertex h) t
      | None =>
          ∀ g, g ∈ mesh_halfEdges quad_mesh →
               ¬ (he_originVertex g = he_targetVertex h
                  ∧ he_targetVertex g = he_originVertex h)
      end.
Proof.
  eexists. split; [reflexivity|].
  apply (twin_is_last_reverse (SM:=gmap string) (NM:=gmap nat) quad quad_mesh 1);
    [exact analyze_quad|reflexivity].
Defined.

Lemma vertex_incidentHalfEdge_last_witness :
  ∃ v j h,
    mesh_vertices quad_mesh !! 1 = Some v
    ∧ vertex_incidentHalfEdge v = Some j
    ∧ mesh_halfEdges quad_mesh !! j = Some h
    ∧ he_originVertex h = 1
    ∧ ∀ j' h', mesh_halfEdges quad_mesh !! j' = Some h' →
               he_originVertex h' = 1 → j' ≤ j.
Proof.
  eexists.
  destruct (vertex_incidentHalfEdge_last (SM:=gmap string) (NM:=gmap nat)
              quad quad_mesh 1 _ analyze_quad eq_refl) as (j & h & Hj).
  exists j, h. split; [reflexivity|exact Hj].
Defined.

Lemma face_incidentHalfEdge_third_witness :
  ∃ f,
    mesh_faces quad_mesh !! 1 = Some f
    ∧ face_incidentHalfEdge f = Some (1 * 3 + 2)
    ∧ ∃ h, mesh_halfEdges quad_mesh !! (1 * 3 + 2) = Some h
           ∧ he_face h = 1
           ∧ he_originVertex h = face_v3 f ∧ he_targetVertex h = face_v1 f.
Proof.
  eexists. split; [reflexivity|].
  apply (face_incidentHalfEdge_third (SM:=gmap string) (NM:=gmap nat) quad);
    [exact analyze_quad|reflexivity].
Defined.

Lemma one_record_per_pair_witness :
  (∀ i j we we',
     mesh_edges quad_mesh !! i = Some we →
     mesh_edges quad_mesh !! j = Some we' →
     we_startVertex we = we_startVertex we' →
     we_endVertex we = we_endVertex we' → i = j)
  ∧ (∀ j h, mesh_halfEdges quad_mesh !! j = Some h →
       ∃ w we, mesh_edges quad_mesh !! w = Some we ∧ we_id we = w
         ∧ we_startVertex we = he_originVertex h `min` he_targetVertex h
         ∧ we_endVertex we = he_originVertex h `max` he_targetVertex h).
Proof.
  apply (one_record_per_pair (SM:=gmap string) (NM:=gmap nat) quad);
    exact analyze_quad.
Defined.

(** Record 1 of [quad] is the shared edge [{1,2}]. *)
Lemma face_sides_last_witness :
  ∃ we,
    mesh_edges quad_mesh !! 1 = Some we
    ∧ (∀ t k, lastWithPair (mesh_halfEdges quad_mesh)
                (we_startVertex we) (we_endVertex we) t →
         faceOf (mesh_halfEdges quad_mesh) t = Some k →
         we_faceLeft we = Z.of_nat k)
    ∧ ((∀ g, g ∈ mesh_halfEdges quad_mesh →
          ¬ (he_originVertex g = we_startVertex we
             ∧ he_targetVertex g = we_endVertex we)) →
       we_faceLeft we = (-1)%Z)
    ∧ (∀ t k, we_startVertex we ≠ we_endVertex we →
         lastWithPair (mesh_halfEdges quad_mesh)
           (we_endVertex we) (we_startVertex we) t →
         faceOf (mesh_halfEdges quad_mesh) t = Some k →
         we_faceRight we = Z.of_nat k)
    ∧ (we_startVertex we = we_endVertex we
       ∨ (∀ g, g ∈ mesh_halfEdges quad_mesh →
            ¬ (he_originVertex g = we_endVertex we
               ∧ he_targetVertex g = we_startVertex we)) →
       we_faceRight we = (-1)%Z).
Proof.
  eexists. split; [reflexivity|].
  apply (face_sides_last (SM:=gmap string) (NM:=gmap nat) quad quad_mesh 1);
    [exact analyze_quad|reflexivity].
Defined.

Lemma wing_links_witness :
  ∃ we,
    mesh_edges quad_mesh !! 1 = Some we
    ∧ (∀ t h, lastWithPair (mesh_halfEdges quad_mesh)
                (we_startVertex we) (we_endVertex we) t →
         mesh_halfEdges quad_mesh !! t = Some h →
         ∃ n p wn wp,
           mesh_halfEdges quad_mesh !! he_next h = Some n
           ∧ mesh_halfEdges quad_mesh !! he_prev h = Some p
           ∧ recordOf (mesh_edges quad_mesh) n wn
           ∧ recordOf (mesh_edges quad_mesh) p wp
           ∧ we_succLeft we = Z.of_nat wn ∧ we_predLeft we = Z.of_nat wp)
    ∧ (∀ t h, lastWithPair (mesh_halfEdges quad_mesh)
                (we_endVertex we) (we_startVertex we) t →
         mesh_halfEdges quad_mesh !! t = Some h →
         ∃ n p wn wp,
           mesh_halfEdges quad_mesh !! he_next h = Some n
           ∧ mesh_halfEdges quad_mesh !! he_prev h = Some p
           ∧ recordOf (mesh_edges quad_mesh) n wn
           ∧ recordOf (mesh_edges quad_mesh) p wp
           ∧ we_succRight we = Z.of_nat wn ∧ we_predRight we = Z.of_nat wp).
Proof.
  eexists. split; [reflexivity|].
  apply (wing_links (SM:=gmap string) (NM:=gmap nat) quad quad_mesh 1);
    [exact analyze_quad|reflexivity].
Defined.

Lemma vertex_incidentEdge_last_witness :
  ∃ v w we,
    mesh_vertices quad_mesh !! 1 = Some v
    ∧ vertex_incidentEdge v = Some w
    ∧ mesh_edges quad_mesh !! w = Some we
    ∧ (we_startVertex we = 1 ∨ we_endVertex we = 1)
    ∧ ∀ w' we', mesh_edges quad_mesh !! w' = Some we' →
        we_startVertex we' = 1 ∨ we_endVertex we' = 1 → w' ≤ w.
Proof.
  eexists.
  destruct (vertex_incidentEdge_last (SM:=gmap string) (NM:=gmap nat)
              quad quad_mesh 1 _ analyze_quad eq_refl) as (w & we & Hw).
  exists w, we. split; [reflexivity|exact Hw].
Defined.

Lemma face_incidentEdge_last_witness :
  ∃ f,
    mesh_faces quad_mesh !! 0 = Some f
    ∧ match face_incidentEdge f with
      | Some w =>
          ∃ we, mesh_edges quad_mesh !! w = Some we
                ∧ (we_faceLeft we = Z.of_nat 0 ∨ we_faceRight we = Z.of_nat 0)
                ∧ ∀ w' we', mesh_edges quad_mesh !! w' = Some we' →
                    we_faceLeft we' = Z.of_nat 0
                    ∨ we_faceRight we' = Z.of_nat 0 →
                    w' ≤ w
      | None =>
          ∀ we, we ∈ mesh_edges quad_mesh →
                we_faceLeft we ≠ Z.of_nat 0 ∧ we_faceRight we ≠ Z.of_nat 0
      end.
Proof.
  eexists. split; [reflexivity|].
  apply (face_incidentEdge_last (SM:=gmap string) (NM:=gmap nat) quad quad_mesh 0);
    [exact analyze_quad|reflexivity].
Defined.

Lemma vertex_positions_witness :
  ∃ v i p,
    mesh_vertices quad_mesh !! 3 = Some v
    ∧ bufferOffsets quad !! i = Some p
    ∧ cornersOf (mesh_faces quad_mesh) !! i = Some 3
    ∧ positionOf v = pointAt (geo_positions quad) p.
Proof.
  eexists.
  destruct (vertex_positions (SM:=gmap string) (NM:=gmap nat)
              quad quad_mesh 3 _ analyze_quad eq_refl) as (i & p & Hp).
  exists i, p. split; [reflexivity|exact Hp].
Defined.

Lemma face_corner_positions_witness :
  ∃ f,
    mesh_faces quad_mesh !! 1 = Some f
    ∧ face_id f = 1
    ∧ ∃ p v, bufferOffsets quad !! (1 * 3 + 2) = Some p
             ∧ mesh_vertices quad_mesh !! corner f 2 = Some v
             ∧ positionOf v = pointAt (geo_positions quad) p.
Proof.
  eexists. split; [reflexivity|].
  apply (face_corner_positions (SM:=gmap string) (NM:=gmap nat) quad quad_mesh);
    [exact analyze_quad|reflexivity|lia].
Defined.

Lemma soup_triangle_positions_witness :
  ∃ t,
    mesh_soupTriangles quad_mesh !! 1 = Some t
    ∧ soup_id t = 1
    ∧ ∃ p1 p2 p3,
        bufferOffsets quad !! (1 * 3) = Some p1
        ∧ bufferOffsets quad !! (1 * 3 + 1) = Some p2
        ∧ bufferOffsets quad !! (1 * 3 + 2) = Some p3
        ∧ soup_v1 t = pointAt (geo_positions quad) p1
        ∧ soup_v2 t = pointAt (geo_positions quad) p2
        ∧ soup_v3 t = pointAt (geo_positions quad) p3.
Proof.
  eexists. split; [reflexivity|].
  apply (soup_triangle_positions (SM:=gmap string) (NM:=gmap nat) quad quad_mesh);
    [exact analyze_quad|reflexivity].
Defined.

Lemma activeMeshData_never_throws_witness :
  is_Some (activeMeshData quad_mesh true 0).
Proof.
  apply (activeMeshData_never_throws (SM:=gmap string) (NM:=gmap nat) quad);
    exact analyze_quad.
Defined.

Lemma view_shows_first_faces_witness :
  mesh_faces quad_view0 = take (Z.to_nat (0 + 1)) (mesh_faces quad_mesh)
  ∧ mesh_soupTriangles quad_view0
    = take (Z.to_nat (0 + 1)) (mesh_soupTriangles quad_mesh)
  ∧ length (mesh_soupTriangles quad_view0) = length (mesh_faces quad_view0).
Proof.
  apply (view_shows_first_faces (SM:=gmap string) (NM:=gmap nat) quad);
    [exact analyze_quad|lia|exact view_quad0].
Defined.

Lemma view_vertices_in_use_witness :
  (∀ a v', mesh_vertices quad_view0 !! a = Some v' →
     ∃ v, mesh_vertices quad_mesh !! a = Some v
          ∧ vertex_id v' = a ∧ positionOf v' = positionOf v)
  ∧ (∀ f, f ∈ mesh_faces quad_view0 →
       face_v1 f < length (mesh_vertices quad_view0)
       ∧ face_v2 f < length (mesh_vertices quad_view0)
       ∧ face_v3 f < length (mesh_vertices quad_view0))
  ∧ (∀ a, a < length (mesh_vertices quad_view0) →
       ∃ f, f ∈ mesh_faces quad_view0
            ∧ (face_v1 f = a ∨ face_v2 f = a ∨ face_v3 f = a)).
Proof.
  apply (view_vertices_in_use (SM:=gmap string) (NM:=gmap nat) quad quad_mesh
           quad_view0 0); [exact analyze_quad|exact view_quad0].
Defined.

(** Half-edge 1 of [quad] has twin 5, of the second face: hidden after
    the first face. *)
Lemma view_halfEdges_closed_witness :
  ∃ h',
    mesh_halfEdges quad_view0 !! 1 = Some h'
    ∧ length (mesh_halfEdges quad_view0) = length (mesh_faces quad_view0) * 3
    ∧ he_id h' = 1
    ∧ he_face h' < length (mesh_faces quad_view0)
    ∧ he_next h' < length (mesh_halfEdges quad_view0)
    ∧ he_prev h' < length (mesh_halfEdges quad_view0)
    ∧ he_originVertex h' < length (mesh_vertices quad_view0)
    ∧ he_targetVertex h' < length (mesh_vertices quad_view0)
    ∧ ∃ h, mesh_halfEdges quad_mesh !! 1 = Some h
           ∧ he_originVertex h' = he_originVertex h
           ∧ he_targetVertex h' = he_targetVertex h
           ∧ ∀ t, he_twin h' = Some t ↔
                  he_twin h = Some t ∧ t < length (mesh_halfEdges quad_view0).
Proof.
  eexists. split; [reflexivity|].
  apply (view_halfEdges_closed (SM:=gmap string) (NM:=gmap nat) quad quad_mesh
           quad_view0 0); [exact analyze_quad|exact view_quad0|reflexivity].
Defined.

Lemma view_hides_edges_witness :
  mesh_edges quad_view1 = []
  ∧ ∀ a v', mesh_vertices quad_view1 !! a = Some v' →
      vertex_incidentEdge v' = None
      ∧ ∃ v, mesh_vertices quad_mesh !! a = Some v
             ∧ ∀ j, vertex_incidentHalfEdge v' = Some j ↔
                    vertex_incidentHalfEdge v = Some j
                    ∧ j < length (mesh_halfEdges quad_view1).
Proof.
  apply (view_hides_edges (SM:=gmap string) (NM:=gmap nat) quad quad_mesh
           quad_view1 1); [exact analyze_quad|exact view_quad1].
Defined.

Lemma view_at_last_step_witness :
  mesh_faces quad_view1 = mesh_faces quad_mesh
  ∧ mesh_soupTriangles quad_view1 = mesh_soupTriangles quad_mesh
  ∧ mesh_halfEdges quad_view1 = mesh_halfEdges quad_mesh
  ∧ mesh_vertices quad_view1
    = (λ v, mkVertex (vertex_id v) (vertex_x v) (vertex_y v) (vertex_z v)
                     None (vertex_incidentHalfEdge v))
      <$> mesh_vertices quad_mesh
  ∧ mesh_edges quad_view1 = [].
Proof.
  apply (view_at_last_step (SM:=gmap string) (NM:=gmap nat) quad quad_mesh
           quad_view1 1); [exact analyze_quad|simpl; lia|exact view_quad1].
Defined.

Lemma viewer_indices_in_range_witness :
  length (positions id quad_view0) = length (mesh_vertices quad_view0) * 3
  ∧ length (indices quad_view0) = length (mesh_faces quad_view0) * 3
  ∧ ∀ i, i ∈ indices quad_view0 →
         i * 3 + 2 < length (positions id quad_view0).
Proof.
  apply (viewer_indices_in_range (SM:=gmap string) (NM:=gmap nat) id quad
           quad_mesh quad_view0 true 0); [exact analyze_quad|exact view_quad0].
Defined.

Lemma face_highlight_reads_witness :
  match mesh_faces quad_view0 !! Z.to_nat 0 with
  | Some f =>
      (0 ≤ 0)%Z →
      ∃ v1 v2 v3,
        mesh_vertices quad_view0 !! face_v1 f = Some v1
        ∧ mesh_vertices quad_view0 !! face_v2 f = Some v2
        ∧ mesh_vertices quad_view0 !! face_v3 f = Some v3
        ∧ SingleFaceHighlight quad_view0 0 = Some (Some (v1, v2, v3))
  | None => (0 ≤ 0)%Z → SingleFaceHighlight quad_view0 0 = Some None
  end
  ∧ ((0 < 0)%Z → SingleFaceHighlight quad_view0 0 = Some None)
  ∧ (activeFaceHighlight true 0 = Some 0%Z ↔
       true = true ∧ 0%Z = 0%Z ∧ (0 ≤ 0)%Z).
Proof.
  apply (face_highlight_reads (SM:=gmap string) (NM:=gmap nat) quad quad_mesh
           quad_view0 true 0 0); [exact analyze_quad|exact view_quad0].
Defined.
